(** * HAL alignment store and identity/depth scan

    A shallow embedding of two translation units of the HAL toolkit:

    - [identity/halIdentity.cpp]  (module [Identity]): the depth scan
      that walks the columns of a reference sequence and writes two wiggle
      tracks, the number of aligned genomes and the number of genomes with
      an identical base;
    - [api/hdf5_impl/hdf5Alignment.cpp] (module [Store]): the alignment
      store with its tree index, genome cache and dirty flag.

    Unsigned 64-bit values ([hal_size_t]) are integers in [Z] with the
    wrap-around written out ([wrap64]); a [char] is a byte, with its
    promotion to [int] written out where the code compares it with an
    [int]; pointers are addresses in a heap; [std::map] is a [gmap],
    listed by key where the code iterates over it; a [std::string] that
    is handed on as a C string ends at its first NUL; a column map,
    whose iteration order matters, is an association list. *)

From stdpp Require Import base option list gmap strings sorting.
From Stdlib Require Import ZArith Lia Ascii String.
From Stdlib Require Import Floats.PrimFloat.

Local Open Scope Z_scope.

(** ** Errors

    Both files throw [hal_exception] carrying only a message.  The throw
    sites are told apart by the kind of failure they report; each throw
    site below names its message. *)
Inductive hal_error :=
  | InvalidArgumentError
  | DuplicateNameError
  | NotFoundError
  | RangeError
  | InvariantViolationError
  | StorageIOError.

#[global] Instance hal_error_eq_dec : EqDecision hal_error.
Proof. solve_decision. Defined.

(** ** Machine integers *)

(** [hal_size_t] is [uint64_t]: arithmetic is modulo [2^64]. *)
Definition wrap64 (z : Z) : Z := z mod 2 ^ 64.

(** Conversion of a [hal_size_t] to [hal_index_t] ([int64_t]). *)
Definition as_index (z : Z) : Z :=
  if decide (wrap64 z < 2 ^ 63) then wrap64 z else wrap64 z - 2 ^ 64.

Module Identity.

(** *** Data *)

(** A [const Genome *]: genomes are compared by address only. *)
Abbreviation GenomePtr := nat.

(** What the scan uses of a [hal::Sequence]: its name, its genome, its
    start position in genome coordinates and its length. *)
Record Sequence := mkSequence {
  getName : string;
  getGenome : GenomePtr;
  getStartPosition : Z;
  getSequenceLength : Z
}.

#[global] Instance Sequence_eq_dec : EqDecision Sequence.
Proof. solve_decision. Defined.

(** What the scan uses of a [hal::Genome]: its address, its total length
    and its sequences in the order of the sequence iterator. *)
Record Genome := mkGenome {
  genomePtr : GenomePtr;
  genomeLength : Z;
  genomeSequences : list Sequence
}.

(** A [DNASet]: the bases of one sequence in a column. *)
Abbreviation DNASet := (list ascii).

(** [ColumnIterator::ColumnMap], in iteration order. *)
Abbreviation ColumnMap := (list (Sequence * DNASet)).

(** The columns of an alignment as the iterator hands them out: for a
    reference sequence, a target set and the [noAncestors] flag, the
    column at a genome position. *)
Definition ColumnSource := Sequence -> gset GenomePtr -> bool -> Z -> ColumnMap.

(** One line of a wiggle track. *)
Inductive WigLine :=
  | FixedStep (chrom : string) (start step : Z)
  | Value (n : Z).

(** The two output streams. *)
Record Tracks := mkTracks {
  outStreamNIdentical : list WigLine;
  outStreamNAligned : list WigLine
}.

(** How a call ends. [OutOfRange] is the [std::out_of_range] of
    [cmap->at]; [Undefined] is [front()] of an empty set; [NoFuel] is
    the model running out of steps. *)
Inductive Status :=
  | Returned
  | Raised (e : hal_error)
  | OutOfRange
  | Undefined
  | NoFuel.

#[global] Instance Status_eq_dec : EqDecision Status.
Proof. solve_decision. Defined.

(** A [char] promoted to [int].  [char] is signed where the tool is
    built (GCC on x86-64), so a byte from [0x80] on is a negative
    number. *)
Definition char_to_int (c : ascii) : Z :=
  let n := Z.of_N (N_of_ascii c) in
  if decide (n < 128) then n else n - 256.

(** An [int] converted to [char]: its low eight bits. *)
Definition int_to_char (i : Z) : ascii := ascii_of_N (Z.to_N (i mod 256)).

(** [int tolower(int)] of the C library in the C locale (glibc): the
    upper-case letters go to lower case, [EOF] and the values of an
    [unsigned char] stay, and the other negative values of a [char] come
    back as the value of the [unsigned char]. *)
Definition tolower_int (i : Z) : Z :=
  if decide (65 <= i <= 90) then i + 32
  else if decide (-128 <= i < -1) then i + 256
  else i.

(** [const char targetNuc = tolower(base)]: the result of [tolower]
    stored in a [char]. *)
Definition tolower (c : ascii) : ascii :=
  int_to_char (tolower_int (char_to_int c)).

(** *** The column iterator

    Modelled from the spec: the column iterator (halColumnIterator) is
    not part of the two files; it is built over a position range, moves
    one column to the right, jumps to a site, reports the last column and
    returns the current column map. *)
Record ColumnIterator := mkColumnIterator {
  ci_index : Z;
  ci_lastIndex : Z
}.

(** [sequence->getColumnIterator(targets, 0, position, lastPosition, ...)]
    takes sequence-relative positions and keeps genome positions. *)
Definition getColumnIterator (sequence : Sequence) (position lastPosition : Z)
  : ColumnIterator :=
  {| ci_index := position + getStartPosition sequence;
     ci_lastIndex := lastPosition + getStartPosition sequence |}.

Definition toRight (it : ColumnIterator) : ColumnIterator :=
  {| ci_index := ci_index it + 1; ci_lastIndex := ci_lastIndex it |}.

Definition toSite (columnIndex lastIndex : Z) : ColumnIterator :=
  {| ci_index := columnIndex; ci_lastIndex := lastIndex |}.

(** Dropping the empty entries of the current column changes no count:
    the scan skips them anyway. *)
Definition defragment (it : ColumnIterator) : ColumnIterator := it.

Definition lastColumn (it : ColumnIterator) : bool :=
  bool_decide (ci_lastIndex it <= ci_index it).

Definition getColumnMap (cols : Z -> ColumnMap) (it : ColumnIterator) : ColumnMap :=
  cols (ci_index it).

(** *** The counting loop over one column (lines 275-300) *)

Record Counters := mkCounters {
  last_genome : option GenomePtr;
  n_identical : Z;
  n_aligned : Z
}.

(** [hal_size_t n_identical = -1; hal_size_t n_aligned = -1;
    const Genome *last_genome = NULL;] *)
Definition counters_init : Counters :=
  {| last_genome := None; n_identical := wrap64 (-1); n_aligned := wrap64 (-1) |}.

(** The body of the [for] loop over the column map.  The test
    [tolower(base) == targetNuc] compares the [int] that [tolower]
    returns with the [char] [targetNuc], promoted to [int]. *)
Definition count_entry (targetNuc : ascii) (c : Counters) (e : Sequence * DNASet)
  : Counters :=
  match e.2 with
  | [] => c
  | b :: _ =>
      if decide (Some (getGenome e.1) = last_genome c) then c
      else
        {| last_genome := Some (getGenome e.1);
           n_identical :=
             if decide (tolower_int (char_to_int b) = char_to_int targetNuc)
             then wrap64 (n_identical c + 1) else n_identical c;
           n_aligned := wrap64 (n_aligned c + 1) |}
  end.

Definition count_column (targetNuc : ascii) (cmap : ColumnMap) : Counters :=
  fold_left (count_entry targetNuc) cmap counters_init.

(** [cmap->at(sequence)]: the entry of the scanned sequence. *)
Definition column_at (cmap : ColumnMap) (sequence : Sequence) : option DNASet :=
  snd <$> List.find (fun e => bool_decide (e.1 = sequence)) cmap.

Definition emit (out : Tracks) (c : Counters) : Tracks :=
  {| outStreamNIdentical := outStreamNIdentical out ++ [Value (n_identical c)];
     outStreamNAligned := outStreamNAligned out ++ [Value (n_aligned c)] |}.

Definition emit_header (out : Tracks) (chrom : string) (start step : Z) : Tracks :=
  {| outStreamNIdentical := outStreamNIdentical out ++ [FixedStep chrom start step];
     outStreamNAligned := outStreamNAligned out ++ [FixedStep chrom start step] |}.

(** What one column contributes to the tracks, or how reading the
    reference base fails (line 284). *)
Definition scan_column (cmap : ColumnMap) (sequence : Sequence) : Status + Counters :=
  match column_at cmap sequence with
  | None => inl OutOfRange
  | Some [] => inl Undefined
  | Some (b :: _) => inr (count_column (tolower b) cmap)
  end.

(** The iterator after [pos += step] (lines 314-329). *)
Definition advance (step last pos : Z) (colIt : ColumnIterator) : ColumnIterator :=
  if decide (step = 1) then
    let it := toRight colIt in
    if decide (pos mod 1000 = 0) then defragment it else it
  else toSite (as_index pos) (as_index last).

(** The [while (pos <= last)] loop (lines 273-330). *)
Fixpoint scan_loop (fuel : nat) (cols : Z -> ColumnMap) (sequence : Sequence)
    (step last pos : Z) (colIt : ColumnIterator) (out : Tracks) : Tracks * Status :=
  match fuel with
  | O => (out, NoFuel)
  | S fuel' =>
      if decide (pos <= last) then
        match scan_column (getColumnMap cols colIt) sequence with
        | inl st => (out, st)
        | inr c =>
            let out := emit out c in
            if lastColumn colIt then (out, Returned)
            else
              let pos := wrap64 (pos + step) in
              scan_loop fuel' cols sequence step last pos
                (advance step last pos colIt) out
        end
      else (out, Returned)
  end.

(** [printSequence] (lines 221-331). *)
Definition printSequence (fuel : nat) (src : ColumnSource) (out : Tracks)
    (sequence : Sequence) (targetSet : gset GenomePtr)
    (start length step : Z) (countDupes noAncestors : bool) : Tracks * Status :=
  let seqLen := getSequenceLength sequence in
  if decide (seqLen = 0) then (out, Returned)
  else
    let length := if decide (length = 0) then wrap64 (seqLen - start) else length in
    let last := wrap64 (start + length) in
    if decide (last > seqLen) then
      (* "Specified range [start,length] is out of range for sequence ..." *)
      (out, Raised RangeError)
    else
      let pos := start in
      let colIt :=
        getColumnIterator sequence (as_index pos) (as_index (last - 1)) in
      let out := emit_header out (getName sequence) (wrap64 (start + 1)) step in
      let pos := wrap64 (pos + getStartPosition sequence) in
      let last := wrap64 (last + getStartPosition sequence) in
      scan_loop fuel (src sequence targetSet noAncestors) sequence step last pos colIt out.

(** The loop over the sequences of the genome (lines 358-371). *)
Fixpoint printGenome_loop (fuel : nat) (src : ColumnSource)
    (targetSet : gset GenomePtr) (start length step : Z)
    (countDupes noAncestors : bool)
    (seqs : list Sequence) (runningLength : Z) (out : Tracks) : Tracks * Status :=
  match seqs with
  | [] => (out, Returned)
  | sequence :: rest =>
      let seqLen := getSequenceLength sequence in
      let seqStart := wrap64 (getStartPosition sequence) in
      if decide (wrap64 (start + length) >= seqStart
                 /\ start < wrap64 (seqStart + seqLen)
                 /\ runningLength < length) then
        let readStart :=
          if decide (seqStart >= start) then 0 else wrap64 (start - seqStart) in
        let readLen := Z.min (wrap64 (seqLen - readStart)) length in
        let readLen := Z.min readLen (wrap64 (length - runningLength)) in
        match printSequence fuel src out sequence targetSet readStart readLen step
                countDupes noAncestors with
        | (out, Returned) =>
            printGenome_loop fuel src targetSet start length step countDupes
              noAncestors rest (wrap64 (runningLength + readLen)) out
        | r => r
        end
      else
        printGenome_loop fuel src targetSet start length step countDupes
          noAncestors rest runningLength out
  end.

(** [printGenome] (lines 341-373). *)
Definition printGenome (fuel : nat) (src : ColumnSource) (out : Tracks)
    (genome : Genome) (sequence : option Sequence) (targetSet : gset GenomePtr)
    (start length step : Z) (countDupes noAncestors : bool) : Tracks * Status :=
  match sequence with
  | Some sequence =>
      printSequence fuel src out sequence targetSet start length step
        countDupes noAncestors
  | None =>
      if decide (wrap64 (start + length) > genomeLength genome) then
        (* "Specified range [start,length] is out of range for genome ..." *)
        (out, Raised RangeError)
      else
        let length :=
          if decide (length = 0) then wrap64 (genomeLength genome - start)
          else length in
        printGenome_loop fuel src targetSet start length step countDupes
          noAncestors (genomeSequences genome) 0 out
  end.

(** *** Vocabulary of the properties *)

(** The counters before the first entry of a column and after each of
    its entries: every value the counters take. *)
Fixpoint count_trace (targetNuc : ascii) (c : Counters) (cmap : ColumnMap)
  : list Counters :=
  match cmap with
  | [] => [c]
  | e :: rest => c :: count_trace targetNuc (count_entry targetNuc c e) rest
  end.

(** No step of the trace takes a counter down: an increment that wraps
    takes it from [2^64 - 1] to [0]. *)
Definition no_wraparound (tr : list Counters) : Prop :=
  forall (i : nat) c c', tr !! i = Some c -> tr !! S i = Some c' ->
    n_identical c <= n_identical c' /\ n_aligned c <= n_aligned c'.

(** The entries that pass both skip tests of the loop, given the genome
    counted last: the entries that increment [n_aligned]. *)
Fixpoint counted (lg : option GenomePtr) (cmap : ColumnMap) : ColumnMap :=
  match cmap with
  | [] => []
  | e :: rest =>
      match e.2 with
      | [] => counted lg rest
      | _ :: _ =>
          if decide (Some (getGenome e.1) = lg) then counted lg rest
          else e :: counted (Some (getGenome e.1)) rest
      end
  end.

(** The counted entries whose first base is the reference base: the
    entries that increment [n_identical]. *)
Definition identical_entry (targetNuc : ascii) (e : Sequence * DNASet) : Prop :=
  (fun b => tolower_int (char_to_int b)) <$> head e.2 = Some (char_to_int targetNuc).

#[global] Instance identical_entry_dec t e : Decision (identical_entry t e).
Proof. unfold identical_entry. apply _. Defined.

(** A base that is an ASCII character: a byte below [0x80]. *)
Definition ascii_base (b : ascii) : Prop := (N_of_ascii b < 128)%N.

(** The column without the entries of a genome. *)
Definition without_genome (g : GenomePtr) (cmap : ColumnMap) : ColumnMap :=
  filter (fun e => getGenome e.1 <> g) cmap.

(** How often a genome increments each counter in a column. *)
Definition aligned_contribution (g : GenomePtr) (cmap : ColumnMap) : nat :=
  List.length (filter (fun e => getGenome e.1 = g) (counted None cmap)).

Definition identical_contribution (targetNuc : ascii) (g : GenomePtr)
    (cmap : ColumnMap) : nat :=
  List.length (filter (fun e => getGenome e.1 = g /\ identical_entry targetNuc e)
                 (counted None cmap)).

(** The genomes of the non-empty entries, in iteration order. *)
Definition nonempty_genomes (cmap : ColumnMap) : list GenomePtr :=
  (fun e => getGenome e.1) <$> filter (fun e => e.2 <> []) cmap.

(** Equal genomes are adjacent: between two entries of a genome there is
    no entry of another one. *)
Definition contiguous (gs : list GenomePtr) : Prop :=
  forall (i j k : nat) g, (i < j < k)%nat ->
    gs !! i = Some g -> gs !! k = Some g -> gs !! j = Some g.

(** The counters of the column at a position, where the reference entry
    can be read. *)
Definition counters_at (cols : Z -> ColumnMap) (sequence : Sequence) (p : Z)
  : Counters :=
  match scan_column (cols p) sequence with
  | inr c => c
  | inl _ => counters_init
  end.

(** Every column holds a base of the scanned sequence. *)
Definition reference_present (cols : Z -> ColumnMap) (sequence : Sequence) : Prop :=
  forall p, exists c, scan_column (cols p) sequence = inr c.

(** The columns at the positions from [lo] up to, not including, [hi]
    hold a base of the scanned sequence. *)
Definition reference_within (cols : Z -> ColumnMap) (sequence : Sequence)
    (lo hi : Z) : Prop :=
  forall p, lo <= p < hi -> exists c, scan_column (cols p) sequence = inr c.

(** The lines of the columns at the positions [ps], appended to [out]. *)
Definition emit_all (cols : Z -> ColumnMap) (sequence : Sequence) (ps : list Z)
    (out : Tracks) : Tracks :=
  fold_left (fun o p => emit o (counters_at cols sequence p)) ps out.

(** The kind of each line of a track: a header with its fields, or a
    value. *)
Definition line_kinds (l : list WigLine) : list (option (string * Z * Z)) :=
  (fun x => match x with
            | FixedStep chrom start step => Some (chrom, start, step)
            | Value _ => None
            end) <$> l.

(** The two tracks have their headers and their values at the same
    lines. *)
Definition in_step (out : Tracks) : Prop :=
  line_kinds (outStreamNIdentical out) = line_kinds (outStreamNAligned out).

(** The positions [first], [first + step], ... that are not after
    [bound]. *)
Definition grid (first step bound : Z) : list Z :=
  (fun k => first + k * step) <$> seqZ 0 ((bound - first) / step + 1).





(** The genomes with a non-empty entry in a column. *)
Definition aligned_genomes (cmap : ColumnMap) : gset GenomePtr :=
  list_to_set (nonempty_genomes cmap).

(** Two columns with the same sequences and, up to case, the same
    bases. *)
Definition same_up_to_case (cmap cmap' : ColumnMap) : Prop :=
  Forall2 (fun e e' => e.1 = e'.1 /\ tolower <$> e.2 = tolower <$> e'.2) cmap cmap'.

(** *** Sample data *)

(** A reference sequence of genome 1, two scaffolds of genome 2 and a
    chromosome of genome 3. *)
Definition chr1 : Sequence := mkSequence "chr1" 1%nat 0 10.
Definition scaffoldA : Sequence := mkSequence "scaffoldA" 2%nat 0 5.
Definition scaffoldB : Sequence := mkSequence "scaffoldB" 2%nat 5 5.
Definition chrX : Sequence := mkSequence "chrX" 3%nat 0 7.

(** A column that holds the base of the reference alone. *)
Definition own_column : ColumnMap := [(chr1, ["A"%char])].

(** A column with two entries of genome 1: [chr1], with another base,
    and a second chromosome of the genome, the one scanned. *)
Definition chr2 : Sequence := mkSequence "chr2" 1%nat 10 10.
Definition paralog_column : ColumnMap :=
  [(chr1, ["C"%char]); (chr2, ["A"%char])].

(** A column in which the two entries of genome 2 are apart. *)
Definition split_column : ColumnMap :=
  [(chr1, ["A"%char]); (scaffoldA, ["A"%char]); (chrX, ["C"%char]);
   (scaffoldB, ["a"%char])].

(** The same entries with the ones of genome 2 next to each other. *)
Definition grouped_column : ColumnMap :=
  [(chr1, ["A"%char]); (scaffoldA, ["A"%char]); (scaffoldB, ["a"%char]);
   (chrX, ["C"%char])].


(** A zero-length sequence of genome 1, after [chr1]. *)
Definition chrUn : Sequence := mkSequence "chrUn" 1%nat 10 0.

Definition genome1 : Genome := mkGenome 1%nat 10 [chr1; chrUn].

(** An alignment in which nothing aligns to the reference [chr1]. *)
Definition own_source : ColumnSource := fun _ _ _ _ => own_column.

Definition no_tracks : Tracks := mkTracks [] [].


(** An alignment in which the column at position [p] holds the base of
    the reference [chr1] and one base of each of [p] other genomes, so
    that the aligned count of a column is its position. *)
Definition ramp_source : ColumnSource :=
  fun _ _ _ p =>
    (chr1, ["A"%char])
    :: ((fun i : nat => (mkSequence "s" (S (S i)) 0 1, ["C"%char]))
          <$> seq 0 (Z.to_nat p)).

(** An alignment in which nothing aligns to [chr1] and the columns
    outside [chr1] hold no entry. *)
Definition chr1_source : ColumnSource :=
  fun _ _ _ p => if decide (0 <= p < 10) then own_column else [].

(** An alignment in which a sequence aligns to nothing but itself. *)
Definition self_source : ColumnSource := fun s _ _ _ => [(s, ["A"%char])].

(** A genome of two chromosomes and a genome of one. *)
Definition genome12 : Genome := mkGenome 1%nat 20 [chr1; chr2].
Definition genome_chr1 : Genome := mkGenome 1%nat 10 [chr1].

End Identity.

Module Store.

(** *** Memory *)

(** An address of a heap object ([stTree *], [HDF5Genome *]). *)
Abbreviation ptr := nat.

(** Modelled from the spec: the tree node of sonLib ([sonLibTree.h]) is
    not part of the two files; a node has a label, a branch length, a
    parent and its children in order. *)
Record stTree := mkTree {
  label : option string;
  branchLength : float;
  parent : option ptr;
  nodes : list ptr
}.

(** The payload of a genome is opaque to the store. *)
Abbreviation Payload := string.

(** Modelled from the spec: [HDF5Genome] ([hdf5Genome.h]) is not part of
    the two files; a genome object has a name and a payload that [read]
    loads from the container and [write] stores back. *)
Record HDF5Genome := mkGenome {
  genomeName : string;
  genomePayload : Payload
}.

Inductive AccessFlags := H5F_ACC_RDONLY | H5F_ACC_RDWR | H5F_ACC_TRUNC.

(** Modelled from the spec: the container ([H5::H5File]) is an opaque
    store of named groups; the store uses the attribute tables of the
    groups [Meta] and [Phylogeny] and one payload per genome. *)
Record H5File := mkFile {
  filePath : string;
  metaGroup : gmap string string;
  treeGroup : gmap string string;
  genomeGroups : gmap string Payload
}.

(** Reads and writes of the container, in program order. *)
Inductive IOEvent :=
  | ReadGenome (name : string)
  | WriteGenome (name : string)
  | WriteTree (treeString : string)
  | WriteMeta.

(** The members of [HDF5Alignment] (the property lists are left out). *)
Record HDF5Alignment := mkAlignment {
  _file : option H5File;
  _flags : AccessFlags;
  _metaData : option (gmap string string);
  _tree : option ptr;
  _nodeMap : gmap string ptr;
  _openGenomes : gmap string ptr;
  _dirty : bool
}.

(** The object together with the memory and the storage it lives in. *)
Record World := mkWorld {
  self : HDF5Alignment;
  trees : gmap ptr stTree;
  genomes : gmap ptr HDF5Genome;
  nextTree : ptr;
  nextGenome : ptr;
  disk : gmap string H5File;
  ioLog : list IOEvent
}.

Definition MetaGroupName : string := "Meta".
Definition TreeGroupName : string := "Phylogeny".
Definition GenomesGroupName : string := "Genomes".

(** The constructors (lines 28-59). *)
Definition HDF5Alignment_new : HDF5Alignment :=
  {| _file := None; _flags := H5F_ACC_RDONLY; _metaData := None; _tree := None;
     _nodeMap := ∅; _openGenomes := ∅; _dirty := false |}.

Definition World_new (d : gmap string H5File) : World :=
  {| self := HDF5Alignment_new; trees := ∅; genomes := ∅;
     nextTree := 1%nat; nextGenome := 1%nat; disk := d; ioLog := [] |}.

(** Field updates. *)
Definition set_file (v : option H5File) (a : HDF5Alignment) :=
  mkAlignment v (_flags a) (_metaData a) (_tree a) (_nodeMap a) (_openGenomes a) (_dirty a).
Definition set_flags (v : AccessFlags) (a : HDF5Alignment) :=
  mkAlignment (_file a) v (_metaData a) (_tree a) (_nodeMap a) (_openGenomes a) (_dirty a).
Definition set_metaData (v : option (gmap string string)) (a : HDF5Alignment) :=
  mkAlignment (_file a) (_flags a) v (_tree a) (_nodeMap a) (_openGenomes a) (_dirty a).
Definition set_tree (v : option ptr) (a : HDF5Alignment) :=
  mkAlignment (_file a) (_flags a) (_metaData a) v (_nodeMap a) (_openGenomes a) (_dirty a).
Definition set_nodeMap (v : gmap string ptr) (a : HDF5Alignment) :=
  mkAlignment (_file a) (_flags a) (_metaData a) (_tree a) v (_openGenomes a) (_dirty a).
Definition set_openGenomes (v : gmap string ptr) (a : HDF5Alignment) :=
  mkAlignment (_file a) (_flags a) (_metaData a) (_tree a) (_nodeMap a) v (_dirty a).
Definition set_dirty (v : bool) (a : HDF5Alignment) :=
  mkAlignment (_file a) (_flags a) (_metaData a) (_tree a) (_nodeMap a) (_openGenomes a) v.

Definition upd_self (f : HDF5Alignment -> HDF5Alignment) (w : World) :=
  mkWorld (f (self w)) (trees w) (genomes w) (nextTree w) (nextGenome w) (disk w) (ioLog w).
Definition set_trees (v : gmap ptr stTree) (w : World) :=
  mkWorld (self w) v (genomes w) (nextTree w) (nextGenome w) (disk w) (ioLog w).
Definition set_genomes (v : gmap ptr HDF5Genome) (w : World) :=
  mkWorld (self w) (trees w) v (nextTree w) (nextGenome w) (disk w) (ioLog w).
Definition set_nextTree (v : ptr) (w : World) :=
  mkWorld (self w) (trees w) (genomes w) v (nextGenome w) (disk w) (ioLog w).
Definition set_nextGenome (v : ptr) (w : World) :=
  mkWorld (self w) (trees w) (genomes w) (nextTree w) v (disk w) (ioLog w).
Definition set_disk (v : gmap string H5File) (w : World) :=
  mkWorld (self w) (trees w) (genomes w) (nextTree w) (nextGenome w) v (ioLog w).
Definition log_event (e : IOEvent) (w : World) :=
  mkWorld (self w) (trees w) (genomes w) (nextTree w) (nextGenome w) (disk w) (ioLog w ++ [e]).

(** *** Computations

    A member function is a state transformer that ends in a value, in a
    thrown exception, in a failed [assert], in undefined behaviour (a
    NULL or dangling pointer is dereferenced) or, for the recursions the
    model bounds, out of fuel.  A thrown exception keeps the state as it
    was at the throw. *)
Inductive Outcome (A : Type) :=
  | Ok (a : A)
  | Throw (e : hal_error)
  | AssertFail
  | Fault
  | Diverge.
Arguments Ok {A} a.
Arguments Throw {A} e.
Arguments AssertFail {A}.
Arguments Fault {A}.
Arguments Diverge {A}.

Definition M (A : Type) : Type := World -> Outcome A * World.

Definition ret {A} (a : A) : M A := fun w => (Ok a, w).

Definition bind {A B} (m : M A) (f : A -> M B) : M B :=
  fun w =>
    match m w with
    | (Ok a, w') => f a w'
    | (Throw e, w') => (Throw e, w')
    | (AssertFail, w') => (AssertFail, w')
    | (Fault, w') => (Fault, w')
    | (Diverge, w') => (Diverge, w')
    end.

Notation "x <- m ;; k" := (bind m (fun x => k))
  (at level 100, m at next level, right associativity).
Notation "m ;;; k" := (bind m (fun _ => k))
  (at level 100, right associativity).

Definition throw {A} (e : hal_error) : M A := fun w => (Throw e, w).
Definition fault {A} : M A := fun w => (Fault, w).
Definition diverge {A} : M A := fun w => (Diverge, w).
Definition assert (b : bool) : M unit :=
  fun w => if b then (Ok tt, w) else (AssertFail, w).
Definition get : M World := fun w => (Ok w, w).
Definition gets {A} (f : World -> A) : M A := fun w => (Ok (f w), w).
Definition modify (f : World -> World) : M unit := fun w => (Ok tt, f w).

(** [for (x : l) body(x)]. *)
Fixpoint for_each {A} (l : list A) (body : A -> M unit) : M unit :=
  match l with
  | [] => ret tt
  | x :: l' => body x ;;; for_each l' body
  end.

(** [s.c_str()] read as a C string: the characters before the first
    NUL. *)
Fixpoint c_str (s : string) : string :=
  match s with
  | EmptyString => EmptyString
  | String c s' =>
      if decide (c = Ascii.zero) then EmptyString else String c (c_str s')
  end.

(** The entries of a [std::map] with [std::string] keys from [begin()]
    to [end()]: in the order of the keys. *)
Definition key_le {V} (x y : string * V) : Prop := String.leb x.1 y.1 = true.

#[global] Instance key_le_dec {V} (x y : string * V) : Decision (key_le x y).
Proof. unfold key_le. apply _. Defined.

Definition map_in_order {V} (m : gmap string V) : list (string * V) :=
  merge_sort key_le (map_to_list m).

(** [std::map::insert]: an existing key keeps its value. *)
Definition map_insert_new {V} (k : string) (v : V) (m : gmap string V) : gmap string V :=
  match m !! k with
  | Some _ => m
  | None => <[k := v]> m
  end.

(** *** sonLib tree nodes in the heap *)


Definition tree_load (p : ptr) : M stTree :=
  fun w => match trees w !! p with
           | Some n => (Ok n, w)
           | None => (Fault, w)
           end.

(** A store through a pointer that is not live is undefined. *)
Definition tree_store (p : ptr) (n : stTree) : M unit :=
  fun w => match trees w !! p with
           | Some _ => (Ok tt, set_trees (<[p := n]> (trees w)) w)
           | None => (Fault, w)
           end.

(** A new node at the next free address. *)
Definition stTree_construct : M ptr :=
  fun w =>
    let p := nextTree w in
    (Ok p, set_nextTree (S p)
             (set_trees (<[p := mkTree None infinity None []]> (trees w)) w)).

Definition stTree_setLabel (tree : ptr) (s : string) : M unit :=
  n <- tree_load tree ;;
  tree_store tree (mkTree (Some s) (branchLength n) (parent n) (nodes n)).

Definition stTree_setBranchLength (tree : ptr) (d : float) : M unit :=
  n <- tree_load tree ;;
  tree_store tree (mkTree (label n) d (parent n) (nodes n)).

(** [stList_removeItem]: the first occurrence. *)
Fixpoint remove_item (x : ptr) (l : list ptr) : list ptr :=
  match l with
  | [] => []
  | y :: l' => if decide (x = y) then l' else y :: remove_item x l'
  end.

Definition stTree_setParent (tree : ptr) (newParent : option ptr) : M unit :=
  n <- tree_load tree ;;
  match parent n with
  | Some q =>
      qn <- tree_load q ;;
      tree_store q (mkTree (label qn) (branchLength qn) (parent qn)
                      (remove_item tree (nodes qn)))
  | None => ret tt
  end ;;;
  n <- tree_load tree ;;
  tree_store tree (mkTree (label n) (branchLength n) newParent (nodes n)) ;;;
  match newParent with
  | Some q =>
      qn <- tree_load q ;;
      tree_store q (mkTree (label qn) (branchLength qn) (parent qn)
                      (nodes qn ++ [tree]))
  | None => ret tt
  end.

Definition stTree_getLabel (tree : ptr) : M (option string) :=
  n <- tree_load tree ;; ret (label n).
Definition stTree_getParent (tree : ptr) : M (option ptr) :=
  n <- tree_load tree ;; ret (parent n).
Definition stTree_getBranchLength (tree : ptr) : M float :=
  n <- tree_load tree ;; ret (branchLength n).
Definition stTree_getChildren (tree : ptr) : M (list ptr) :=
  n <- tree_load tree ;; ret (nodes n).

(** [stTree_destruct] frees a node and, through the destructor of its
    child list, its descendants. *)
Fixpoint free_tree (fuel : nat) (p : ptr) (h : gmap ptr stTree) : gmap ptr stTree :=
  match fuel with
  | O => h
  | S fuel' =>
      match h !! p with
      | None => h
      | Some n => foldr (free_tree fuel') (delete p h) (nodes n)
      end
  end.

Definition stTree_destruct (tree : ptr) : M unit :=
  modify (fun w => set_trees (free_tree (S (size (trees w))) tree (trees w)) w).

(** Modelled from the spec: the textual tree notation is outside the
    two files; a serializer reads the nodes below a root, a parser
    allocates the nodes of a tree from the next free address on and
    returns the root, the heap and the next free address. *)
Class NewickCodec := {
  stTree_getNewickTreeString : gmap ptr stTree -> ptr -> string;
  newick_parse : string -> gmap ptr stTree -> ptr -> ptr * gmap ptr stTree * ptr;
  (* the parser allocates: above the next free address it returns, the
     heap is still free *)
  newick_parse_fresh : forall s h n root h' n',
    newick_parse s h n = (root, h', n') ->
    (forall p, (n <= p)%nat -> h !! p = None) ->
    (n <= n')%nat /\ (forall p, (n' <= p)%nat -> h' !! p = None)
}.

Definition stTree_parseNewickString `{NewickCodec} (s : string) : M ptr :=
  fun w =>
    let '(root, h, next) := newick_parse s (trees w) (nextTree w) in
    (Ok root, set_nextTree next (set_trees h w)).

(** *** The container *)

(** [_file->...]: the open container, undefined when [_file] is NULL. *)
Definition the_file : M H5File :=
  fun w => match _file (self w) with
           | Some f => (Ok f, w)
           | None => (Fault, w)
           end.

Definition put_file (f : H5File) : M unit :=
  modify (upd_self (set_file (Some f))).

(** [HDF5MetaData treeMeta(_file, TreeGroupName); treeMeta.set(k, v);]
    with the write-back of the table when it goes out of scope. *)
Definition treeMeta_set (k v : string) : M unit :=
  f <- the_file ;;
  put_file (mkFile (filePath f) (metaGroup f) (<[k := v]> (treeGroup f))
              (genomeGroups f)) ;;;
  modify (log_event (WriteTree v)).

(** [_metaData->write()]. *)
Definition metaData_write (m : gmap string string) : M unit :=
  f <- the_file ;;
  put_file (mkFile (filePath f) m (treeGroup f) (genomeGroups f)) ;;;
  modify (log_event WriteMeta).

(** *** Genome objects *)

Definition genome_load (g : ptr) : M HDF5Genome :=
  fun w => match genomes w !! g with
           | Some o => (Ok o, w)
           | None => (Fault, w)
           end.

Definition alloc_genome : M ptr :=
  fun w => (Ok (nextGenome w), set_nextGenome (S (nextGenome w)) w).

(** [new HDF5Genome(name, this, _file, _dcprops)]: a fresh object over
    the container, which has to be there, with an empty payload. *)
Definition HDF5Genome_new (name : string) : M ptr :=
  the_file ;;;
  g <- alloc_genome ;;
  modify (fun w => set_genomes (<[g := mkGenome name ""]> (genomes w)) w) ;;;
  ret g.

(** [genome->read()]. *)
Definition HDF5Genome_read (g : ptr) : M unit :=
  o <- genome_load g ;;
  f <- the_file ;;
  modify (fun w =>
    set_genomes
      (<[g := mkGenome (genomeName o)
                (default "" (genomeGroups f !! genomeName o))]> (genomes w)) w) ;;;
  modify (log_event (ReadGenome (genomeName o))).

(** [genome->write()]. *)
Definition HDF5Genome_write (g : ptr) : M unit :=
  o <- genome_load g ;;
  f <- the_file ;;
  put_file (mkFile (filePath f) (metaGroup f) (treeGroup f)
              (<[genomeName o := genomePayload o]> (genomeGroups f))) ;;;
  modify (log_event (WriteGenome (genomeName o))).

(** [delete genome]. *)
Definition HDF5Genome_delete (g : ptr) : M unit :=
  modify (fun w => set_genomes (delete g (genomes w)) w).

(** *** The member functions of [HDF5Alignment] *)

Section Members.
Context `{NewickCodec}.

(** [writeTree] (lines 372-391). *)
Definition writeTree : M unit :=
  w <- get ;;
  if _dirty (self w) then
    let treeString :=
      match _tree (self w) with
      | Some t => stTree_getNewickTreeString (trees w) t
      | None => ""
      end in
    assert (bool_decide (_file (self w) <> None)) ;;;
    treeMeta_set TreeGroupName treeString
  else ret tt.

(** [close] (lines 98-135). *)
Definition close : M unit :=
  w <- get ;;
  match _file (self w) with
  | Some _ =>
      writeTree ;;;
      w <- get ;;
      match _tree (self w) with
      | Some t =>
          stTree_destruct t ;;;
          modify (upd_self (set_tree None))
      | None => ret tt
      end ;;;
      w <- get ;;
      match _metaData (self w) with
      | Some m =>
          metaData_write m ;;;
          modify (upd_self (set_metaData None))
      | None => ret tt
      end ;;;
      w <- get ;;
      for_each (map_in_order (_openGenomes (self w)))
        (fun mapIt =>
           HDF5Genome_write mapIt.2 ;;;
           HDF5Genome_delete mapIt.2) ;;;
      modify (upd_self (set_openGenomes ∅)) ;;;
      (* _file->flush(H5F_SCOPE_LOCAL); _file->close(); delete _file; *)
      f <- the_file ;;
      modify (fun w => set_disk (<[filePath f := f]> (disk w)) w) ;;;
      modify (upd_self (set_file None))
  | None =>
      w <- get ;;
      assert (bool_decide (_tree (self w) = None)) ;;;
      assert (bool_decide (_openGenomes (self w) = ∅))
  end.

(** [~HDF5Alignment] (lines 61-64). *)
Definition HDF5Alignment_destroy : M unit := close.

(** [createNew] (lines 66-78). *)
Definition createNew (alignmentPath : string) : M unit :=
  close ;;;
  modify (upd_self (set_flags H5F_ACC_TRUNC)) ;;;
  (* new H5File(path, H5F_ACC_TRUNC, ...) and the three groups *)
  let f := mkFile alignmentPath ∅ ∅ ∅ in
  modify (fun w => set_disk (<[alignmentPath := f]> (disk w)) w) ;;;
  put_file f ;;;
  modify (upd_self (set_metaData (Some (metaGroup f)))) ;;;
  modify (upd_self (set_tree None)) ;;;
  modify (upd_self (set_dirty true)).

(** [addNodeToMap] (lines 393-405). *)
Fixpoint addNodeToMap (fuel : nat) (node : ptr) : M unit :=
  match fuel with
  | O => diverge
  | S fuel' =>
      label <- stTree_getLabel node ;;
      assert (bool_decide (label <> None)) ;;;
      match label with
      | None => fault
      | Some name =>
          w <- get ;;
          assert (bool_decide (_nodeMap (self w) !! name = None)) ;;;
          modify (upd_self (fun a => set_nodeMap (map_insert_new name node (_nodeMap a)) a)) ;;;
          children <- stTree_getChildren node ;;
          for_each children (addNodeToMap fuel')
      end
  end.

(** [loadTree] (lines 407-428). *)
Definition loadTree : M unit :=
  modify (upd_self (set_nodeMap ∅)) ;;;
  f <- the_file ;;
  let metaMap := treeGroup f in
  assert (bool_decide (size metaMap = 1%nat)) ;;;
  assert (bool_decide (metaMap !! TreeGroupName <> None)) ;;;
  let treeString := default "" (metaMap !! TreeGroupName) in
  w <- get ;;
  match _tree (self w) with
  | Some t => stTree_destruct t
  | None => ret tt
  end ;;;
  if decide (treeString = "") then
    t <- stTree_construct ;;
    modify (upd_self (set_tree (Some t)))
  else
    t <- stTree_parseNewickString (c_str treeString) ;;
    modify (upd_self (set_tree (Some t))) ;;;
    w <- get ;;
    addNodeToMap (S (size (trees w))) t.

(** [open] (lines 81-90).  The local [_flags] shadows the member, which
    keeps its value. *)
Definition open (alignmentPath : string) (readOnly : bool) : M unit :=
  close ;;;
  modify (upd_self (set_file None)) ;;;
  w <- get ;;
  match disk w !! alignmentPath with
  | None => throw StorageIOError
  | Some f =>
      put_file (mkFile alignmentPath (metaGroup f) (treeGroup f) (genomeGroups f)) ;;;
      modify (upd_self (set_metaData (Some (metaGroup f)))) ;;;
      loadTree
  end.

(** [open(path) const] (lines 93-96). *)
Definition open_const (alignmentPath : string) : M unit :=
  open alignmentPath true.

(** [addLeafGenome] (lines 137-166). *)
Definition addLeafGenome (name parentName : string) (branchLength : float) : M ptr :=
  if decide (name = "" \/ parentName = "") then
    (* "name can't be empty" *)
    throw InvalidArgumentError
  else
    w <- get ;;
    match _nodeMap (self w) !! name with
    | Some _ =>
        (* "node <name> already exists" *)
        throw DuplicateNameError
    | None =>
        match _nodeMap (self w) !! parentName with
        | None =>
            (* "parent <parentName> not found in tree" *)
            throw NotFoundError
        | Some parent =>
            node <- stTree_construct ;;
            stTree_setLabel node (c_str name) ;;;
            stTree_setParent node (Some parent) ;;;
            stTree_setBranchLength node branchLength ;;;
            modify (upd_self (fun a => set_nodeMap (map_insert_new name node (_nodeMap a)) a)) ;;;
            genome <- HDF5Genome_new name ;;
            modify (upd_self (fun a =>
              set_openGenomes (map_insert_new name genome (_openGenomes a)) a)) ;;;
            modify (upd_self (set_dirty true)) ;;;
            ret genome
        end
    end.

(** [addRootGenome] (lines 168-194). *)
Definition addRootGenome (name : string) (branchLength : float) : M ptr :=
  if decide (name = "") then
    (* "name can't be empty" *)
    throw InvalidArgumentError
  else
    w <- get ;;
    match _nodeMap (self w) !! name with
    | Some _ =>
        (* "node <name> already exists" *)
        throw DuplicateNameError
    | None =>
        node <- stTree_construct ;;
        stTree_setLabel node (c_str name) ;;;
        match _tree (self w) with
        | Some t =>
            stTree_setParent t (Some node) ;;;
            stTree_setBranchLength t branchLength
        | None => ret tt
        end ;;;
        modify (upd_self (set_tree (Some node))) ;;;
        modify (upd_self (fun a => set_nodeMap (map_insert_new name node (_nodeMap a)) a)) ;;;
        genome <- HDF5Genome_new name ;;
        modify (upd_self (fun a =>
          set_openGenomes (map_insert_new name genome (_openGenomes a)) a)) ;;;
        modify (upd_self (set_dirty true)) ;;;
        ret genome
    end.

(** [removeGenome] (lines 197-200). *)
Definition removeGenome (name : string) : M unit := ret tt.

(** [openGenome] (lines 220-235; the const overload, lines 202-218, has
    the same body).  [None] is the NULL return. *)
Definition openGenome (name : string) : M (option ptr) :=
  w <- get ;;
  match _openGenomes (self w) !! name with
  | Some genome => ret (Some genome)
  | None =>
      match _nodeMap (self w) !! name with
      | Some _ =>
          genome <- HDF5Genome_new name ;;
          HDF5Genome_read genome ;;;
          modify (upd_self (fun a =>
            set_openGenomes (map_insert_new name genome (_openGenomes a)) a)) ;;;
          ret (Some genome)
      | None => ret None
      end
  end.

(** [closeGenome] (lines 237-249). *)
Definition closeGenome (genome : ptr) : M unit :=
  o <- genome_load genome ;;
  let name := genomeName o in
  w <- get ;;
  match _openGenomes (self w) !! name with
  | None =>
      (* "Attempt to close non-open genome.  Should not even be possible" *)
      throw InvariantViolationError
  | Some cached =>
      HDF5Genome_write cached ;;;
      HDF5Genome_delete cached ;;;
      modify (upd_self (fun a => set_openGenomes (delete name (_openGenomes a)) a))
  end.

(** [getRootName] (lines 251-258).  A NULL label makes the [std::string]
    constructor undefined. *)
Definition getRootName : M string :=
  w <- get ;;
  match _tree (self w) with
  | None =>
      (* "Can't get root name of empty tree" *)
      throw NotFoundError
  | Some t =>
      l <- stTree_getLabel t ;;
      match l with Some s => ret s | None => fault end
  end.

(** [getParentName] (lines 260-274). *)
Definition getParentName (name : string) : M string :=
  w <- get ;;
  match _nodeMap (self w) !! name with
  | None =>
      (* "node not found: <name>" *)
      throw NotFoundError
  | Some node =>
      p <- stTree_getParent node ;;
      match p with
      | None => ret ""
      | Some q =>
          l <- stTree_getLabel q ;;
          match l with Some s => ret s | None => fault end
      end
  end.

(** [getBranchLength] (lines 276-292). *)
Definition getBranchLength (parentName childName : string) : M float :=
  w <- get ;;
  match _nodeMap (self w) !! childName with
  | None =>
      (* "node <childName> not found" *)
      throw NotFoundError
  | Some node =>
      p <- stTree_getParent node ;;
      match p with
      | None =>
          (* "edge <parentName>--<childName> not found" *)
          throw NotFoundError
      | Some q =>
          l <- stTree_getLabel q ;;
          match l with
          | None => fault
          | Some s =>
              if decide (parentName <> s) then throw NotFoundError
              else stTree_getBranchLength node
          end
      end
  end.

(** The labels of a list of nodes, as [std::string]s. *)
Fixpoint labels_of (l : list ptr) : M (list string) :=
  match l with
  | [] => ret []
  | c :: l' =>
      lbl <- stTree_getLabel c ;;
      match lbl with
      | None => fault
      | Some s => rest <- labels_of l' ;; ret (s :: rest)
      end
  end.

(** [getChildNames] (lines 294-309). *)
Definition getChildNames (name : string) : M (list string) :=
  w <- get ;;
  match _nodeMap (self w) !! name with
  | None =>
      (* "node <name> not found" *)
      throw NotFoundError
  | Some node =>
      children <- stTree_getChildren node ;;
      labels_of children
  end.

(** [getLeafNamesBelow] (lines 311-332).  The deque is listed from its
    back: [back()] is the head, [push_front] appends and [pop_back]
    drops the head. *)
Fixpoint getLeafNamesBelow_loop (fuel : nat) (name : string)
    (bfQueue leaves : list string) : M (list string) :=
  match fuel with
  | O => diverge
  | S fuel' =>
      match bfQueue with
      | [] => ret leaves
      | current :: rest =>
          children <- getChildNames current ;;
          let leaves :=
            if decide (children = [] /\ current <> name)
            then leaves ++ [current] else leaves in
          getLeafNamesBelow_loop fuel' name (rest ++ children) leaves
      end
  end.

Definition getLeafNamesBelow (fuel : nat) (name : string) : M (list string) :=
  getLeafNamesBelow_loop fuel name [name] [].

(** [getNumGenomes] (lines 334-345). *)
Definition getNumGenomes : M nat :=
  w <- get ;;
  match _tree (self w) with
  | None =>
      assert (bool_decide (_nodeMap (self w) = ∅)) ;;;
      ret 0%nat
  | Some _ => ret (size (_nodeMap (self w)))
  end.

(** [getNewickTree] (lines 357-370). *)
Definition getNewickTree : M string :=
  w <- get ;;
  match _tree (self w) with
  | None => ret ""
  | Some t => ret (stTree_getNewickTreeString (trees w) t)
  end.

End Members.

(** *** Vocabulary of the properties *)

(** The states the member functions keep the object in. *)
Record wf (w : World) : Prop := {
  (* a closed store has no tree and no open genome: the [assert]s of
     [close] *)
  wf_closed : _file (self w) = None ->
              _tree (self w) = None /\ _openGenomes (self w) = ∅;
  (* an open genome is a live object that carries its name *)
  wf_cache_live : forall name g, _openGenomes (self w) !! name = Some g ->
                  exists o, genomes w !! g = Some o /\ genomeName o = name;
  (* an open genome is a node of the tree index *)
  wf_cache_tree : forall name, is_Some (_openGenomes (self w) !! name) ->
                  is_Some (_nodeMap (self w) !! name);
  (* the allocators hand out free addresses *)
  wf_fresh_genome : forall g, (nextGenome w <= g)%nat -> genomes w !! g = None;
  wf_fresh_tree : forall p, (nextTree w <= p)%nat -> trees w !! p = None
}.

(** The string that [writeTree] stores for the tree of a state. *)
Definition tree_string `{NewickCodec} (w : World) : string :=
  match _tree (self w) with
  | Some t => stTree_getNewickTreeString (trees w) t
  | None => ""
  end.

(** The states a store goes through.

    A store starts as constructed, over any disk, and goes on after a
    member function returns or throws; after a failed [assert] or
    undefined behaviour there is no next state. *)
Definition survives {A} (o : Outcome A) : Prop :=
  match o with
  | Ok _ | Throw _ => True
  | _ => False
  end.

Inductive reachable `{NewickCodec} : World -> Prop :=
  | reach_new d : reachable (World_new d)
  | reach_createNew path w o w' :
      reachable w -> createNew path w = (o, w') -> survives o -> reachable w'
  | reach_open path readOnly w o w' :
      reachable w -> open path readOnly w = (o, w') -> survives o -> reachable w'
  | reach_close w o w' :
      reachable w -> close w = (o, w') -> survives o -> reachable w'
  | reach_addRootGenome name bl w o w' :
      reachable w -> addRootGenome name bl w = (o, w') -> survives o -> reachable w'
  | reach_addLeafGenome name parentName bl w o w' :
      reachable w -> addLeafGenome name parentName bl w = (o, w') -> survives o ->
      reachable w'
  | reach_openGenome name w o w' :
      reachable w -> openGenome name w = (o, w') -> survives o -> reachable w'
  | reach_closeGenome g w o w' :
      reachable w -> closeGenome g w = (o, w') -> survives o -> reachable w'.

(** A tree of names. *)
#[warnings="-register-all"] Inductive NameTree :=
  NameNode (name : string) (kids : list NameTree).

Definition root_name (t : NameTree) : string :=
  match t with NameNode name _ => name end.

Fixpoint tree_size (t : NameTree) : nat :=
  match t with
  | NameNode _ kids => S (foldr (fun k n => (tree_size k + n)%nat) 0%nat kids)
  end.

Definition forest_size (ts : list NameTree) : nat :=
  foldr (fun k n => (tree_size k + n)%nat) 0%nat ts.

(** The names of the nodes without children, left to right. *)
Fixpoint leaf_names (t : NameTree) : list string :=
  match t with
  | NameNode name [] => [name]
  | NameNode _ kids => flat_map leaf_names kids
  end.

(** The tree that [getChildNames] unfolds from a name in a state. *)
#[warnings="-register-all"] Inductive unfolds_to (w : World) : NameTree -> Prop :=
  | unfolds_node name kids :
      getChildNames name w = (Ok (root_name <$> kids), w) ->
      Forall (unfolds_to w) kids ->
      unfolds_to w (NameNode name kids).

(** Every entry of the node map names a live node by the label of the
    node. *)
Definition indexed (w : World) : Prop :=
  forall name p, _nodeMap (self w) !! name = Some p ->
    exists n, trees w !! p = Some n /\ label n = Some name.

(** Every entry of the node map names a live node, whose label is the
    name as a C string: what [addRootGenome] and [addLeafGenome] give
    to [stTree_setLabel]. *)
Definition labelled (w : World) : Prop :=
  forall name p, _nodeMap (self w) !! name = Some p ->
    exists n, trees w !! p = Some n /\ label n = Some (c_str name).

(** The node map names live nodes, labelled with the names as C
    strings, and is closed under the parent and child links; the root
    is in it and has no parent. *)
Record sound (w : World) : Prop := {
  sound_labelled : labelled w;
  sound_parent : forall name p n q,
    _nodeMap (self w) !! name = Some p -> trees w !! p = Some n ->
    parent n = Some q -> exists qname, _nodeMap (self w) !! qname = Some q;
  sound_children : forall name p n c,
    _nodeMap (self w) !! name = Some p -> trees w !! p = Some n ->
    c ∈ nodes n -> exists cname, _nodeMap (self w) !! cname = Some c;
  sound_root : forall root, _tree (self w) = Some root ->
    exists rname n, _nodeMap (self w) !! rname = Some root
                    /\ trees w !! root = Some n /\ parent n = None
}.

(** An outcome without a failed [assert] and without undefined
    behaviour. *)
Definition safe {A} (o : Outcome A) : Prop := o <> Fault /\ o <> AssertFail.

(** The states of a store while an alignment is built: [createNew] on
    a store as constructed, then genomes are added, opened and closed. *)
Inductive building `{NewickCodec} : World -> Prop :=
  | build_createNew d path w' :
      createNew path (World_new d) = (Ok tt, w') -> building w'
  | build_addRootGenome name bl w o w' :
      building w -> addRootGenome name bl w = (o, w') -> survives o -> building w'
  | build_addLeafGenome name parentName bl w o w' :
      building w -> addLeafGenome name parentName bl w = (o, w') -> survives o ->
      building w'
  | build_openGenome name w o w' :
      building w -> openGenome name w = (o, w') -> survives o -> building w'
  | build_closeGenome g w o w' :
      building w -> closeGenome g w = (o, w') -> survives o -> building w'.

(** *** Sample data *)

(** A codec to run the model with: a tree is written as the label of
    its root, and a string is read as a single node with that label. *)
#[program] Definition label_codec : NewickCodec :=
  {| stTree_getNewickTreeString h t :=
       match h !! t with
       | Some n => default "" (label n)
       | None => ""
       end;
     newick_parse s h n := (n, <[n := mkTree (Some s) infinity None []]> h, S n) |}.
Next Obligation.
  intros s h n root h' n' Heq Hfree. injection Heq as <- <- <-.
  split; [lia|]. intros p Hp. rewrite lookup_insert_ne by lia. apply Hfree. lia.
Qed.

(** A store in fresh memory over an empty disk. *)
Definition world0 : World := World_new ∅.

(** The state after [createNew("a.hal"); addRootGenome("A", 1.0)]. *)
Definition world_A : World :=
  ((createNew (H := label_codec) "a.hal" ;;; addRootGenome "A" 1%float) world0).2.

(** [createNew("a.hal"); addRootGenome("A", 1.0); close()]. *)
Definition session_A : M unit :=
  createNew (H := label_codec) "a.hal" ;;;
  addRootGenome "A" 1%float ;;;
  close (H := label_codec).

(** [createNew("a.hal"); addRootGenome("A", 1.0); close();
    createNew("b.hal")]: a second alignment is made with the object
    that held the first. *)
Definition session_AB : M unit :=
  session_A ;;; createNew (H := label_codec) "b.hal".

(** [createNew("b.hal")] on a store as constructed. *)
Definition world_b : World := (createNew (H := label_codec) "b.hal" world0).2.

(** [createNew("e.hal"); close(); open("e.hal", false)]: an alignment
    without genomes is written and read back. *)
Definition session_empty : M unit :=
  createNew (H := label_codec) "e.hal" ;;;
  close (H := label_codec) ;;;
  open (H := label_codec) "e.hal" false.

(** The state after [createNew("a.hal"); addRootGenome("A", 1.0);
    addLeafGenome("B", "A", 2.0); addLeafGenome("C", "A", 3.0)], and the
    tree of its names. *)
Definition world_ABC : World :=
  ((addLeafGenome "B" "A" 2%float ;;; addLeafGenome "C" "A" 3%float) world_A).2.

Definition tree_ABC : NameTree :=
  NameNode "A" [NameNode "B" []; NameNode "C" []].

(** A name with a NUL character in it: "A", NUL, "B". *)
Definition name_A0B : string := String "A" (String Ascii.zero "B").

End Store.

(** * Properties of the depth scan *)

Module IdentityFacts.
Import Identity.

Lemma wrap64_small z : 0 <= z < 2 ^ 64 -> wrap64 z = z.
Proof. intros Hz. unfold wrap64. apply Z.mod_small. exact Hz. Qed.

Lemma wrap64_range z : 0 <= wrap64 z < 2 ^ 64.
Proof. unfold wrap64. apply Z.mod_pos_bound. lia. Qed.

Lemma as_index_small z : 0 <= z < 2 ^ 63 -> as_index z = z.
Proof.
  intros Hz. unfold as_index. rewrite wrap64_small by lia.
  destruct (decide (z < 2 ^ 63)); lia.
Qed.

(** The sum of two [hal_size_t] either fits or wraps once. *)
Lemma wrap64_add_cases a b :
  0 <= a < 2 ^ 64 -> 0 <= b < 2 ^ 64 ->
  (a + b < 2 ^ 64 /\ wrap64 (a + b) = a + b)
  \/ (2 ^ 64 <= a + b /\ wrap64 (a + b) = a + b - 2 ^ 64).
Proof.
  intros Ha Hb. destruct (Z_lt_ge_dec (a + b) (2 ^ 64)) as [Hlt|Hge].
  - left. split; [exact Hlt|]. apply wrap64_small. lia.
  - right. split; [lia|].
    rewrite <- (wrap64_small (a + b - 2 ^ 64)) by lia.
    unfold wrap64. rewrite <- (Z.mod_add (a + b - 2 ^ 64) 1 (2 ^ 64)) by lia.
    f_equal; ring.
Qed.

(** The difference of two [hal_size_t] either fits or wraps once. *)
Lemma wrap64_sub_cases a b :
  0 <= a < 2 ^ 64 -> 0 <= b < 2 ^ 64 ->
  (b <= a /\ wrap64 (a - b) = a - b)
  \/ (a < b /\ wrap64 (a - b) = a - b + 2 ^ 64).
Proof.
  intros Ha Hb. destruct (Z_le_gt_dec b a) as [Hle|Hgt].
  - left. split; [exact Hle|]. apply wrap64_small. lia.
  - right. split; [lia|].
    rewrite <- (wrap64_small (a - b + 2 ^ 64)) by lia.
    unfold wrap64. rewrite <- (Z.mod_add (a - b) 1 (2 ^ 64)) by lia.
    f_equal; ring.
Qed.

(** ** The counting loop *)

Section Counting.
Variable targetNuc : ascii.

Lemma count_entry_aligned_range c e :
  0 <= n_aligned c < 2 ^ 64 -> 0 <= n_aligned (count_entry targetNuc c e) < 2 ^ 64.
Proof.
  intros Hc. unfold count_entry. destruct (e.2) as [|b bs]; [exact Hc|].
  destruct (decide _); [exact Hc|]. simpl. apply wrap64_range.
Qed.

Lemma count_entry_identical_range c e :
  0 <= n_identical c < 2 ^ 64 -> 0 <= n_identical (count_entry targetNuc c e) < 2 ^ 64.
Proof.
  intros Hc. unfold count_entry. destruct (e.2) as [|b bs]; [exact Hc|].
  destruct (decide _); [exact Hc|]. simpl.
  destruct (decide _); [apply wrap64_range|exact Hc].
Qed.

Lemma wrap64_succ n k : wrap64 (wrap64 (n + 1) + k) = wrap64 (n + (1 + k)).
Proof.
  unfold wrap64. rewrite Z.add_mod_idemp_l by lia. f_equal; ring.
Qed.

(** [n_aligned] goes up, modulo [2^64], by one per counted entry. *)
Lemma fold_count_aligned cmap : forall c,
  0 <= n_aligned c < 2 ^ 64 ->
  n_aligned (fold_left (count_entry targetNuc) cmap c)
  = wrap64 (n_aligned c + Z.of_nat (List.length (counted (last_genome c) cmap))).
Proof.
  induction cmap as [|e rest IH]; intros c Hc; simpl.
  - rewrite Z.add_0_r. symmetry. apply wrap64_small. exact Hc.
  - rewrite IH by (apply count_entry_aligned_range; exact Hc).
    unfold count_entry. destruct (e.2) as [|b bs]; [reflexivity|].
    destruct (decide _) as [Heq|Hne]; [reflexivity|].
    cbn [last_genome n_aligned List.length].
    rewrite wrap64_succ. f_equal. lia.
Qed.

(** [n_identical] goes up, modulo [2^64], by one per counted entry whose
    first base is the reference base. *)
Lemma fold_count_identical cmap : forall c,
  0 <= n_identical c < 2 ^ 64 ->
  n_identical (fold_left (count_entry targetNuc) cmap c)
  = wrap64 (n_identical c
            + Z.of_nat (List.length (filter (identical_entry targetNuc)
                                       (counted (last_genome c) cmap)))).
Proof.
  induction cmap as [|e rest IH]; intros c Hc; simpl.
  - rewrite Z.add_0_r. symmetry. apply wrap64_small. exact Hc.
  - rewrite IH by (apply count_entry_identical_range; exact Hc).
    unfold count_entry. destruct e as [s [|b bs]]; [reflexivity|].
    cbn [counted fst snd]. destruct (decide _) as [Heq|Hne]; [reflexivity|].
    cbn [last_genome n_identical].
    destruct (decide (tolower_int (char_to_int b) = char_to_int targetNuc)) as [Hb|Hb].
    + rewrite filter_cons_True by (unfold identical_entry; cbn [snd head]; rewrite <- Hb; reflexivity).
      cbn [List.length]. rewrite wrap64_succ. f_equal. lia.
    + rewrite filter_cons_False
        by (unfold identical_entry; cbn [snd head]; intros [=Heq]; contradiction).
      reflexivity.
Qed.

End Counting.

Lemma counters_init_values :
  n_identical counters_init = 2 ^ 64 - 1 /\ n_aligned counters_init = 2 ^ 64 - 1.
Proof. split; reflexivity. Qed.

(** What a column emits: one less, modulo [2^64], than the number of
    entries that pass the two skip tests. *)
Lemma count_column_values targetNuc cmap :
  n_aligned (count_column targetNuc cmap)
  = wrap64 (Z.of_nat (List.length (counted None cmap)) - 1)
  /\ n_identical (count_column targetNuc cmap)
     = wrap64 (Z.of_nat (List.length (filter (identical_entry targetNuc)
                                        (counted None cmap))) - 1).
Proof.
  unfold count_column. split.
  - rewrite fold_count_aligned by (simpl; apply wrap64_range).
    cbn [counters_init n_aligned last_genome].
    unfold wrap64. rewrite Z.add_mod_idemp_l by lia. f_equal; lia.
  - rewrite fold_count_identical by (simpl; apply wrap64_range).
    cbn [counters_init n_identical last_genome].
    unfold wrap64. rewrite Z.add_mod_idemp_l by lia. f_equal; lia.
Qed.

(** ** The comparison of bases *)

(** An ASCII base compares equal to the [targetNuc] made of it. *)
Lemma tolower_int_ascii b :
  ascii_base b -> tolower_int (char_to_int b) = char_to_int (tolower b).
Proof.
  destruct b as [[] [] [] [] [] [] [] []]; intros Hb; vm_compute in Hb |- *;
    (reflexivity || discriminate Hb).
Qed.

(** What [tolower] returns for a base depends on the base up to case
    only. *)
Lemma tolower_int_tolower b :
  tolower_int (char_to_int (tolower b)) = tolower_int (char_to_int b).
Proof. destruct b as [[] [] [] [] [] [] [] []]; vm_compute; reflexivity. Qed.

(** A byte from [0x80] on, other than [0xFF], does not compare equal to
    the [targetNuc] made of it: [tolower] returns a value from 128 on
    and [targetNuc], a [char], is negative.  For a column that holds
    such a reference base alone the identical count is written as
    [2^64 - 1]. *)
Example high_byte_column :
  tolower_int (char_to_int "200") = 200
  /\ char_to_int (tolower "200") = -56
  /\ scan_column [(chr1, ["200"%char])] chr1
     = inr {| last_genome := Some 1%nat; n_identical := 2 ^ 64 - 1; n_aligned := 0 |}.
Proof. vm_compute. repeat split; reflexivity. Qed.

(** ** Self-exclusion by wrap-around *)

Lemma column_at_first pre s bases post :
  (forall e', e' ∈ pre -> e'.1 <> s) ->
  column_at (pre ++ (s, bases) :: post) s = Some bases.
Proof.
  unfold column_at. induction pre as [|e' pre IH]; intros Hpre; cbn [app List.find fst].
  - rewrite bool_decide_eq_true_2 by reflexivity. reflexivity.
  - rewrite bool_decide_eq_false_2 by (apply Hpre; left).
    apply IH. intros e'' He''. apply Hpre. right. exact He''.
Qed.

(** The entry of the scanned sequence is counted where no entry of its
    genome comes before it. *)
Lemma counted_first pre : forall lg e post,
  e.2 <> [] -> lg <> Some (getGenome e.1) ->
  (forall e', e' ∈ pre -> getGenome e'.1 <> getGenome e.1) ->
  e ∈ counted lg (pre ++ e :: post).
Proof.
  induction pre as [|[s' bases'] pre IH]; intros lg e post Hne Hlg Hpre.
  - cbn [app counted]. destruct e as [s [|b bs]]; [contradiction|]. cbn [fst snd] in *.
    rewrite decide_False by congruence. left.
  - cbn [app counted fst snd].
    assert (Hs' : getGenome s' <> getGenome e.1) by (apply (Hpre (s', bases')); left).
    assert (Hrest : forall e', e' ∈ pre -> getGenome e'.1 <> getGenome e.1)
      by (intros e' He'; apply Hpre; right; exact He').
    destruct bases' as [|b' bs']; [apply IH; assumption|].
    destruct (decide _); [apply IH; assumption|].
    right. apply IH; try assumption. congruence.
Qed.

Lemma counted_length lg cmap : (List.length (counted lg cmap) <= List.length cmap)%nat.
Proof.
  revert lg. induction cmap as [|[s [|b bs]] rest IH]; intros lg; cbn [counted fst snd].
  - lia.
  - specialize (IH lg). cbn [List.length]. lia.
  - destruct (decide _); cbn [List.length].
    + specialize (IH lg). lia.
    + specialize (IH (Some (getGenome s))). lia.
Qed.

(** The trace at an entry of the column: the counters before it and
    after it. *)
Lemma count_trace_at t pre : forall c e post,
  count_trace t c (pre ++ e :: post) !! List.length pre
  = Some (fold_left (count_entry t) pre c)
  /\ count_trace t c (pre ++ e :: post) !! S (List.length pre)
     = Some (count_entry t (fold_left (count_entry t) pre c) e).
Proof.
  induction pre as [|e' pre IH]; intros c e post.
  - cbn. split; [reflexivity|]. destruct post; reflexivity.
  - cbn [app count_trace List.length fold_left]. apply IH.
Qed.

Lemma count_trace_head t c cmap : count_trace t c cmap !! 0%nat = Some c.
Proof. destruct cmap; reflexivity. Qed.

Lemma count_trace_length t cmap : forall c,
  List.length (count_trace t c cmap) = S (List.length cmap).
Proof.
  induction cmap as [|e rest IH]; intros c; [reflexivity|].
  cbn [count_trace List.length]. rewrite IH. reflexivity.
Qed.

(** In a trace without a step down no value of the aligned count is
    below the first one. *)
Lemma no_wraparound_above t c cmap :
  no_wraparound (count_trace t c cmap) ->
  forall (i : nat) c', count_trace t c cmap !! i = Some c' -> n_aligned c <= n_aligned c'.
Proof.
  intros Hno. induction i as [|i IH]; intros c' Hi.
  - rewrite count_trace_head in Hi. injection Hi as <-. lia.
  - destruct (lookup_lt_is_Some_2 (count_trace t c cmap) i) as [c'' Hi''].
    { apply lookup_lt_Some in Hi. lia. }
    specialize (IH c'' Hi''). destruct (Hno i c'' c' Hi'' Hi) as [_ Hle]. lia.
Qed.

(** The genome counted last is the genome of an entry. *)
Lemma fold_count_last_genome t pre : forall c g,
  last_genome (fold_left (count_entry t) pre c) = Some g ->
  last_genome c = Some g \/ exists e, e ∈ pre /\ getGenome e.1 = g.
Proof.
  induction pre as [|e pre IH]; intros c g Hlast; [left; exact Hlast|].
  cbn [fold_left] in Hlast. apply IH in Hlast as [Hlast|(e' & Hin & Hg)].
  - unfold count_entry in Hlast. destruct (e.2) as [|b bs]; [left; exact Hlast|].
    destruct (decide _); [left; exact Hlast|].
    cbn [last_genome] in Hlast. injection Hlast as <-.
    right. exists e. split; [left|reflexivity].
  - right. exists e'. split; [right; exact Hin|exact Hg].
Qed.

(** C1, as the code has it: at every column both counters start at
    [2^64 - 1], the unsigned value of [-1], and there is no test that
    skips the reference.  In a column whose reference base is an ASCII
    character and in which no entry of the genome of the scanned
    sequence comes before the entry of the scanned sequence, that entry
    is counted in both counters like the entry of any other genome,
    what the column emits is what the entries after it make of these
    counters, and one step of the counters goes down: the first
    increment wraps from [2^64 - 1] to [0].  It is this wrap that takes
    the reference out: each value emitted is the number of entries that
    were counted, less one.  In particular, for a column that holds the
    base of the reference alone both emitted values are [0], reached
    through that wrap. *)
Theorem counters_start_at_max_and_wrap :
  (n_identical counters_init = 2 ^ 64 - 1 /\ n_aligned counters_init = 2 ^ 64 - 1)
  /\ (forall pre post sequence b bs,
        ascii_base b ->
        (forall e, e ∈ pre -> getGenome e.1 <> getGenome sequence) ->
        let cmap := pre ++ (sequence, b :: bs) :: post in
        let before := fold_left (count_entry (tolower b)) pre counters_init in
        let after := {| last_genome := Some (getGenome sequence);
                        n_identical := wrap64 (n_identical before + 1);
                        n_aligned := wrap64 (n_aligned before + 1) |} in
        exists c,
          scan_column cmap sequence = inr c
          /\ count_entry (tolower b) before (sequence, b :: bs) = after
          /\ c = fold_left (count_entry (tolower b)) post after
          /\ ~ no_wraparound (count_trace (tolower b) counters_init cmap)
          /\ (Z.of_nat (List.length cmap) < 2 ^ 64 ->
              n_aligned c = Z.of_nat (List.length (counted None cmap)) - 1
              /\ n_identical c
                 = Z.of_nat (List.length (filter (identical_entry (tolower b))
                                            (counted None cmap))) - 1
              /\ 0 <= n_identical c <= n_aligned c))
  /\ (forall sequence b bs,
        ascii_base b ->
        let zero := {| last_genome := Some (getGenome sequence);
                       n_identical := 0; n_aligned := 0 |} in
        scan_column [(sequence, b :: bs)] sequence = inr zero
        /\ count_trace (tolower b) counters_init [(sequence, b :: bs)]
           = [counters_init; zero]
        /\ ~ no_wraparound (count_trace (tolower b) counters_init [(sequence, b :: bs)])).
Proof.
  split; [exact counters_init_values|].
  assert (Hgen : forall pre post sequence b bs,
            ascii_base b ->
            (forall e, e ∈ pre -> getGenome e.1 <> getGenome sequence) ->
            let cmap := pre ++ (sequence, b :: bs) :: post in
            let before := fold_left (count_entry (tolower b)) pre counters_init in
            let after := {| last_genome := Some (getGenome sequence);
                            n_identical := wrap64 (n_identical before + 1);
                            n_aligned := wrap64 (n_aligned before + 1) |} in
            count_entry (tolower b) before (sequence, b :: bs) = after
            /\ scan_column cmap sequence
               = inr (fold_left (count_entry (tolower b)) post after)
            /\ count_column (tolower b) cmap
               = fold_left (count_entry (tolower b)) post after
            /\ ~ no_wraparound (count_trace (tolower b) counters_init cmap)).
  { intros pre post sequence b bs Hb Hpre cmap before after.
    assert (Hentry : count_entry (tolower b) before (sequence, b :: bs) = after).
    { unfold count_entry. cbn [fst snd].
      destruct (decide (Some (getGenome sequence) = last_genome before)) as [Heq|_].
      - symmetry in Heq. apply fold_count_last_genome in Heq as [Hnone|(e & Hin & Hg)];
          [discriminate Hnone|].
        exfalso. apply (Hpre e Hin). exact Hg.
      - rewrite decide_True by (apply tolower_int_ascii; exact Hb). reflexivity. }
    assert (Hcol : count_column (tolower b) cmap
                   = fold_left (count_entry (tolower b)) post after).
    { unfold count_column. subst cmap. rewrite fold_left_app. cbn [fold_left].
      fold before. rewrite Hentry. reflexivity. }
    split; [exact Hentry|]. split; [|split; [exact Hcol|]].
    - unfold scan_column. subst cmap. rewrite column_at_first.
      + f_equal. exact Hcol.
      + intros e He Heq. apply (Hpre e He). rewrite Heq. reflexivity.
    - intros Hno.
      destruct (count_trace_at (tolower b) pre counters_init (sequence, b :: bs) post)
        as [Hi Hsi].
      fold cmap in Hi, Hsi. fold before in Hi, Hsi. rewrite Hentry in Hsi.
      pose proof (no_wraparound_above _ _ _ Hno _ _ Hi) as Hmax.
      destruct (Hno _ _ _ Hi Hsi) as [_ Hle].
      assert (Hrange : 0 <= n_aligned before < 2 ^ 64).
      { subst before. rewrite fold_count_aligned by (simpl; apply wrap64_range).
        apply wrap64_range. }
      assert (Hbefore : n_aligned before = 2 ^ 64 - 1).
      { change (n_aligned counters_init) with (2 ^ 64 - 1) in Hmax. lia. }
      subst after. cbn [n_aligned] in Hle. rewrite Hbefore in Hle.
      vm_compute in Hle. apply Hle. reflexivity. }
  split.
  - intros pre post sequence b bs Hb Hpre cmap before after.
    destruct (Hgen pre post sequence b bs Hb Hpre) as (Hentry & Hscan & Hcol & Hno).
    exists (count_column (tolower b) cmap).
    split; [etransitivity; [exact Hscan|f_equal; symmetry; exact Hcol]|].
    split; [exact Hentry|]. split; [exact Hcol|].
    split; [exact Hno|]. intros Hsize.
    destruct (count_column_values (tolower b) cmap) as [-> ->].
    pose proof (counted_length None cmap) as Hlen.
    pose proof (length_filter (identical_entry (tolower b)) (counted None cmap)) as Hfl.
    assert (Hin : (sequence, b :: bs)
                  ∈ filter (identical_entry (tolower b)) (counted None cmap)).
    { apply list_elem_of_filter. split.
      - unfold identical_entry. cbn [snd head fmap option_fmap option_map].
        rewrite tolower_int_ascii by exact Hb. reflexivity.
      - apply counted_first; [discriminate|discriminate|exact Hpre]. }
    assert (Hpos : (1 <= List.length (filter (identical_entry (tolower b))
                                       (counted None cmap)))%nat).
    { destruct (filter _ _) as [|x l]; [inversion Hin|cbn; lia]. }
    rewrite !wrap64_small by lia. lia.
  - intros sequence b bs Hb zero.
    destruct (Hgen [] [] sequence b bs Hb) as (Hentry & Hscan & _ & Hno).
    { intros e He. inversion He. }
    cbn [app fold_left] in Hentry, Hscan, Hno.
    change (wrap64 (n_identical counters_init + 1)) with 0 in Hentry, Hscan.
    change (wrap64 (n_aligned counters_init + 1)) with 0 in Hentry, Hscan.
    split; [exact Hscan|]. split; [|exact Hno].
    cbn [count_trace]. rewrite Hentry. reflexivity.
Qed.

Lemma counters_start_at_max_and_wrap_witness :
  let cmap := [(chrX, ["C"%char])] ++ (chr1, ["A"%char]) :: [(scaffoldA, ["a"%char])] in
  exists c,
    scan_column cmap chr1 = inr c
    /\ ~ no_wraparound (count_trace (tolower "A") counters_init cmap)
    /\ n_aligned c = Z.of_nat (List.length (counted None cmap)) - 1
    /\ n_identical c
       = Z.of_nat (List.length (filter (identical_entry (tolower "A"))
                                  (counted None cmap))) - 1
    /\ 0 <= n_identical c <= n_aligned c.
Proof.
  intros cmap.
  destruct counters_start_at_max_and_wrap as (_ & Hown & _).
  destruct (Hown [(chrX, ["C"%char])] [(scaffoldA, ["a"%char])] chr1 "A"%char [])
    as (c & Hscan & _ & _ & Hwrap & Hvalues).
  - reflexivity.
  - intros e He. apply list_elem_of_singleton in He as ->. discriminate.
  - exists c. split; [exact Hscan|]. split; [exact Hwrap|].
    apply Hvalues. vm_compute. reflexivity.
Defined.

(** C1, as stated, fails on the column that holds the base of the
    reference alone: the counters do not start at zero and the increment
    for the reference entry wraps. *)
Lemma explicit_skip_counterexample :
  ~ (n_identical counters_init = 0
     /\ n_aligned counters_init = 0
     /\ no_wraparound (count_trace (tolower "A") counters_init own_column)).
Proof.
  intros (Hi & _ & _). vm_compute in Hi. discriminate Hi.
Qed.

(** The second half of the same failure, on its own: the trace of that
    column goes from [2^64 - 1] down to [0]. *)
Lemma own_column_trace :
  count_trace (tolower "A") counters_init own_column
  = [ {| last_genome := None; n_identical := 2 ^ 64 - 1; n_aligned := 2 ^ 64 - 1 |};
      {| last_genome := Some 1%nat; n_identical := 0; n_aligned := 0 |} ].
Proof. vm_compute. reflexivity. Qed.

(** Where the wrap is not made up for: an entry of another sequence of
    the reference genome comes first and has another base.  It is the
    one counted for the genome, the entry of the scanned sequence is
    collapsed into it, and the identical count is written as
    [2^64 - 1]. *)
Example paralog_first_column :
  scan_column paralog_column chr2
  = inr {| last_genome := Some 1%nat; n_identical := 2 ^ 64 - 1; n_aligned := 0 |}.
Proof. vm_compute. reflexivity. Qed.

(** ** Collapsing the entries of a genome *)

(** Contiguity, read off the head of the list. *)
Fixpoint grouped (gs : list GenomePtr) : Prop :=
  match gs with
  | [] => True
  | g :: rest => (g ∈ rest -> head rest = Some g) /\ grouped rest
  end.

Lemma contiguous_tail g gs : contiguous (g :: gs) -> contiguous gs.
Proof.
  intros Hc i j k x Hlt Hi Hk.
  apply (Hc (S i) (S j) (S k) x); [lia|exact Hi|exact Hk].
Qed.

Lemma contiguous_grouped gs : contiguous gs -> grouped gs.
Proof.
  induction gs as [|g rest IH]; intros Hc; simpl; [exact I|].
  split; [|apply IH; eapply contiguous_tail; exact Hc].
  intros Hin. apply list_elem_of_lookup in Hin as [k Hk].
  destruct k as [|k].
  - destruct rest; simpl in *; congruence.
  - pose proof (Hc 0%nat 1%nat (S (S k)) g) as Hj.
    cbn in Hj. specialize (Hj ltac:(lia) eq_refl Hk).
    destruct rest; simpl in *; congruence.
Qed.

Lemma nonempty_genomes_cons_empty s rest :
  nonempty_genomes ((s, []) :: rest) = nonempty_genomes rest.
Proof.
  unfold nonempty_genomes. rewrite filter_cons_False; [reflexivity|].
  simpl. intros Hne. apply Hne. reflexivity.
Qed.

Lemma nonempty_genomes_cons s b bs rest :
  nonempty_genomes ((s, b :: bs) :: rest) = getGenome s :: nonempty_genomes rest.
Proof.
  unfold nonempty_genomes. rewrite filter_cons_True by (simpl; discriminate).
  reflexivity.
Qed.

(** With grouped genomes, the counted entries have pairwise different
    genomes, none of them the genome counted last. *)
Lemma counted_grouped cmap : forall lg,
  grouped (nonempty_genomes cmap) ->
  (forall g0, lg = Some g0 -> g0 ∈ nonempty_genomes cmap ->
              head (nonempty_genomes cmap) = Some g0) ->
  NoDup ((fun e => getGenome e.1) <$> counted lg cmap)
  /\ (forall x, x ∈ ((fun e => getGenome e.1) <$> counted lg cmap) ->
                x ∈ nonempty_genomes cmap /\ Some x <> lg).
Proof.
  induction cmap as [|[s [|b bs]] rest IH]; intros lg Hg Hlg.
  - simpl. split; [constructor|]. intros x Hx. inversion Hx.
  - rewrite nonempty_genomes_cons_empty in *. simpl. apply IH; assumption.
  - rewrite nonempty_genomes_cons in *. destruct Hg as [Hhead Hg].
    cbn [counted fst snd]. destruct (decide (Some (getGenome s) = lg)) as [Heq|Hne].
    + destruct (IH lg Hg) as [Hnd Hin].
      { intros g0 Hg0 Hin0. subst lg. injection Hg0 as <-. apply Hhead, Hin0. }
      split; [exact Hnd|]. intros x Hx. destruct (Hin x Hx) as [Hx1 Hx2].
      split; [right; exact Hx1|exact Hx2].
    + destruct (IH (Some (getGenome s)) Hg) as [Hnd Hin].
      { intros g0 Hg0 Hin0. injection Hg0 as <-. apply Hhead, Hin0. }
      split.
      * rewrite fmap_cons. constructor; [|exact Hnd].
        intros Hx. destruct (Hin _ Hx) as [_ Hx2]. apply Hx2. reflexivity.
      * intros x Hx. rewrite fmap_cons in Hx. apply elem_of_cons in Hx as [->|Hx].
        -- split; [left|exact Hne].
        -- destruct (Hin x Hx) as [Hx1 Hx2]. split; [right; exact Hx1|].
           intros Heq. apply Hne. rewrite <- Heq. f_equal.
           specialize (Hlg x (eq_sym Heq) ltac:(right; exact Hx1)).
           simpl in Hlg. congruence.
Qed.

(** Among entries with pairwise different genomes at most one is of a
    given genome. *)
Lemma filter_genome_NoDup (g : GenomePtr) (l : list (Sequence * DNASet)) :
  NoDup ((fun e => getGenome e.1) <$> l) ->
  (List.length (filter (fun e => getGenome e.1 = g) l) <= 1)%nat.
Proof.
  induction l as [|e l IH]; intros Hnd; [simpl; lia|].
  rewrite fmap_cons in Hnd. apply NoDup_cons in Hnd as [Hnotin Hnd].
  destruct (decide (getGenome e.1 = g)) as [Heq|Hne].
  - rewrite filter_cons_True by exact Heq. cbn [List.length].
    assert (Hnil : filter (fun e0 => getGenome e0.1 = g) l = []).
    { (* no other entry of [g] *)
      destruct (filter (fun e0 => getGenome e0.1 = g) l) as [|e' l'] eqn:Hf;
        [reflexivity|].
      assert (Hin : e' ∈ filter (fun e0 => getGenome e0.1 = g) l)
        by (rewrite Hf; left).
      apply list_elem_of_filter in Hin as [Hg Hin]. exfalso. apply Hnotin.
      rewrite Heq, <- Hg. apply list_elem_of_fmap. exists e'. split; [reflexivity|exact Hin]. }
    rewrite Hnil. simpl. lia.
  - rewrite filter_cons_False by exact Hne. apply IH, Hnd.
Qed.

Lemma filter_and_length {A} (P Q : A -> Prop)
    `{forall x, Decision (P x)} `{forall x, Decision (Q x)} (l : list A) :
  (List.length (filter (fun x => P x /\ Q x) l) <= List.length (filter P l))%nat.
Proof.
  induction l as [|x l IH]; [simpl; lia|].
  destruct (decide (P x)) as [HP|HP].
  - rewrite (filter_cons_True P) by exact HP. cbn [List.length].
    destruct (decide (Q x)) as [HQ|HQ].
    + rewrite filter_cons_True by (split; assumption). cbn [List.length]. lia.
    + rewrite filter_cons_False by (intros [_ ?]; contradiction). lia.
  - rewrite (filter_cons_False P) by exact HP.
    rewrite filter_cons_False by (intros [? _]; contradiction). exact IH.
Qed.

(** Without the entries of a genome, the entries counted are the ones
    counted before that are not of the genome. *)
Lemma counted_without g cmap : forall lg1 lg2,
  grouped (nonempty_genomes cmap) ->
  (forall g0, lg2 = Some g0 -> g0 ∈ nonempty_genomes cmap ->
              head (nonempty_genomes cmap) = Some g0) ->
  lg1 <> Some g ->
  (lg1 = lg2
   \/ (lg2 = Some g /\ forall g0, lg1 = Some g0 -> g0 ∉ nonempty_genomes cmap)) ->
  counted lg1 (without_genome g cmap)
  = filter (fun e => getGenome e.1 <> g) (counted lg2 cmap).
Proof.
  induction cmap as [|[s [|b bs]] rest IH]; intros lg1 lg2 Hg Hlg Hne Hrel.
  - reflexivity.
  - rewrite nonempty_genomes_cons_empty in *. unfold without_genome.
    destruct (decide (getGenome s <> g)) as [Hs|Hs].
    + rewrite filter_cons_True by exact Hs. cbn [counted fst snd].
      apply IH; assumption.
    + rewrite filter_cons_False by exact Hs. cbn [counted fst snd].
      apply IH; assumption.
  - rewrite nonempty_genomes_cons in *. destruct Hg as [Hhead Hg].
    unfold without_genome. destruct (decide (getGenome s = g)) as [Hs|Hs].
    + (* an entry of the genome *)
      rewrite filter_cons_False by (cbn [fst]; intros Hn; apply Hn; exact Hs).
      fold (without_genome g rest). cbn [counted fst snd].
      destruct (decide (Some (getGenome s) = lg2)) as [Heq|Hneq].
      * apply IH; [exact Hg| |exact Hne|].
        -- intros g0 Hg0 Hin. subst lg2. injection Hg0 as <-. apply Hhead, Hin.
        -- destruct Hrel as [Hrel|[Hrel Hfresh]]; [congruence|].
           right. split; [exact Hrel|]. intros g0 Hg0 Hin.
           apply (Hfresh g0 Hg0). right. exact Hin.
      * rewrite filter_cons_False by (cbn [fst]; intros Hn; apply Hn; exact Hs).
        apply IH; [exact Hg| |exact Hne|].
        -- intros g0 Hg0 Hin. injection Hg0 as <-. apply Hhead, Hin.
        -- right. split; [congruence|]. intros g0 Hg0 Hin.
           destruct Hrel as [Hrel|[Hrel _]]; [|congruence].
           apply Hneq. rewrite <- Hrel, Hg0.
           specialize (Hlg g0 ltac:(congruence) ltac:(right; exact Hin)).
           cbn [head] in Hlg. exact Hlg.
    + (* an entry of another genome *)
      rewrite filter_cons_True by exact Hs.
      fold (without_genome g rest). cbn [counted fst snd].
      assert (Hnext : counted (Some (getGenome s)) (without_genome g rest)
                      = filter (fun e => getGenome e.1 <> g)
                          (counted (Some (getGenome s)) rest)).
      { apply IH; [exact Hg| |congruence|left; reflexivity].
        intros g0 Hg0 Hin. injection Hg0 as <-. apply Hhead, Hin. }
      destruct Hrel as [<-|[-> Hfresh]].
      * destruct (decide (Some (getGenome s) = lg1)) as [Heq|Hneq].
        -- apply IH; [exact Hg| |exact Hne|left; reflexivity].
           intros g0 Hg0 Hin. subst lg1. injection Hg0 as <-. apply Hhead, Hin.
        -- rewrite filter_cons_True by exact Hs. f_equal. exact Hnext.
      * rewrite decide_False.
        2:{ intros Heq. apply (Hfresh (getGenome s)); [congruence|left]. }
        rewrite decide_False by congruence.
        rewrite filter_cons_True by exact Hs. f_equal. exact Hnext.
Qed.

(** The counted entries are those of a genome and those of the other
    genomes. *)
Lemma counted_split_length (g : GenomePtr) (l : ColumnMap) :
  List.length l
  = (List.length (filter (fun e => getGenome e.1 = g) l)
     + List.length (filter (fun e => getGenome e.1 <> g) l))%nat.
Proof.
  induction l as [|e l IH]; [reflexivity|].
  destruct (decide (getGenome e.1 = g)) as [He|He].
  - rewrite filter_cons_True by exact He.
    rewrite (filter_cons_False (fun e => getGenome e.1 <> g))
      by (intros Hn; apply Hn; exact He).
    cbn [List.length]. lia.
  - rewrite filter_cons_False by exact He.
    rewrite (filter_cons_True (fun e => getGenome e.1 <> g)) by exact He.
    cbn [List.length]. lia.
Qed.

Lemma identical_split_length t (g : GenomePtr) (l : ColumnMap) :
  List.length (filter (identical_entry t) l)
  = (List.length (filter (fun e => getGenome e.1 = g /\ identical_entry t e) l)
     + List.length (filter (identical_entry t)
                      (filter (fun e => getGenome e.1 <> g) l)))%nat.
Proof.
  induction l as [|e l IH]; [reflexivity|].
  destruct (decide (getGenome e.1 = g)) as [He|He];
    destruct (decide (identical_entry t e)) as [Hi|Hi].
  - rewrite (filter_cons_True (identical_entry t)) by exact Hi.
    rewrite (filter_cons_True (fun e => getGenome e.1 = g /\ identical_entry t e))
      by (split; assumption).
    rewrite (filter_cons_False (fun e => getGenome e.1 <> g))
      by (intros Hn; apply Hn; exact He).
    cbn [List.length]. lia.
  - rewrite (filter_cons_False (identical_entry t)) by exact Hi.
    rewrite (filter_cons_False (fun e => getGenome e.1 = g /\ identical_entry t e))
      by (intros [_ ?]; contradiction).
    rewrite (filter_cons_False (fun e => getGenome e.1 <> g))
      by (intros Hn; apply Hn; exact He).
    exact IH.
  - rewrite (filter_cons_True (identical_entry t)) by exact Hi.
    rewrite (filter_cons_False (fun e => getGenome e.1 = g /\ identical_entry t e))
      by (intros [? _]; contradiction).
    rewrite (filter_cons_True (fun e => getGenome e.1 <> g)) by exact He.
    rewrite (filter_cons_True (identical_entry t)) by exact Hi.
    cbn [List.length]. lia.
  - rewrite (filter_cons_False (identical_entry t)) by exact Hi.
    rewrite (filter_cons_False (fun e => getGenome e.1 = g /\ identical_entry t e))
      by (intros [? _]; contradiction).
    rewrite (filter_cons_True (fun e => getGenome e.1 <> g)) by exact He.
    rewrite (filter_cons_False (identical_entry t)) by exact Hi.
    exact IH.
Qed.

Lemma wrap64_pred_add a b : wrap64 (wrap64 (a - 1) + b) = wrap64 (b + a - 1).
Proof. unfold wrap64. rewrite Z.add_mod_idemp_l by lia. f_equal; ring. Qed.

(** C8, as the code has it: in a column whose non-empty entries have
    equal genomes next to each other in the iteration order (the
    adjacency the loop assumes), every genome increments the aligned
    count at most once and the identical count at most once, however
    many non-empty entries it has.  The entries that increment decide
    both counts that the column emits, and each count that the loop
    computes for the column is the count that it computes for the
    column without the entries of the genome, plus that one increment
    at most. *)
Theorem adjacent_genome_counted_once targetNuc (cmap : ColumnMap) (g : GenomePtr)
    (Hadj : contiguous (nonempty_genomes cmap)) :
  (aligned_contribution g cmap <= 1)%nat
  /\ (identical_contribution targetNuc g cmap <= 1)%nat
  /\ NoDup ((fun e => getGenome e.1) <$> counted None cmap)
  /\ n_aligned (count_column targetNuc cmap)
     = wrap64 (Z.of_nat (List.length (counted None cmap)) - 1)
  /\ n_identical (count_column targetNuc cmap)
     = wrap64 (Z.of_nat (List.length (filter (identical_entry targetNuc)
                                        (counted None cmap))) - 1)
  /\ n_aligned (count_column targetNuc cmap)
     = wrap64 (n_aligned (count_column targetNuc (without_genome g cmap))
               + Z.of_nat (aligned_contribution g cmap))
  /\ n_identical (count_column targetNuc cmap)
     = wrap64 (n_identical (count_column targetNuc (without_genome g cmap))
               + Z.of_nat (identical_contribution targetNuc g cmap)).
Proof.
  destruct (counted_grouped cmap None) as [Hnd _].
  { apply contiguous_grouped, Hadj. }
  { intros g0 Hg0. discriminate Hg0. }
  assert (Ha : (aligned_contribution g cmap <= 1)%nat).
  { unfold aligned_contribution. apply filter_genome_NoDup, Hnd. }
  assert (Hwithout : counted None (without_genome g cmap)
                     = filter (fun e => getGenome e.1 <> g) (counted None cmap)).
  { apply counted_without; [apply contiguous_grouped, Hadj| |discriminate|left; reflexivity].
    intros g0 Hg0. discriminate Hg0. }
  destruct (count_column_values targetNuc cmap) as [Hal Hid].
  destruct (count_column_values targetNuc (without_genome g cmap)) as [Hal' Hid'].
  split; [exact Ha|]. split.
  { unfold identical_contribution.
    etransitivity; [apply (filter_and_length (fun e => getGenome e.1 = g))|exact Ha]. }
  split; [exact Hnd|]. split; [exact Hal|]. split; [exact Hid|]. split.
  - rewrite Hal', Hal, Hwithout, wrap64_pred_add. f_equal.
    unfold aligned_contribution.
    rewrite (counted_split_length g (counted None cmap)). lia.
  - rewrite Hid', Hid, Hwithout, wrap64_pred_add. f_equal.
    unfold identical_contribution.
    rewrite (identical_split_length targetNuc g (counted None cmap)). lia.
Qed.

Lemma grouped_column_contiguous : contiguous (nonempty_genomes grouped_column).
Proof.
  intros i j k g Hlt Hi Hk.
  destruct i as [|[|[|[|i]]]]; try discriminate Hi;
    destruct k as [|[|[|[|k]]]]; try discriminate Hk;
    destruct j as [|[|[|[|j]]]]; try lia;
    vm_compute in Hi, Hk |- *; congruence.
Qed.

Lemma adjacent_genome_counted_once_witness :
  (aligned_contribution 2 grouped_column <= 1)%nat
  /\ (identical_contribution "a" 2 grouped_column <= 1)%nat
  /\ NoDup ((fun e => getGenome e.1) <$> counted None grouped_column)
  /\ n_aligned (count_column "a" grouped_column)
     = wrap64 (Z.of_nat (List.length (counted None grouped_column)) - 1)
  /\ n_identical (count_column "a" grouped_column)
     = wrap64 (Z.of_nat (List.length (filter (identical_entry "a")
                                        (counted None grouped_column))) - 1)
  /\ n_aligned (count_column "a" grouped_column)
     = wrap64 (n_aligned (count_column "a" (without_genome 2 grouped_column))
               + Z.of_nat (aligned_contribution 2 grouped_column))
  /\ n_identical (count_column "a" grouped_column)
     = wrap64 (n_identical (count_column "a" (without_genome 2 grouped_column))
               + Z.of_nat (identical_contribution "a" 2 grouped_column)).
Proof.
  apply (adjacent_genome_counted_once "a" grouped_column 2%nat).
  exact grouped_column_contiguous.
Defined.

(** On the grouped column the two scaffolds of genome 2 add one to each
    count: without them the column emits 0 and 1, with them 1 and 2. *)
Example grouped_column_counts :
  scan_column grouped_column chr1
  = inr {| last_genome := Some 3%nat; n_identical := 1; n_aligned := 2 |}
  /\ scan_column (without_genome 2 grouped_column) chr1
     = inr {| last_genome := Some 3%nat; n_identical := 0; n_aligned := 1 |}.
Proof. vm_compute. split; reflexivity. Qed.

(** C8, as stated, fails on a column in which the two entries of
    genome 2 are apart: genome 2, which is not the reference, is counted
    twice in each count, and the column emits 2 and 3 for two other
    genomes. *)
Lemma split_genome_counterexample :
  getGenome chr1 <> 2%nat
  /\ ~ (aligned_contribution 2 split_column <= 1)%nat
  /\ ~ (identical_contribution "a" 2 split_column <= 1)%nat
  /\ scan_column split_column chr1
     = inr {| last_genome := Some 2%nat; n_identical := 2; n_aligned := 3 |}.
Proof.
  split; [vm_compute; discriminate|].
  split; [vm_compute; lia|]. split; [vm_compute; lia|].
  vm_compute. reflexivity.
Qed.

(** ** The unused flag *)

Lemma printSequence_countDupes fuel src out s targetSet start length step
    countDupes noAncestors :
  printSequence fuel src out s targetSet start length step countDupes noAncestors
  = printSequence fuel src out s targetSet start length step false noAncestors.
Proof. reflexivity. Qed.

Lemma printGenome_loop_countDupes fuel src targetSet start length step
    countDupes noAncestors seqs : forall runningLength out,
  printGenome_loop fuel src targetSet start length step countDupes noAncestors
    seqs runningLength out
  = printGenome_loop fuel src targetSet start length step false noAncestors
      seqs runningLength out.
Proof.
  induction seqs as [|s rest IH]; intros r o; [reflexivity|].
  cbn [printGenome_loop]. destruct (decide _); [|apply IH].
  rewrite (printSequence_countDupes _ _ _ _ _ _ _ _ countDupes).
  destruct (printSequence _ _ _ _ _ _ _ _ _ _) as [o' [| | | |]]; try reflexivity.
  apply IH.
Qed.

(** C10: the two tracks do not depend on [countDupes]: [printSequence]
    and [printGenome] take the flag and never read it. *)
Theorem countDupes_is_ignored fuel src out genome sequence targetSet
    start length step noAncestors :
  printGenome fuel src out genome sequence targetSet start length step true noAncestors
  = printGenome fuel src out genome sequence targetSet start length step false noAncestors.
Proof.
  unfold printGenome. destruct sequence as [s|].
  - apply printSequence_countDupes.
  - destruct (decide _); [reflexivity|]. apply printGenome_loop_countDupes.
Qed.

(** ** The range check *)

Lemma scan_column_inl cmap sequence st :
  scan_column cmap sequence = inl st -> st = OutOfRange \/ st = Undefined.
Proof.
  unfold scan_column. destruct (column_at cmap sequence) as [[|b bs]|];
    intros Heq; inversion Heq; auto.
Qed.

(** The scan loop throws no [hal_exception]. *)
Lemma scan_loop_not_raised cols sequence step last fuel : forall pos colIt out e,
  (scan_loop fuel cols sequence step last pos colIt out).2 <> Raised e.
Proof.
  induction fuel as [|fuel IH]; intros pos colIt out e; cbn [scan_loop].
  - discriminate.
  - destruct (decide (pos <= last)); [|discriminate].
    destruct (scan_column _ _) as [st|c] eqn:Hsc.
    + apply scan_column_inl in Hsc as [-> | ->]; discriminate.
    + destruct (lastColumn colIt); [discriminate|]. apply IH.
Qed.

(** [printSequence] throws exactly when its check fires. *)
Lemma printSequence_raised fuel src out s targetSet start length step cd na e :
  (printSequence fuel src out s targetSet start length step cd na).2 = Raised e
  <-> e = RangeError
      /\ getSequenceLength s <> 0
      /\ wrap64 (start + (if decide (length = 0)
                          then wrap64 (getSequenceLength s - start) else length))
         > getSequenceLength s.
Proof.
  unfold printSequence. destruct (decide (getSequenceLength s = 0)) as [Hz|Hnz].
  - cbn [snd]. split; [discriminate|]. intros (_ & Hne & _). contradiction.
  - destruct (decide (_ > _)) as [Hgt|Hle]; cbn [snd].
    + split; [intros Heq; inversion Heq; auto|]. intros (-> & _ & _). reflexivity.
    + split; [|intros (_ & _ & Hgt); contradiction].
      intros Hr. exfalso. eapply scan_loop_not_raised. exact Hr.
Qed.

(** A call of [printSequence] from the loop of [printGenome] is within
    the sequence. *)
Lemma printGenome_read_in_range start length r seqStart seqLen :
  0 <= start < 2 ^ 64 -> 0 <= r < 2 ^ 64 ->
  0 <= seqStart < 2 ^ 64 -> 0 <= seqLen < 2 ^ 64 ->
  start < wrap64 (seqStart + seqLen) -> r < length ->
  let readStart := if decide (seqStart >= start) then 0 else wrap64 (start - seqStart) in
  let readLen :=
    Z.min (Z.min (wrap64 (seqLen - readStart)) length) (wrap64 (length - r)) in
  ~ wrap64 (readStart + (if decide (readLen = 0)
                         then wrap64 (seqLen - readStart) else readLen)) > seqLen.
Proof.
  intros Hs Hr Hss Hsl Hlt Hrl readStart readLen.
  assert (Hrs : 0 <= readStart <= seqLen).
  { subst readStart. destruct (decide (seqStart >= start)); [lia|].
    destruct (wrap64_sub_cases start seqStart Hs Hss) as [[_ ->]|[? _]]; [|lia].
    destruct (wrap64_add_cases seqStart seqLen Hss Hsl) as [[_ Heq]|[_ Heq]];
      rewrite Heq in Hlt; lia. }
  assert (Hw : wrap64 (seqLen - readStart) = seqLen - readStart)
    by (apply wrap64_small; lia).
  pose proof (wrap64_range (length - r)) as Hlr.
  assert (Hrl2 : 0 <= readLen <= seqLen - readStart).
  { subst readLen. rewrite Hw. lia. }
  destruct (decide (readLen = 0)).
  - rewrite Hw, wrap64_small by lia. lia.
  - rewrite wrap64_small by lia. lia.
Qed.

Lemma printGenome_loop_not_raised fuel src targetSet start length step cd na seqs :
  0 <= start < 2 ^ 64 ->
  Forall (fun s => 0 <= getSequenceLength s < 2 ^ 64) seqs ->
  forall r out e, 0 <= r < 2 ^ 64 ->
    (printGenome_loop fuel src targetSet start length step cd na seqs r out).2
    <> Raised e.
Proof.
  intros Hs Hall. induction Hall as [|s rest Hlen Hall IH]; intros r out e Hr;
    cbn [printGenome_loop]; [discriminate|].
  destruct (decide _) as [(_ & Hlt & Hrl)|_]; [|apply IH; exact Hr].
  destruct (printSequence _ _ _ _ _ _ _ _ _ _) as [o' st] eqn:Hps.
  assert (Hst : forall e', st <> Raised e').
  { intros e' ->. pose proof (f_equal snd Hps) as Hsnd. cbn [snd] in Hsnd.
    apply printSequence_raised in Hsnd as (_ & _ & Hgt).
    revert Hgt. apply printGenome_read_in_range; try assumption.
    apply wrap64_range. }
  destruct st; cbn [snd]; try discriminate.
  - apply IH. apply wrap64_range.
  - apply Hst.
Qed.

(** Without a reference sequence [printGenome] throws exactly when its
    own check fires. *)
Lemma printGenome_raised fuel src out genome targetSet start length step cd na e :
  0 <= start < 2 ^ 64 ->
  Forall (fun s => 0 <= getSequenceLength s < 2 ^ 64) (genomeSequences genome) ->
  (printGenome fuel src out genome None targetSet start length step cd na).2 = Raised e
  <-> e = RangeError /\ wrap64 (start + length) > genomeLength genome.
Proof.
  intros Hs Hall. unfold printGenome.
  destruct (decide (_ > _)) as [Hgt|Hle]; cbn [snd].
  - split; [intros Heq; inversion Heq; auto|]. intros [-> _]. reflexivity.
  - split; [|intros [_ Hgt]; contradiction].
    intros Hr. exfalso. revert Hr. apply printGenome_loop_not_raised; try assumption. lia.
Qed.

(** C5, as the code has it, for requests whose [start + length] fits in
    64 bits.  Without a reference sequence the scan fails with
    [RangeError] exactly when [start + length] exceeds the length of the
    genome; this includes a length of 0 with a start beyond the end.
    With a reference sequence of non-zero length and a non-zero length
    argument it fails with [RangeError] exactly when [start + length]
    exceeds the length of the sequence.  For a reference sequence of
    length zero it returns at once, without output and without error,
    whatever the range.  No other [hal_exception] is thrown. *)
Theorem range_error_when_checked fuel src out genome sequence targetSet
    start length step countDupes noAncestors
    (Hstart : 0 <= start) (Hlength : 0 <= length)
    (Hfit : start + length < 2 ^ 64)
    (Hseqs : Forall (fun s => 0 <= getSequenceLength s < 2 ^ 64)
               (genomeSequences genome)) :
  let r := printGenome fuel src out genome sequence targetSet start length step
             countDupes noAncestors in
  (forall e, r.2 = Raised e -> e = RangeError)
  /\ match sequence with
     | None => r.2 = Raised RangeError <-> start + length > genomeLength genome
     | Some s =>
         (getSequenceLength s = 0 -> r = (out, Returned))
         /\ (getSequenceLength s <> 0 -> length <> 0 ->
             (r.2 = Raised RangeError <-> start + length > getSequenceLength s))
     end.
Proof.
  intros r. subst r. destruct sequence as [s|].
  - cbn [printGenome]. split; [|split].
    + intros e He. apply printSequence_raised in He. tauto.
    + intros Hz. unfold printSequence. destruct (decide _); [reflexivity|contradiction].
    + intros Hnz Hl. rewrite printSequence_raised.
      destruct (decide (length = 0)); [contradiction|].
      rewrite wrap64_small by lia. tauto.
  - split.
    + intros e He. apply printGenome_raised in He; [tauto|lia|exact Hseqs].
    + rewrite printGenome_raised by (lia || exact Hseqs).
      rewrite wrap64_small by lia. tauto.
Qed.

Lemma range_error_when_checked_witness :
  let r := printGenome 20 own_source no_tracks genome1 None ∅ 11 0 1 false false in
  (forall e, r.2 = Raised e -> e = RangeError)
  /\ (r.2 = Raised RangeError <-> 11 + 0 > genomeLength genome1).
Proof.
  apply (range_error_when_checked 20 own_source no_tracks genome1 None ∅ 11 0 1
           false false); [lia|lia|lia|].
  repeat constructor; vm_compute; congruence.
Defined.

(** C5, as stated, fails for a reference sequence of length zero: the
    range from 0 of length 5 exceeds the sequence and the scan returns
    without an error. *)
Lemma zero_length_sequence_counterexample :
  ~ (0 + 5 > getSequenceLength chrUn ->
     (printGenome 20 own_source no_tracks genome1 (Some chrUn) ∅ 0 5 1 false false).2
     = Raised RangeError).
Proof.
  intros Himp. assert (Hgt : 0 + 5 > getSequenceLength chrUn) by (vm_compute; reflexivity).
  specialize (Himp Hgt). vm_compute in Himp. discriminate Himp.
Qed.

(** With a reference sequence and a length of 0 the check of
    [printSequence] comes after [length = seqLen - start] and compares
    [seqLen] with itself: a start beyond the end is not reported, where
    [printGenome] checks before it replaces the length. *)
Lemma printSequence_start_beyond_end :
  11 > getSequenceLength chr1
  /\ printGenome 20 own_source no_tracks genome1 (Some chr1) ∅ 11 0 1 false false
     = ({| outStreamNIdentical := [FixedStep "chr1" 12 1];
           outStreamNAligned := [FixedStep "chr1" 12 1] |}, Returned)
  /\ (printGenome 20 own_source no_tracks genome1 None ∅ 11 0 1 false false).2
     = Raised RangeError.
Proof. vm_compute. repeat split; reflexivity. Qed.

(** ** Termination of the scan loop and the last column *)

Lemma emit_all_cons cols sequence p ps out :
  emit_all cols sequence (p :: ps) out
  = emit_all cols sequence ps (emit out (counters_at cols sequence p)).
Proof. reflexivity. Qed.

(** [emit_all] appends one value per position to each track. *)
Lemma emit_all_tracks cols sequence ps : forall out,
  outStreamNIdentical (emit_all cols sequence ps out)
  = outStreamNIdentical out
    ++ ((fun p => Value (n_identical (counters_at cols sequence p))) <$> ps)
  /\ outStreamNAligned (emit_all cols sequence ps out)
     = outStreamNAligned out
       ++ ((fun p => Value (n_aligned (counters_at cols sequence p))) <$> ps).
Proof.
  induction ps as [|p ps IH]; intros out.
  - simpl. rewrite !app_nil_r. split; reflexivity.
  - rewrite emit_all_cons. destruct (IH (emit out (counters_at cols sequence p)))
      as [-> ->]. cbn [emit outStreamNIdentical outStreamNAligned fmap list_fmap].
    rewrite <- !app_assoc. split; reflexivity.
Qed.

Lemma grid_nil first step bound : 0 < step -> bound < first -> grid first step bound = [].
Proof.
  intros Hs Hlt. unfold grid.
  assert ((bound - first) / step + 1 <= 0).
  { assert ((bound - first) / step < 0); [|lia]. apply Z.div_lt_upper_bound; lia. }
  rewrite seqZ_nil by lia. reflexivity.
Qed.

Lemma grid_cons first step bound :
  0 < step -> first <= bound ->
  grid first step bound = first :: grid (first + step) step bound.
Proof.
  intros Hs Hle. unfold grid.
  assert (Hq : (bound - first) / step = (bound - (first + step)) / step + 1).
  { replace (bound - first) with ((bound - (first + step)) + 1 * step) by ring.
    rewrite Z.div_add by lia. reflexivity. }
  assert (0 <= (bound - first) / step) by (apply Z.div_pos; lia).
  rewrite seqZ_cons by lia. rewrite fmap_cons. f_equal; [ring|].
  rewrite Hq. replace (Z.pred ((bound - (first + step)) / step + 1 + 1))
    with ((bound - (first + step)) / step + 1) by lia.
  replace (Z.succ 0) with (1 + 0) by lia. rewrite <- fmap_add_seqZ.
  rewrite <- list_fmap_compose. apply list_fmap_ext. intros _ k _. cbn. ring.
Qed.

Section ScanLoop.
Variable cols : Z -> ColumnMap.
Variable sequence : Sequence.
Variables step last : Z.
Hypothesis Hstep : 1 <= step < 2 ^ 64.
Hypothesis Hlast : 0 <= last < 2 ^ 63.

(** The number of iterations left at [pos], plus the one that finds
    [pos > last].  When [pos + step] can pass [2^64] within the range,
    [step] is so large that [pos] wraps downwards until the sum no
    longer wraps and leaves the range. *)
Definition fuel_bound (pos : Z) : Z :=
  if decide (pos <= last)
  then (if decide (step + last < 2 ^ 64) then last - pos else pos) + 2
  else 1.

Lemma scan_loop_terminates fuel : forall pos colIt out,
  0 <= pos < 2 ^ 64 -> fuel_bound pos <= Z.of_nat fuel ->
  (scan_loop fuel cols sequence step last pos colIt out).2 <> NoFuel.
Proof.
  induction fuel as [|fuel IH]; intros pos colIt out Hpos Hfuel.
  - exfalso. unfold fuel_bound in Hfuel.
    destruct (decide (pos <= last)); [destruct (decide _)|]; lia.
  - cbn [scan_loop]. destruct (decide (pos <= last)) as [Hle|Hgt]; [|discriminate].
    destruct (scan_column _ _) as [st|c] eqn:Hsc.
    + apply scan_column_inl in Hsc as [-> | ->]; discriminate.
    + destruct (lastColumn colIt); [discriminate|].
      apply IH; [apply wrap64_range|].
      unfold fuel_bound in *. destruct (decide (pos <= last)); [|contradiction].
      destruct (wrap64_add_cases pos step Hpos ltac:(lia)) as [[Hfit ->]|[Hover ->]];
        destruct (decide (_ <= last)); destruct (decide (step + last < 2 ^ 64)); lia.
Qed.

(** Whatever the columns hold, the loop writes one line per column that
    it reads. *)
Lemma scan_loop_emits fuel : forall pos colIt out o st,
  scan_loop fuel cols sequence step last pos colIt out = (o, st) ->
  exists ps, o = emit_all cols sequence ps out.
Proof.
  induction fuel as [|fuel IH]; intros pos colIt out o st Hrun; cbn [scan_loop] in Hrun.
  - inversion Hrun; subst. exists []. reflexivity.
  - destruct (decide (pos <= last)).
    2:{ inversion Hrun; subst. exists []. reflexivity. }
    unfold getColumnMap in Hrun.
    destruct (scan_column (cols (ci_index colIt)) sequence) as [st'|c] eqn:Hc.
    { inversion Hrun; subst. exists []. reflexivity. }
    assert (Hat : counters_at cols sequence (ci_index colIt) = c)
      by (unfold counters_at; rewrite Hc; reflexivity).
    destruct (lastColumn colIt).
    + inversion Hrun; subst. exists [ci_index colIt]. reflexivity.
    + apply IH in Hrun as (ps & ->).
      exists (ci_index colIt :: ps). rewrite emit_all_cons, Hat. reflexivity.
Qed.

Variable lo : Z.
Hypothesis Hlo : 0 <= lo <= last.

(** Once the position has left the range [[lo, last)], after a jump,
    the loop reads no column of the range any more: it may read the
    column at [last], and with a step so large that the position wraps
    it may read columns before [lo]. *)
Lemma scan_loop_outside fuel : forall pos colIt out o st,
  scan_loop fuel cols sequence step last pos colIt out = (o, st) ->
  0 <= pos < 2 ^ 64 -> step <> 1 ->
  ci_lastIndex colIt = last -> (pos <= last -> ci_index colIt = pos) ->
  (last <= pos \/ (pos < lo /\ last <= step)) ->
  exists ps, o = emit_all cols sequence ps out
    /\ forall p, p ∈ ps -> p < lo \/ last <= p.
Proof.
  induction fuel as [|fuel IH]; intros pos colIt out o st Hrun Hpos Hst Hli Hidx Hout;
    cbn [scan_loop] in Hrun.
  - inversion Hrun; subst. exists []. split; [reflexivity|]. intros p Hp. inversion Hp.
  - destruct (decide (pos <= last)) as [Hle|Hgt].
    2:{ inversion Hrun; subst. exists []. split; [reflexivity|]. intros p Hp. inversion Hp. }
    unfold getColumnMap in Hrun. rewrite (Hidx Hle) in Hrun.
    destruct (scan_column (cols pos) sequence) as [st'|c] eqn:Hc.
    { inversion Hrun; subst. exists []. split; [reflexivity|]. intros p Hp. inversion Hp. }
    assert (Hat : counters_at cols sequence pos = c)
      by (unfold counters_at; rewrite Hc; reflexivity).
    assert (Hhere : pos < lo \/ last <= pos) by lia.
    unfold lastColumn in Hrun. rewrite Hli, (Hidx Hle) in Hrun.
    destruct (decide (last <= pos)) as [Hlastcol|Hmore].
    + rewrite bool_decide_eq_true_2 in Hrun by exact Hlastcol.
      inversion Hrun; subst. exists [pos]. split; [reflexivity|].
      intros p Hp. apply list_elem_of_singleton in Hp as ->. exact Hhere.
    + rewrite bool_decide_eq_false_2 in Hrun by exact Hmore.
      apply IH in Hrun as (ps & -> & Hps).
      * exists (pos :: ps). split; [rewrite emit_all_cons, Hat; reflexivity|].
        intros p Hp. apply elem_of_cons in Hp as [->|Hp]; [exact Hhere|apply Hps, Hp].
      * apply wrap64_range.
      * exact Hst.
      * unfold advance. rewrite decide_False by exact Hst.
        cbn [toSite ci_lastIndex]. apply as_index_small. lia.
      * intros Hle'. unfold advance. rewrite decide_False by exact Hst.
        cbn [toSite ci_index]. apply as_index_small.
        pose proof (wrap64_range (pos + step)). lia.
      * destruct (wrap64_add_cases pos step Hpos ltac:(lia)) as [[Hfit ->]|[Hover ->]]; lia.
Qed.

Hypothesis Hpresent : reference_within cols sequence lo last.

(** From a position of the range [[lo, last)] the loop writes the
    columns of the grid up to the last position of the range, and after
    them only columns outside the range; none with a step of 1, and
    none when the range ends at the position. *)
Lemma scan_loop_in_range fuel : forall pos colIt out o st,
  scan_loop fuel cols sequence step last pos colIt out = (o, st) ->
  st <> NoFuel ->
  lo <= pos < last -> (pos = lo \/ pos + step < 2 ^ 64) ->
  ci_index colIt = pos ->
  last - 1 <= ci_lastIndex colIt <= last ->
  (step = 1 -> ci_lastIndex colIt = last - 1) ->
  exists extra,
    o = emit_all cols sequence (grid pos step (last - 1) ++ extra) out
    /\ (forall p, p ∈ extra -> p < lo \/ last <= p)
    /\ (ci_lastIndex colIt = last - 1 -> step = 1 \/ pos = last - 1 ->
        extra = [] /\ st = Returned).
Proof.
  induction fuel as [|fuel IH];
    intros pos colIt out o st Hrun Hnf Hpos Hwrap Hidx Hli Hone; cbn [scan_loop] in Hrun.
  - inversion Hrun; subst. contradiction.
  - destruct (decide (pos <= last)) as [_|Hgt]; [|lia].
    unfold getColumnMap in Hrun. rewrite Hidx in Hrun.
    destruct (Hpresent pos Hpos) as [c Hc]. rewrite Hc in Hrun.
    assert (Hat : counters_at cols sequence pos = c)
      by (unfold counters_at; rewrite Hc; reflexivity).
    rewrite (grid_cons pos step (last - 1)) by lia.
    unfold lastColumn in Hrun. rewrite Hidx in Hrun.
    destruct (decide (ci_lastIndex colIt <= pos)) as [Hlastcol|Hmore].
    + rewrite bool_decide_eq_true_2 in Hrun by exact Hlastcol.
      injection Hrun as <- <-. exists []. rewrite grid_nil by lia.
      split; [cbn [app]; rewrite emit_all_cons, Hat; reflexivity|].
      split; [intros p Hp; inversion Hp|]. intros _ _. split; reflexivity.
    + rewrite bool_decide_eq_false_2 in Hrun by exact Hmore.
      destruct (decide (pos + step < last)) as [Hin|Hleave].
      * (* the next position is in the range *)
        rewrite (wrap64_small (pos + step)) in Hrun by lia.
        apply IH in Hrun as (extra & -> & Hextra & Hexact); try assumption; try lia.
        -- exists extra. split; [cbn [app]; rewrite emit_all_cons, Hat; reflexivity|].
           split; [exact Hextra|]. intros Hb Hcase. apply Hexact.
           ++ unfold advance. destruct (decide (step = 1)) as [_|Hn]; [|lia].
              destruct (decide _); unfold defragment, toRight; cbn [ci_lastIndex]; exact Hb.
           ++ left. lia.
        -- unfold advance. destruct (decide (step = 1)).
           ++ destruct (decide _); unfold defragment, toRight; cbn [ci_index]; lia.
           ++ cbn [toSite ci_index]. apply as_index_small. lia.
        -- unfold advance. destruct (decide (step = 1)).
           ++ destruct (decide _); unfold defragment, toRight; cbn [ci_lastIndex]; lia.
           ++ cbn [toSite ci_lastIndex]. rewrite as_index_small; lia.
        -- intros Hs. unfold advance. rewrite decide_True by exact Hs.
           destruct (decide _); unfold defragment, toRight; cbn [ci_lastIndex];
             apply Hone, Hs.
      * (* the next position is outside *)
        assert (Hst : step <> 1).
        { intros Hs. specialize (Hone Hs). lia. }
        rewrite grid_nil by lia.
        apply scan_loop_outside in Hrun as (ps & -> & Hps).
        -- exists ps. split; [cbn [app]; rewrite emit_all_cons, Hat; reflexivity|].
           split; [exact Hps|]. intros Hb [Hs|Hp]; [contradiction|lia].
        -- apply wrap64_range.
        -- exact Hst.
        -- unfold advance. rewrite decide_False by exact Hst.
           cbn [toSite ci_lastIndex]. apply as_index_small. lia.
        -- intros Hle'. unfold advance. rewrite decide_False by exact Hst.
           cbn [toSite ci_index]. apply as_index_small.
           pose proof (wrap64_range (pos + step)). lia.
        -- destruct (wrap64_add_cases pos step ltac:(lia) ltac:(lia))
             as [[Hfit ->]|[Hover ->]]; lia.
Qed.

End ScanLoop.

(** The last position of a grid. *)
Lemma grid_last first step bound :
  0 < step -> first <= bound ->
  list.last (grid first step bound) = Some (first + step * ((bound - first) / step)).
Proof.
  intros Hs Hle. unfold grid.
  assert (Hq : 0 <= (bound - first) / step) by (apply Z.div_pos; lia).
  rewrite seqZ_app by lia. rewrite fmap_app.
  change (seqZ (0 + (bound - first) / step) 1) with [0 + (bound - first) / step].
  cbn [fmap list_fmap]. rewrite last_snoc. f_equal. ring.
Qed.

(** C9, as the code has it: for every step of at least 1 and every
    range within a sequence whose positions fit [hal_index_t], the scan
    loop ends (with enough fuel the model never runs out of it).  Where
    the columns of the range hold a base of the sequence, it ends by
    returning or at a column that does not hold the reference, and, as
    the test for the last column comes after the column is written, it
    has then written to both tracks the header and the columns at
    [start], [start + step], ... up to the last such position inside
    the range, [start + step * ((length - 1) / step)]: the first column
    of the range always, the last position of the range when the grid
    steps on it, also when the range is one column.  The lines that
    follow these, if any, are of columns outside the range; with a step
    of 1, or a range of one column, none follows and the scan
    returns. *)
Theorem scan_terminates_and_emits_last fuel src out sequence targetSet
    start length step countDupes noAncestors
    (Hstep : 1 <= step < 2 ^ 64)
    (Hstart : 0 <= start < getSequenceLength sequence)
    (Hlength : 0 <= length)
    (Hrange : start + length <= getSequenceLength sequence)
    (Hoff : 0 <= getStartPosition sequence)
    (Hidx : getStartPosition sequence + getSequenceLength sequence < 2 ^ 63)
    (Hfuel : getStartPosition sequence + getSequenceLength sequence + 2
             <= Z.of_nat fuel) :
  let cols := src sequence targetSet noAncestors in
  let len := if decide (length = 0) then getSequenceLength sequence - start
             else length in
  let first := getStartPosition sequence + start in
  let target := first + step * ((len - 1) / step) in
  let ps := grid first step (first + len - 1) in
  let r := printSequence fuel src out sequence targetSet start length step
             countDupes noAncestors in
  r.2 <> NoFuel
  /\ (reference_within cols sequence first (first + len) ->
      (r.2 = Returned \/ r.2 = OutOfRange \/ r.2 = Undefined)
      /\ head ps = Some first /\ list.last ps = Some target
      /\ exists extra,
           (forall p, p ∈ extra -> p < first \/ first + len <= p)
           /\ (step = 1 \/ len = 1 -> extra = [] /\ r.2 = Returned)
           /\ outStreamNIdentical r.1
              = outStreamNIdentical out
                ++ FixedStep (getName sequence) (start + 1) step
                   :: ((fun p => Value (n_identical (counters_at cols sequence p)))
                         <$> (ps ++ extra))
           /\ outStreamNAligned r.1
              = outStreamNAligned out
                ++ FixedStep (getName sequence) (start + 1) step
                   :: ((fun p => Value (n_aligned (counters_at cols sequence p)))
                         <$> (ps ++ extra))).
Proof.
  intros cols len first target ps r.
  set (seqLen := getSequenceLength sequence) in *.
  set (off := getStartPosition sequence) in *.
  assert (Hlen : 1 <= len /\ start + len <= seqLen).
  { subst len. destruct (decide (length = 0)); lia. }
  assert (Hr : r = scan_loop fuel cols sequence step (first + len) first
                     {| ci_index := first; ci_lastIndex := first + len - 1 |}
                     (emit_header out (getName sequence) (start + 1) step)).
  { subst r first. unfold printSequence. fold seqLen. fold off.
    destruct (decide (seqLen = 0)); [lia|].
    assert (Hl : (if decide (length = 0) then wrap64 (seqLen - start) else length) = len).
    { subst len. destruct (decide (length = 0)); [apply wrap64_small; lia|reflexivity]. }
    rewrite Hl. rewrite (wrap64_small (start + len)) by lia.
    destruct (decide (start + len > seqLen)); [lia|].
    unfold getColumnIterator. fold off.
    rewrite !as_index_small by lia.
    rewrite !wrap64_small by lia. f_equal; [lia|lia|f_equal; lia]. }
  assert (Hterm : r.2 <> NoFuel).
  { rewrite Hr. apply scan_loop_terminates; try (subst first; lia).
    unfold fuel_bound. subst first.
    destruct (decide (_ <= _)); [destruct (decide (_ < _))|]; lia. }
  split; [exact Hterm|]. intros Hpresent.
  assert (Hstatus : r.2 = Returned \/ r.2 = OutOfRange \/ r.2 = Undefined).
  { destruct (r.2) as [|e| | |] eqn:Hst; auto.
    - exfalso. rewrite Hr in Hst. eapply scan_loop_not_raised. exact Hst.
    - contradiction. }
  split; [exact Hstatus|].
  split; [subst ps; rewrite grid_cons by (subst first; lia); reflexivity|].
  split.
  { subst ps target. rewrite grid_last by (subst first; lia).
    replace (first + len - 1 - first) with (len - 1) by lia. reflexivity. }
  destruct r as [o st] eqn:Hres. cbn [fst snd] in *. symmetry in Hr.
  apply (scan_loop_in_range cols sequence step (first + len) Hstep
           ltac:(subst first; lia) first ltac:(subst first; lia) Hpresent) in Hr
    as (extra & -> & Hextra & Hexact); cbn [ci_index ci_lastIndex];
    try first [exact Hterm | reflexivity | lia | (left; reflexivity)].
  exists extra. split; [exact Hextra|]. split.
  { intros Hcase. apply Hexact; [reflexivity|].
    destruct Hcase as [Hs|Hl]; [left; exact Hs|right; lia]. }
  fold ps.
  destruct (emit_all_tracks cols sequence (ps ++ extra)
              (emit_header out (getName sequence) (start + 1) step)) as [-> ->].
  cbn [emit_header outStreamNIdentical outStreamNAligned].
  rewrite <- !app_assoc. split; reflexivity.
Qed.

Lemma own_source_present s t b : reference_present (own_source s t b) chr1.
Proof. intros p. eexists. vm_compute. reflexivity. Qed.

Lemma scan_terminates_and_emits_last_witness :
  let cols := own_source chr1 ∅ false in
  let r := printSequence 20 own_source no_tracks chr1 ∅ 2 5 2 false false in
  r.2 <> NoFuel
  /\ (r.2 = Returned \/ r.2 = OutOfRange \/ r.2 = Undefined)
  /\ head (grid 2 2 6) = Some 2 /\ list.last (grid 2 2 6) = Some 6
  /\ exists extra,
       (forall p, p ∈ extra -> p < 2 \/ 7 <= p)
       /\ (2 = 1 \/ 5 = 1 -> extra = [] /\ r.2 = Returned)
       /\ outStreamNIdentical r.1
          = [] ++ FixedStep "chr1" 3 2
               :: ((fun p => Value (n_identical (counters_at cols chr1 p)))
                     <$> (grid 2 2 6 ++ extra))
       /\ outStreamNAligned r.1
          = [] ++ FixedStep "chr1" 3 2
               :: ((fun p => Value (n_aligned (counters_at cols chr1 p)))
                     <$> (grid 2 2 6 ++ extra)).
Proof.
  destruct (scan_terminates_and_emits_last 20 own_source no_tracks chr1 ∅ 2 5 2
              false false) as [Hterm Hemit]; try (simpl; lia).
  split; [exact Hterm|]. apply Hemit.
  intros p Hp. eexists. vm_compute. reflexivity.
Defined.

(** The scan on the ramp, where a value shows the position of its
    column.  With a step of 1 the range [0, 4) gives the positions 0 to
    3.  With a step of 2 the positions are 0, 2 and 4: after the first
    jump the iterator is bounded by [last], not [last - 1], and the
    column one past the range is written as well. *)
Example scan_positions_step_1 :
  outStreamNAligned
    (printSequence 20 ramp_source no_tracks chr1 ∅ 0 4 1 false false).1
  = [FixedStep "chr1" 1 1; Value 0; Value 1; Value 2; Value 3].
Proof. vm_compute. reflexivity. Qed.

Example scan_positions_step_2 :
  outStreamNAligned
    (printSequence 20 ramp_source no_tracks chr1 ∅ 0 4 2 false false).1
  = [FixedStep "chr1" 1 2; Value 0; Value 2; Value 4].
Proof. vm_compute. reflexivity. Qed.

(** The scan of the whole of [chr1] with a step of 2: the columns at 0,
    2, ..., 8 are written, and the scan goes on to the column at 10,
    one past the sequence, where [cmap->at] throws. *)
Example scan_past_the_sequence :
  printSequence 20 chr1_source no_tracks chr1 ∅ 0 0 2 false false
  = ({| outStreamNIdentical :=
          [FixedStep "chr1" 1 2; Value 0; Value 0; Value 0; Value 0; Value 0];
        outStreamNAligned :=
          [FixedStep "chr1" 1 2; Value 0; Value 0; Value 0; Value 0; Value 0] |},
     OutOfRange).
Proof. vm_compute. reflexivity. Qed.

(** A range of one column: the column is written although the iterator
    is at its last column from the start. *)
Example scan_single_column :
  printSequence 20 ramp_source no_tracks chr1 ∅ 3 1 5 false false
  = ({| outStreamNIdentical := [FixedStep "chr1" 4 5; Value 0];
        outStreamNAligned := [FixedStep "chr1" 4 5; Value 3] |}, Returned).
Proof. vm_compute. reflexivity. Qed.

(** A step of 0 is outside the claim: the loop stays on its column and
    the model runs out of any fuel. *)
Example scan_step_0_runs_on :
  (printSequence 50 ramp_source no_tracks chr1 ∅ 0 4 0 false false).2 = NoFuel.
Proof. vm_compute. reflexivity. Qed.

(** C9, as stated, fails for a step of 2 over the range [0, 4) of
    [chr1]: the last position of the range is 3, and the columns written
    are those at 0, 2 and 4. *)
Lemma last_in_range_position_counterexample :
  ~ (exists ps : list Z,
       3 ∈ ps
       /\ outStreamNAligned
            (printSequence 20 ramp_source no_tracks chr1 ∅ 0 4 2 false false).1
          = [] ++ FixedStep "chr1" 1 2
               :: ((fun p => Value (n_aligned
                                      (counters_at (ramp_source chr1 ∅ false) chr1 p)))
                     <$> ps)).
Proof.
  intros (ps & Hin & Heq).
  assert (Hv : Value 3 ∈ ((fun p => Value (n_aligned
                             (counters_at (ramp_source chr1 ∅ false) chr1 p)))
                            <$> ps)).
  { apply list_elem_of_fmap. exists 3. split; [vm_compute; reflexivity|exact Hin]. }
  rewrite scan_positions_step_2 in Heq. cbn [app] in Heq. injection Heq as Hps.
  rewrite <- Hps in Hv.
  repeat (apply elem_of_cons in Hv as [Hv|Hv]; [discriminate Hv|]).
  inversion Hv.
Qed.

(** ** The columns a scan writes *)

Section ScanExact.
Variable cols : Z -> ColumnMap.
Variable sequence : Sequence.
Variables step last : Z.
Hypothesis Hstep : 1 <= step < 2 ^ 63.
Hypothesis Hlast : 0 <= last < 2 ^ 63.
Hypothesis Hpresent : reference_present cols sequence.

Lemma scan_column_counters_at p :
  scan_column (cols p) sequence = inr (counters_at cols sequence p).
Proof.
  unfold counters_at. destruct (Hpresent p) as [c Hc]. rewrite Hc. reflexivity.
Qed.

(** The loop from a position of the grid, with the iterator at that
    position and bounded by [bound]: the columns of the grid up to the
    bound. *)
Lemma scan_loop_exact bound fuel : forall pos colIt out,
  0 <= pos < 2 ^ 64 -> bound <= last ->
  ci_lastIndex colIt = bound ->
  (pos <= last -> ci_index colIt = pos) ->
  (step <> 1 -> bound = last) ->
  (pos <= bound \/ last < pos) ->
  Z.max 0 (last - pos + 1) + 1 <= Z.of_nat fuel ->
  scan_loop fuel cols sequence step last pos colIt out
  = (emit_all cols sequence (grid pos step bound) out, Returned).
Proof.
  induction fuel as [|fuel IH]; intros pos colIt out Hpos Hb Hli Hidx Hst Hinv Hfuel;
    [lia|].
  cbn [scan_loop]. destruct (decide (pos <= last)) as [Hle|Hgt].
  - unfold getColumnMap. rewrite (Hidx Hle), scan_column_counters_at.
    assert (Hpb : pos <= bound) by lia.
    rewrite (grid_cons pos step bound) by lia. rewrite emit_all_cons.
    unfold lastColumn. rewrite Hli, (Hidx Hle).
    destruct (decide (bound <= pos)) as [Hlastcol|Hmore].
    + rewrite bool_decide_eq_true_2 by exact Hlastcol.
      rewrite grid_nil by lia. reflexivity.
    + rewrite bool_decide_eq_false_2 by exact Hmore.
      rewrite (wrap64_small (pos + step)) by lia.
      apply IH; [lia|lia| | |exact Hst| |lia].
      * unfold advance. destruct (decide (step = 1)).
        -- destruct (decide _); unfold defragment, toRight; cbn [ci_lastIndex]; exact Hli.
        -- cbn [toSite ci_lastIndex]. rewrite as_index_small by lia.
           symmetry. apply Hst. assumption.
      * intros Hle'. unfold advance. destruct (decide (step = 1)).
        -- destruct (decide _); unfold defragment, toRight; cbn [ci_index];
             rewrite (Hidx Hle); lia.
        -- cbn [toSite ci_index]. apply as_index_small. lia.
      * destruct (decide (step = 1)) as [?|Hn]; [lia|]. rewrite (Hst Hn). lia.
  - rewrite grid_nil by lia. reflexivity.
Qed.

End ScanExact.

(** [printSequence] on a range within a sequence of non-zero length:
    the header and the scan loop. *)
Lemma printSequence_as_loop fuel src out sequence targetSet start length step cd na :
  0 <= step < 2 ^ 64 ->
  0 <= start < getSequenceLength sequence -> 0 <= length ->
  start + length <= getSequenceLength sequence ->
  0 <= getStartPosition sequence ->
  getStartPosition sequence + getSequenceLength sequence < 2 ^ 63 ->
  let off := getStartPosition sequence in
  let len := if decide (length = 0) then getSequenceLength sequence - start
             else length in
  printSequence fuel src out sequence targetSet start length step cd na
  = scan_loop fuel (src sequence targetSet na) sequence step
      (start + len + off) (start + off)
      {| ci_index := start + off; ci_lastIndex := start + len - 1 + off |}
      (emit_header out (getName sequence) (start + 1) step).
Proof.
  intros Hstep Hstart Hlength Hrange Hoff Hidx off len.
  set (seqLen := getSequenceLength sequence) in *.
  assert (Hlen : 1 <= len /\ start + len <= seqLen).
  { subst len. destruct (decide (length = 0)); lia. }
  unfold printSequence. fold seqLen. fold off.
  destruct (decide (seqLen = 0)); [lia|].
  assert (Hl : (if decide (length = 0) then wrap64 (seqLen - start) else length) = len).
  { subst len. destruct (decide (length = 0)); [apply wrap64_small; lia|reflexivity]. }
  rewrite Hl. rewrite (wrap64_small (start + len)) by lia.
  destruct (decide (start + len > seqLen)); [lia|].
  unfold getColumnIterator. fold off.
  rewrite !as_index_small by lia.
  rewrite !wrap64_small by lia. reflexivity.
Qed.

(** X1: on a range within a sequence, with the reference in every
    column and a step from 1 below [2^63], [printSequence] returns and
    writes to both tracks the header and then the columns at [start],
    [start + step], ...: with a step of 1, or a range of one column, up
    to the last position of the range; with a larger step up to and
    including the position one past the range, to which the iterator is
    re-bounded after its first jump. *)
Theorem printSequence_writes_grid fuel src out sequence targetSet
    start length step countDupes noAncestors
    (Hstep : 1 <= step < 2 ^ 63)
    (Hstart : 0 <= start < getSequenceLength sequence)
    (Hlength : 0 <= length)
    (Hrange : start + length <= getSequenceLength sequence)
    (Hoff : 0 <= getStartPosition sequence)
    (Hidx : getStartPosition sequence + getSequenceLength sequence < 2 ^ 63)
    (Hfuel : getSequenceLength sequence + 2 <= Z.of_nat fuel)
    (Hpresent : reference_present (src sequence targetSet noAncestors) sequence) :
  let cols := src sequence targetSet noAncestors in
  let len := if decide (length = 0) then getSequenceLength sequence - start
             else length in
  let first := getStartPosition sequence + start in
  let bound := if decide (step = 1 \/ len = 1) then first + len - 1 else first + len in
  printSequence fuel src out sequence targetSet start length step
    countDupes noAncestors
  = (emit_all cols sequence (grid first step bound)
       (emit_header out (getName sequence) (start + 1) step), Returned).
Proof.
  intros cols len first bound.
  rewrite printSequence_as_loop by lia. fold len. fold cols.
  set (off := getStartPosition sequence) in *.
  assert (Hlen : 1 <= len /\ start + len <= getSequenceLength sequence).
  { subst len. destruct (decide (length = 0)); lia. }
  replace (start + off) with first by (subst first; lia).
  destruct (decide (step = 1)) as [Hone|Hmany].
  - (* [toRight]: the iterator keeps its bound *)
    subst bound. rewrite decide_True by (left; exact Hone).
    apply scan_loop_exact; cbn [ci_index ci_lastIndex]; subst first; try lia.
    exact Hpresent.
  - (* the first column, then [toSite] with the larger bound *)
    destruct fuel as [|fuel]; [lia|]. cbn [scan_loop].
    destruct (decide (first <= start + len + off)) as [_|Hn]; [|subst first; lia].
    unfold getColumnMap. cbn [ci_index].
    rewrite (scan_column_counters_at cols sequence Hpresent).
    unfold lastColumn. cbn [ci_index ci_lastIndex].
    destruct (decide (len = 1)) as [Hl1|Hl1].
    + subst bound. rewrite decide_True by (right; exact Hl1).
      rewrite bool_decide_eq_true_2 by (subst first; lia).
      rewrite grid_cons by lia. rewrite grid_nil by lia. reflexivity.
    + subst bound. rewrite decide_False by tauto.
      rewrite bool_decide_eq_false_2 by (subst first; lia).
      rewrite (grid_cons first) by lia. rewrite emit_all_cons.
      rewrite (wrap64_small (first + step)) by (subst first; lia).
      apply scan_loop_exact; try exact Hpresent; try lia; subst first.
      * unfold advance. rewrite decide_False by exact Hmany.
        cbn [toSite ci_lastIndex]. rewrite as_index_small by lia. lia.
      * intros Hle. unfold advance. rewrite decide_False by exact Hmany.
        cbn [toSite ci_index]. apply as_index_small. lia.
Qed.




Section Tiling.
Variable src : ColumnSource.
Variable targetSet : gset GenomePtr.
Variables countDupes noAncestors : bool.
Variables start len : Z.
Variable fuel : nat.
Hypothesis Hstart : 0 <= start.
Hypothesis Hlen : 0 <= len.
Hypothesis Hbig : start + len < 2 ^ 63.




End Tiling.




Example printGenome_two_sequences :
  printGenome 30 self_source no_tracks genome12 None ∅ 8 4 1 false false
  = ({| outStreamNIdentical :=
          [FixedStep "chr1" 9 1; Value 0; Value 0; FixedStep "chr2" 1 1; Value 0; Value 0];
        outStreamNAligned :=
          [FixedStep "chr1" 9 1; Value 0; Value 0; FixedStep "chr2" 1 1; Value 0; Value 0] |},
     Returned).
Proof. vm_compute. reflexivity. Qed.

(** X3: for a genome of one sequence of non-zero length that starts at
    0 and a request whose [start + length] is below [2^64],
    [printGenome] without a reference sequence does what it does with
    that sequence as the reference, range errors included, for every
    step, unless the length is 0 and the start is not before the end of
    the sequence. *)
Theorem printGenome_single_sequence fuel src out genome s targetSet
    start length step countDupes noAncestors
    (Hone : genomeSequences genome = [s])
    (Hzero : getStartPosition s = 0)
    (Htotal : genomeLength genome = getSequenceLength s)
    (Hsize : 0 < getSequenceLength s < 2 ^ 64)
    (Hstart : 0 <= start) (Hlength : 0 <= length)
    (Hfit : start + length < 2 ^ 64)
    (Hrest : length = 0 -> start < getSequenceLength s) :
  printGenome fuel src out genome None targetSet start length step
    countDupes noAncestors
  = printGenome fuel src out genome (Some s) targetSet start length step
      countDupes noAncestors.
Proof.
  cbn [printGenome]. rewrite Hone, Htotal. set (G := getSequenceLength s) in *.
  rewrite (wrap64_small (start + length)) by lia.
  destruct (decide (start + length > G)) as [Hout|Hin].
  - (* both checks fire *)
    unfold printSequence. fold G. rewrite decide_False by lia.
    rewrite (decide_False (P := length = 0)) by lia.
    rewrite (wrap64_small (start + length)) by lia.
    rewrite decide_True by exact Hout. reflexivity.
  - set (len := if decide (length = 0) then wrap64 (G - start) else length).
    assert (Hlen : len = if decide (length = 0) then G - start else length).
    { subst len. destruct (decide (length = 0)); [apply wrap64_small; lia|reflexivity]. }
    assert (Hpos : 1 <= len /\ start + len <= G).
    { rewrite Hlen. destruct (decide (length = 0)); lia. }
    cbn [printGenome_loop]. rewrite Hzero. fold G.
    rewrite (wrap64_small 0), (wrap64_small (start + len)), (wrap64_small (0 + G))
      by lia.
    rewrite decide_True by lia.
    assert (Hrs : (if decide (0 >= start) then 0 else wrap64 (start - 0)) = start).
    { destruct (decide (0 >= start)); [lia|]. rewrite wrap64_small; lia. }
    rewrite Hrs.
    rewrite (wrap64_small (G - start)), (wrap64_small (len - 0)) by lia.
    replace (Z.min (Z.min (G - start) len) (len - 0)) with len by lia.
    assert (Hsame : printSequence fuel src out s targetSet start len step
                      countDupes noAncestors
                    = printSequence fuel src out s targetSet start length step
                        countDupes noAncestors).
    { unfold printSequence. fold G. destruct (decide (G = 0)); [reflexivity|].
      rewrite (decide_False (P := len = 0)) by lia.
      replace (if decide (length = 0) then wrap64 (G - start) else length) with len
        by reflexivity.
      reflexivity. }
    rewrite Hsame.
    destruct (printSequence fuel src out s targetSet start length step
                countDupes noAncestors) as [o [| | | |]]; reflexivity.
Qed.

Lemma printGenome_single_sequence_witness :
  printGenome 20 own_source no_tracks genome_chr1 None ∅ 2 0 3 false false
  = printGenome 20 own_source no_tracks genome_chr1 (Some chr1) ∅ 2 0 3 false false.
Proof.
  apply (printGenome_single_sequence 20 own_source no_tracks genome_chr1 chr1 ∅ 2 0 3
           false false); simpl; try reflexivity; lia.
Defined.

(** At the end of the sequence the two paths part. *)
Example printGenome_at_end_of_sequence :
  printGenome 20 own_source no_tracks genome_chr1 None ∅ 10 0 1 false false
  = (no_tracks, Returned)
  /\ printGenome 20 own_source no_tracks genome_chr1 (Some chr1) ∅ 10 0 1 false false
     = ({| outStreamNIdentical := [FixedStep "chr1" 11 1; Value 0];
           outStreamNAligned := [FixedStep "chr1" 11 1; Value 0] |}, Returned).
Proof. vm_compute. split; reflexivity. Qed.

Section StepZero.
Variable cols : Z -> ColumnMap.
Variable sequence : Sequence.
Variable last : Z.
Hypothesis Hlast : 0 <= last < 2 ^ 63.
Hypothesis Hpresent : reference_present cols sequence.

Lemma emit_all_replicate_snoc n p out :
  emit_all cols sequence (replicate n p) (emit out (counters_at cols sequence p))
  = emit_all cols sequence (replicate (S n) p) out.
Proof. reflexivity. Qed.


End StepZero.



Lemma printSequence_writes_grid_witness :
  printSequence 20 own_source no_tracks chr1 ∅ 0 4 2 false false
  = (emit_all (own_source chr1 ∅ false) chr1 (grid (0 + 0) 2 (0 + 0 + 4))
       (emit_header no_tracks "chr1" (0 + 1) 2), Returned).
Proof.
  apply (printSequence_writes_grid 20 own_source no_tracks chr1 ∅ 0 4 2 false false);
    simpl; try lia.
  apply own_source_present.
Defined.

(** ** What the counts of a column say *)

(** Every genome with a non-empty entry is counted, or is the genome
    counted last. *)
Lemma counted_covers cmap : forall lg x,
  x ∈ nonempty_genomes cmap ->
  x ∈ ((fun e => getGenome e.1) <$> counted lg cmap) \/ lg = Some x.
Proof.
  induction cmap as [|[s [|b bs]] rest IH]; intros lg x Hx.
  - inversion Hx.
  - rewrite nonempty_genomes_cons_empty in Hx. cbn [counted fst snd]. apply IH, Hx.
  - rewrite nonempty_genomes_cons in Hx. cbn [counted fst snd].
    destruct (decide (Some (getGenome s) = lg)) as [Heq|Hne].
    + apply elem_of_cons in Hx as [->|Hx]; [right; congruence|apply IH, Hx].
    + left. rewrite fmap_cons. cbn [fst].
      apply elem_of_cons in Hx as [->|Hx]; [left|].
      destruct (IH (Some (getGenome s)) x Hx) as [Hin|Heq]; [right; exact Hin|].
      injection Heq as ->. left.
Qed.

Lemma column_at_entry cmap s bases :
  column_at cmap s = Some bases -> (s, bases) ∈ cmap.
Proof.
  unfold column_at. induction cmap as [|[s' bs'] rest IH]; cbn [List.find fst];
    [discriminate|].
  destruct (bool_decide (s' = s)) eqn:Hd.
  - apply bool_decide_eq_true in Hd as ->. cbn. intros Heq. injection Heq as ->. left.
  - intros Hrest. right. apply IH, Hrest.
Qed.

Lemma nonempty_genomes_entry cmap s b bs :
  (s, b :: bs) ∈ cmap -> getGenome s ∈ nonempty_genomes cmap.
Proof.
  intros Hin. unfold nonempty_genomes.
  apply list_elem_of_fmap. exists (s, b :: bs). split; [reflexivity|].
  apply list_elem_of_filter. split; [discriminate|exact Hin].
Qed.

(** X5: in a column in which equal genomes are adjacent, the aligned
    count written for the column is the number of genomes, other than
    the genome of the scanned sequence, that have a non-empty entry in
    the column. *)
Theorem aligned_depth_counts_other_genomes (cmap : ColumnMap) (sequence : Sequence)
    (c : Counters)
    (Hscan : scan_column cmap sequence = inr c)
    (Hadj : contiguous (nonempty_genomes cmap))
    (Hsize : Z.of_nat (List.length cmap) < 2 ^ 64) :
  n_aligned c = Z.of_nat (size (aligned_genomes cmap ∖ {[getGenome sequence]})).
Proof.
  unfold scan_column in Hscan.
  destruct (column_at cmap sequence) as [[|b bs]|] eqn:Hat; try discriminate Hscan.
  injection Hscan as <-.
  destruct (count_column_values (tolower b) cmap) as [-> _].
  destruct (counted_grouped cmap None) as [Hnd Hsub].
  { apply contiguous_grouped, Hadj. }
  { intros g0 Hg0. discriminate Hg0. }
  assert (Hset : aligned_genomes cmap
                 = list_to_set ((fun e => getGenome e.1) <$> counted None cmap)).
  { unfold aligned_genomes. apply set_eq. intros x.
    rewrite !elem_of_list_to_set. split.
    - intros Hx. destruct (counted_covers cmap None x Hx) as [Hin|Heq];
        [exact Hin|discriminate Heq].
    - intros Hx. apply Hsub, Hx. }
  assert (Hsz : size (aligned_genomes cmap) = List.length (counted None cmap)).
  { rewrite Hset, size_list_to_set by exact Hnd. apply length_fmap. }
  assert (Href : getGenome sequence ∈ aligned_genomes cmap).
  { unfold aligned_genomes. apply elem_of_list_to_set.
    eapply nonempty_genomes_entry, column_at_entry, Hat. }
  assert (Hdiff : size (aligned_genomes cmap)
                  = S (size (aligned_genomes cmap ∖ {[getGenome sequence]}))).
  { assert (Hsub1 : ({[getGenome sequence]} : gset GenomePtr) ⊆ aligned_genomes cmap)
      by (apply singleton_subseteq_l, Href).
    pose proof (size_difference _ _ Hsub1) as Hd.
    pose proof (subseteq_size _ _ Hsub1) as Hle.
    rewrite size_singleton in Hd, Hle. lia. }
  pose proof (counted_length None cmap) as Hlen.
  rewrite <- Hsz, Hdiff. rewrite wrap64_small by lia. lia.
Qed.

(** X6: where the reference base is an ASCII character and no entry
    of the genome of the scanned sequence comes before the entry of the
    scanned sequence, the identical count written for a column is
    between 0 and the aligned count, and the aligned count is below the
    number of entries: no value is the result of a wrap. *)
Theorem identical_depth_within_aligned (pre post : ColumnMap) (sequence : Sequence)
    (b : ascii) (bs : DNASet)
    (Hascii : ascii_base b)
    (Hfirst : forall e, e ∈ pre -> getGenome e.1 <> getGenome sequence)
    (Hsize : Z.of_nat (List.length (pre ++ (sequence, b :: bs) :: post)) < 2 ^ 64) :
  let cmap := pre ++ (sequence, b :: bs) :: post in
  exists c, scan_column cmap sequence = inr c
    /\ 0 <= n_identical c <= n_aligned c
    /\ n_aligned c < Z.of_nat (List.length cmap).
Proof.
  intros cmap. unfold scan_column.
  assert (Hat : column_at cmap sequence = Some (b :: bs)).
  { apply column_at_first. intros e He Heq. apply (Hfirst e He).
    rewrite Heq. reflexivity. }
  rewrite Hat.
  eexists. split; [reflexivity|].
  destruct (count_column_values (tolower b) cmap) as [-> ->].
  pose proof (counted_length None cmap) as Hlen.
  pose proof (length_filter (identical_entry (tolower b)) (counted None cmap)) as Hfl.
  assert (Hin : (sequence, b :: bs)
                ∈ filter (identical_entry (tolower b)) (counted None cmap)).
  { apply list_elem_of_filter. split.
    - unfold identical_entry. cbn [snd head fmap option_fmap option_map].
      rewrite tolower_int_ascii by exact Hascii. reflexivity.
    - apply counted_first; [discriminate|discriminate|exact Hfirst]. }
  assert (Hpos : (1 <= List.length (filter (identical_entry (tolower b))
                                     (counted None cmap)))%nat).
  { destruct (filter _ _) as [|x l]; [inversion Hin|cbn; lia]. }
  fold cmap in Hsize. rewrite !wrap64_small by lia. lia.
Qed.

Lemma count_entry_up_to_case t c e e' :
  e.1 = e'.1 -> tolower <$> e.2 = tolower <$> e'.2 ->
  count_entry t c e = count_entry t c e'.
Proof.
  destruct e as [s [|b bs]], e' as [s' [|b' bs']]; cbn; intros -> Hb;
    try discriminate Hb; [reflexivity|].
  injection Hb as Hb _. unfold count_entry. cbn [fst snd].
  rewrite <- (tolower_int_tolower b), Hb, tolower_int_tolower. reflexivity.
Qed.

Lemma column_at_up_to_case cmap cmap' sequence :
  same_up_to_case cmap cmap' ->
  (fun bases : DNASet => tolower <$> bases) <$> column_at cmap sequence
  = (fun bases : DNASet => tolower <$> bases) <$> column_at cmap' sequence.
Proof.
  unfold column_at. induction 1 as [|[s bs] [s' bs'] l l' [Hs Hb] _ IH]; [reflexivity|].
  cbn [fst snd] in Hs, Hb. subst s'. cbn [List.find fst].
  destruct (bool_decide (s = sequence)); [|exact IH].
  change (Some (tolower <$> bs) = Some (tolower <$> bs')). rewrite Hb. reflexivity.
Qed.

Lemma fold_count_up_to_case t cmap cmap' :
  same_up_to_case cmap cmap' ->
  forall c, fold_left (count_entry t) cmap c = fold_left (count_entry t) cmap' c.
Proof.
  induction 1 as [|e e' l l' [Hs Hb] _ IH]; intros c; [reflexivity|].
  cbn [fold_left]. rewrite (count_entry_up_to_case t c e e' Hs Hb). apply IH.
Qed.

(** X7: the counts of a column do not depend on the case of the bases:
    two columns with the same sequences and, up to case, the same bases
    give the same result. *)
Theorem depth_is_case_insensitive (cmap cmap' : ColumnMap) (sequence : Sequence)
    (Hsame : same_up_to_case cmap cmap') :
  scan_column cmap sequence = scan_column cmap' sequence.
Proof.
  pose proof (column_at_up_to_case cmap cmap' sequence Hsame) as Hat.
  unfold scan_column, count_column.
  destruct (column_at cmap sequence) as [[|b bs]|],
           (column_at cmap' sequence) as [[|b' bs']|]; cbn in Hat;
    try discriminate Hat; try reflexivity.
  injection Hat as Hb _. rewrite Hb. f_equal. apply fold_count_up_to_case, Hsame.
Qed.

Lemma aligned_depth_counts_other_genomes_witness :
  n_aligned {| last_genome := Some 3%nat; n_identical := 1; n_aligned := 2 |}
  = Z.of_nat (size (aligned_genomes grouped_column ∖ {[getGenome chr1]})).
Proof.
  apply (aligned_depth_counts_other_genomes grouped_column chr1).
  - vm_compute. reflexivity.
  - exact grouped_column_contiguous.
  - vm_compute. reflexivity.
Defined.

Lemma identical_depth_within_aligned_witness :
  exists c, scan_column ([] ++ (chr1, ["A"%char]) :: [(chrX, ["C"%char])]) chr1 = inr c
    /\ 0 <= n_identical c <= n_aligned c
    /\ n_aligned c
       < Z.of_nat (List.length ([] ++ (chr1, ["A"%char]) :: [(chrX, ["C"%char])])).
Proof.
  apply (identical_depth_within_aligned [] [(chrX, ["C"%char])] chr1 "A"%char []).
  - reflexivity.
  - intros e He. inversion He.
  - vm_compute. reflexivity.
Defined.

Lemma depth_is_case_insensitive_witness :
  scan_column [(chr1, ["A"%char]); (chrX, ["a"%char])] chr1
  = scan_column [(chr1, ["a"%char]); (chrX, ["A"%char])] chr1.
Proof.
  apply (depth_is_case_insensitive [(chr1, ["A"%char]); (chrX, ["a"%char])]
           [(chr1, ["a"%char]); (chrX, ["A"%char])] chr1).
  repeat constructor.
Defined.

(** ** The two tracks *)

Lemma in_step_emit out c : in_step out -> in_step (emit out c).
Proof.
  unfold in_step, emit, line_kinds. cbn. rewrite !fmap_app. intros ->. reflexivity.
Qed.

Lemma in_step_emit_header out chrom start step :
  in_step out -> in_step (emit_header out chrom start step).
Proof.
  unfold in_step, emit_header, line_kinds. cbn. rewrite !fmap_app. intros ->. reflexivity.
Qed.

Lemma in_step_scan_loop cols sequence step last fuel : forall pos colIt out,
  in_step out -> in_step (scan_loop fuel cols sequence step last pos colIt out).1.
Proof.
  induction fuel as [|fuel IH]; intros pos colIt out Hout; cbn [scan_loop]; [exact Hout|].
  destruct (decide (pos <= last)); [|exact Hout].
  destruct (scan_column _ _) as [st|c]; [exact Hout|].
  destruct (lastColumn colIt); [apply in_step_emit, Hout|].
  apply IH, in_step_emit, Hout.
Qed.

Lemma in_step_printSequence fuel src out s targetSet start length step cd na :
  in_step out ->
  in_step (printSequence fuel src out s targetSet start length step cd na).1.
Proof.
  intros Hout. unfold printSequence.
  destruct (decide (getSequenceLength s = 0)); [exact Hout|].
  destruct (decide (_ > _)); [exact Hout|].
  apply in_step_scan_loop, in_step_emit_header, Hout.
Qed.

Lemma in_step_printGenome_loop fuel src targetSet start length step cd na seqs :
  forall r out, in_step out ->
  in_step (printGenome_loop fuel src targetSet start length step cd na seqs r out).1.
Proof.
  induction seqs as [|s rest IH]; intros r out Hout; cbn [printGenome_loop];
    [exact Hout|].
  destruct (decide _); [|apply IH, Hout].
  pose proof (in_step_printSequence fuel src out s targetSet
                (if decide (wrap64 (getStartPosition s) >= start) then 0
                 else wrap64 (start - wrap64 (getStartPosition s)))
                (Z.min (Z.min (wrap64 (getSequenceLength s
                     - (if decide (wrap64 (getStartPosition s) >= start) then 0
                        else wrap64 (start - wrap64 (getStartPosition s))))) length)
                   (wrap64 (length - r))) step cd na Hout) as Hps.
  destruct (printSequence _ _ _ _ _ _ _ _ _ _) as [o' [| | | |]]; cbn [fst] in *;
    try exact Hps.
  apply IH, Hps.
Qed.

(** X8: whatever the arguments and however the scan ends, the two
    tracks stay in step: when they have their headers and values at
    the same lines before [printGenome], they have them at the same
    lines after it, with the same fields in the headers. *)
Theorem tracks_stay_in_step fuel src out genome sequence targetSet
    start length step countDupes noAncestors (Hout : in_step out) :
  in_step (printGenome fuel src out genome sequence targetSet start length step
             countDupes noAncestors).1.
Proof.
  unfold printGenome. destruct sequence as [s|].
  - apply in_step_printSequence, Hout.
  - destruct (decide _); [exact Hout|]. apply in_step_printGenome_loop, Hout.
Qed.

Lemma tracks_stay_in_step_witness :
  in_step (printGenome 30 self_source no_tracks genome12 None ∅ 8 4 1 false false).1.
Proof.
  apply (tracks_stay_in_step 30 self_source no_tracks genome12 None ∅ 8 4 1 false false).
  reflexivity.
Defined.

End IdentityFacts.

(** * Properties of the alignment store *)

Module StoreFacts.
Import Store.

(** ** Running a member function on a symbolic state *)

Lemma bind_Ok {A B} (m : M A) (f : A -> M B) w a w1 :
  m w = (Ok a, w1) -> bind m f w = f a w1.
Proof. intros Hm. unfold bind. rewrite Hm. reflexivity. Qed.

Lemma map_insert_new_None {V} (k : string) (v : V) (m : gmap string V) :
  m !! k = None -> map_insert_new k v m = <[k := v]> m.
Proof. intros Hk. unfold map_insert_new. rewrite Hk. reflexivity. Qed.

Lemma map_insert_new_Some {V} (k : string) (v v0 : V) (m : gmap string V) :
  m !! k = Some v0 -> map_insert_new k v m = m.
Proof. intros Hk. unfold map_insert_new. rewrite Hk. reflexivity. Qed.

Ltac unfold_heap :=
  unfold stTree_construct, stTree_setLabel, stTree_setParent,
    stTree_setBranchLength, stTree_getLabel, stTree_getParent,
    stTree_getBranchLength, stTree_getChildren, tree_load, tree_store,
    HDF5Genome_new, HDF5Genome_read, HDF5Genome_write, HDF5Genome_delete,
    treeMeta_set, metaData_write, alloc_genome, genome_load, the_file, put_file,
    throw, fault, assert, modify, get, gets, ret, bind.

Ltac simp_lookup :=
  repeat (progress (rewrite ?lookup_insert_eq, ?lookup_delete_eq;
                    try rewrite lookup_insert_ne by (congruence || lia);
                    try rewrite lookup_delete_ne by (congruence || lia);
                    cbn)).

(** ** Adding a leaf *)

(** The cases of [addLeafGenome]: it fails with [InvalidArgumentError]
    when the name or the name of the parent is empty, otherwise with
    [DuplicateNameError] when the name is in the node map, otherwise
    with [NotFoundError] when the name of the parent is not; in these
    cases the state is as before.  Otherwise, with the node of the
    parent live, it makes a node with the name as a C string for its
    label, the parent and the branch length, appends it to the children
    of the parent, puts a new genome object with an empty payload into
    the cache without reading the container, which has to be open, sets
    the dirty flag and returns that object. *)
Theorem addLeafGenome_cases (name parentName : string) (bl : float) (w : World) :
  (name = "" \/ parentName = "" ->
     addLeafGenome name parentName bl w = (Throw InvalidArgumentError, w))
  /\ (name <> "" -> parentName <> "" -> is_Some (_nodeMap (self w) !! name) ->
      addLeafGenome name parentName bl w = (Throw DuplicateNameError, w))
  /\ (name <> "" -> parentName <> "" -> _nodeMap (self w) !! name = None ->
      _nodeMap (self w) !! parentName = None ->
      addLeafGenome name parentName bl w = (Throw NotFoundError, w))
  /\ (forall parent pn,
      name <> "" -> parentName <> "" -> _nodeMap (self w) !! name = None ->
      _nodeMap (self w) !! parentName = Some parent ->
      trees w !! parent = Some pn -> parent <> nextTree w ->
      _openGenomes (self w) !! name = None -> is_Some (_file (self w)) ->
      exists w',
        addLeafGenome name parentName bl w = (Ok (nextGenome w), w')
        /\ trees w' !! nextTree w
           = Some (mkTree (Some (c_str name)) bl (Some parent) [])
        /\ trees w' !! parent
           = Some (mkTree (label pn) (branchLength pn) (Store.parent pn)
                     (nodes pn ++ [nextTree w]))
        /\ (forall q, q <> nextTree w -> q <> parent -> trees w' !! q = trees w !! q)
        /\ _nodeMap (self w') = <[name := nextTree w]> (_nodeMap (self w))
        /\ genomes w' = <[nextGenome w := mkGenome name ""]> (genomes w)
        /\ _openGenomes (self w') = <[name := nextGenome w]> (_openGenomes (self w))
        /\ _dirty (self w') = true
        /\ _tree (self w') = _tree (self w)
        /\ _file (self w') = _file (self w)
        /\ ioLog w' = ioLog w).
Proof.
  split; [|split; [|split]].
  - intros Hempty. unfold addLeafGenome. destruct (decide _); [reflexivity|contradiction].
  - intros Hn Hp [p Hin]. unfold addLeafGenome.
    destruct (decide _) as [[?|?]|_]; [contradiction..|].
    unfold bind, get. rewrite Hin. reflexivity.
  - intros Hn Hp Hname Hparent. unfold addLeafGenome.
    destruct (decide _) as [[?|?]|_]; [contradiction..|].
    unfold bind, get. rewrite Hname, Hparent. reflexivity.
  - intros parent pn Hn Hp Hname Hparent Hlive Hfresh Hcache [f Hf].
    unfold addLeafGenome.
    destruct (decide _) as [[?|?]|_]; [contradiction..|].
    unfold bind at 1. unfold get. rewrite Hname, Hparent.
    unfold_heap. cbn. repeat (simp_lookup; rewrite ?Hlive, ?Hf).
    eexists. split; [reflexivity|]. cbn.
    rewrite !map_insert_new_None by assumption.
    repeat split; try reflexivity.
    + simp_lookup. reflexivity.
    + simp_lookup. reflexivity.
    + intros q Hq1 Hq2. simp_lookup. reflexivity.
    + exact Hf.
Qed.

Example addLeafGenome_on_world_A :
  exists w',
    addLeafGenome "B" "A" 2%float world_A = (Ok 2%nat, w')
    /\ trees w' !! 2%nat = Some (mkTree (Some "B") 2%float (Some 1%nat) [])
    /\ trees w' !! 1%nat = Some (mkTree (Some "A") infinity None [2%nat])
    /\ _nodeMap (self w') !! "B" = Some 2%nat
    /\ genomes w' !! 2%nat = Some (mkGenome "B" "")
    /\ _openGenomes (self w') !! "B" = Some 2%nat
    /\ _dirty (self w') = true.
Proof.
  destruct (addLeafGenome_cases "B" "A" 2%float world_A) as (_ & _ & _ & Hok).
  destruct (Hok 1%nat (mkTree (Some "A") infinity None []))
    as (w' & Hrun & Hnode & Hparent & _ & Hmap & Hgen & Hcache & Hdirty & _);
    try (vm_compute; congruence).
  { eexists. vm_compute. reflexivity. }
  exists w'. split; [exact Hrun|]. split; [exact Hnode|]. split; [exact Hparent|].
  rewrite Hmap, Hgen, Hcache.
  repeat split; try exact Hdirty; apply lookup_insert_eq.
Qed.

(** C6 on a store that was closed and made anew: the node map still
    holds the name "A" of the closed alignment with its freed node (the
    defect of [close], C3).  The new alignment has no node, so that
    [addLeafGenome("B", "A", 2.0)] is to fail with [NotFoundError]; the
    code finds "A" in the node map and appends the new node to the
    children of the freed one.  On a store that has only held the new
    alignment the same call throws [NotFoundError]. *)
Lemma addLeafGenome_stale_parent :
  let w := (session_AB world0).2 in
  (session_AB world0).1 = Ok tt
  /\ _file (self w) = Some (mkFile "b.hal" ∅ ∅ ∅)
  /\ _tree (self w) = None
  /\ _nodeMap (self w) !! "A" = Some 1%nat
  /\ trees w !! 1%nat = None
  /\ (addLeafGenome "B" "A" 2%float w).1 = Fault
  /\ _file (self world_b) = Some (mkFile "b.hal" ∅ ∅ ∅)
  /\ _tree (self world_b) = None
  /\ addLeafGenome "B" "A" 2%float world_b = (Throw NotFoundError, world_b).
Proof. vm_compute. repeat split; reflexivity. Qed.

(** ** Opening and closing a genome *)

(** The cases of [openGenome]: it throws for no name.  A cached name
    gives the cached object and leaves the state, the log of the
    container included, as it is; so two calls in a row give the same
    object.  A name that is not cached and is in the node map gives, on
    an open container, a new object with the payload read from the
    container, which is cached.  A name that is neither cached nor in
    the node map gives NULL and changes nothing.  After [closeGenome],
    which writes the payload back and frees the object, [openGenome]
    makes a new object and reads the payload from the container
    again. *)
Theorem openGenome_cases (name : string) (w : World) :
  (forall e, (openGenome name w).1 <> Throw e)
  /\ (forall g, _openGenomes (self w) !! name = Some g ->
        openGenome name w = (Ok (Some g), w))
  /\ (forall g w1, openGenome name w = (Ok (Some g), w1) ->
        openGenome name w1 = (Ok (Some g), w1))
  /\ (_openGenomes (self w) !! name = None -> _nodeMap (self w) !! name = None ->
        openGenome name w = (Ok None, w))
  /\ (forall f, _openGenomes (self w) !! name = None ->
        is_Some (_nodeMap (self w) !! name) -> _file (self w) = Some f ->
        exists w',
          openGenome name w = (Ok (Some (nextGenome w)), w')
          /\ genomes w' !! nextGenome w
             = Some (mkGenome name (default "" (genomeGroups f !! name)))
          /\ _openGenomes (self w') = <[name := nextGenome w]> (_openGenomes (self w))
          /\ ioLog w' = ioLog w ++ [ReadGenome name])
  /\ (forall g o f, _openGenomes (self w) !! name = Some g ->
        genomes w !! g = Some o -> genomeName o = name ->
        is_Some (_nodeMap (self w) !! name) -> _file (self w) = Some f ->
        g <> nextGenome w ->
        exists w1 w2,
          closeGenome g w = (Ok tt, w1)
          /\ _openGenomes (self w1) !! name = None
          /\ genomes w1 !! g = None
          /\ openGenome name w1 = (Ok (Some (nextGenome w)), w2)
          /\ genomes w2 !! nextGenome w = Some (mkGenome name (genomePayload o))
          /\ _openGenomes (self w2) !! name = Some (nextGenome w)
          /\ ioLog w2 = ioLog w ++ [WriteGenome name; ReadGenome name]).
Proof.
  split; [|split; [|split; [|split; [|split]]]].
  - intros e. unfold openGenome. unfold bind at 1. unfold get.
    destruct (_openGenomes (self w) !! name) as [g|]; [discriminate|].
    destruct (_nodeMap (self w) !! name) as [p|]; [|discriminate].
    unfold_heap. cbn.
    destruct (_file (self w)) eqn:Hf; cbn; simp_lookup; rewrite ?Hf; cbn;
      discriminate.
  - intros g Hg. unfold openGenome, bind, get. rewrite Hg. reflexivity.
  - intros g w1 Hrun.
    assert (Hcached : _openGenomes (self w1) !! name = Some g).
    { revert Hrun. unfold openGenome. unfold bind at 1. unfold get.
      destruct (_openGenomes (self w) !! name) as [g0|] eqn:Hc.
      - intros Heq. inversion Heq; subst. exact Hc.
      - destruct (_nodeMap (self w) !! name) as [p|]; [|discriminate].
        unfold_heap. cbn.
        destruct (_file (self w)) eqn:Hf; cbn; simp_lookup; rewrite ?Hf; cbn;
          [|discriminate].
        intros Heq. inversion Heq; subst. cbn.
        rewrite map_insert_new_None by exact Hc. simp_lookup. reflexivity. }
    unfold openGenome, bind, get. rewrite Hcached. reflexivity.
  - intros Hc Hn. unfold openGenome, bind, get. rewrite Hc, Hn. reflexivity.
  - intros f Hc [p Hn] Hf. unfold openGenome. unfold bind at 1. unfold get.
    rewrite Hc, Hn. unfold_heap. cbn. repeat (simp_lookup; rewrite ?Hf).
    eexists. split; [reflexivity|]. cbn. simp_lookup.
    rewrite map_insert_new_None by exact Hc. repeat split; reflexivity.
  - intros g o f Hc Hg Hname [p Hn] Hf Hfresh.
    unfold closeGenome, openGenome. unfold_heap. cbn.
    rewrite Hg. cbn. rewrite Hname, Hc. cbn. rewrite Hg, Hf. cbn.
    rewrite Hname. simp_lookup.
    do 2 eexists. split; [reflexivity|]. cbn. simp_lookup.
    split; [reflexivity|]. split; [reflexivity|].
    rewrite Hn. cbn. repeat (simp_lookup; rewrite ?Hf).
    split; [reflexivity|]. cbn. simp_lookup.
    rewrite map_insert_new_None by apply lookup_delete_eq. simp_lookup.
    rewrite <- app_assoc. repeat split; reflexivity.
Qed.

Example openGenome_on_world_A :
  openGenome "A" world_A = (Ok (Some 1%nat), world_A)
  /\ exists w1 w2,
       closeGenome 1%nat world_A = (Ok tt, w1)
       /\ _openGenomes (self w1) !! "A" = None
       /\ genomes w1 !! 1%nat = None
       /\ openGenome "A" w1 = (Ok (Some 2%nat), w2)
       /\ genomes w2 !! 2%nat = Some (mkGenome "A" "")
       /\ _openGenomes (self w2) !! "A" = Some 2%nat
       /\ ioLog w2 = [] ++ [WriteGenome "A"; ReadGenome "A"].
Proof.
  destruct (openGenome_cases "A" world_A) as (_ & Hcached & _ & _ & _ & Hreopen).
  split.
  - apply Hcached. vm_compute. reflexivity.
  - apply (Hreopen 1%nat (mkGenome "A"%string ""%string)
             (mkFile "a.hal"%string ∅ ∅ ∅));
      try (vm_compute; congruence).
    exists 1%nat. vm_compute. reflexivity.
Qed.

(** C7 on a store that was closed: the node map still holds the name
    "A" of the closed alignment (the defect of [close], C3).  The store
    has no tree, so that [openGenome("A")] is to return NULL; the code
    finds "A" in the node map and makes a genome object over the
    container, which is NULL.  After [createNew("b.hal")] on the same
    object the new alignment has no node either, and [openGenome("A")]
    makes a genome "A", reads it from the new container and caches it.
    On a store as constructed, and on a store that has only held the
    new alignment, the same call returns NULL. *)
Lemma openGenome_stale_name :
  let w := (session_A world0).2 in
  let w2 := (session_AB world0).2 in
  (session_A world0).1 = Ok tt
  /\ _file (self w) = None
  /\ _tree (self w) = None
  /\ _nodeMap (self w) !! "A" = Some 1%nat
  /\ (openGenome "A" w).1 = Fault
  /\ (session_AB world0).1 = Ok tt
  /\ _tree (self w2) = None
  /\ (openGenome "A" w2).1 = Ok (Some 2%nat)
  /\ genomes (openGenome "A" w2).2 !! 2%nat = Some (mkGenome "A" "")
  /\ _openGenomes (self (openGenome "A" w2).2) !! "A" = Some 2%nat
  /\ last (ioLog (openGenome "A" w2).2) = Some (ReadGenome "A")
  /\ openGenome "A" world0 = (Ok None, world0)
  /\ openGenome "A" world_b = (Ok None, world_b).
Proof. vm_compute. repeat split; reflexivity. Qed.

(** ** Adding a root *)

(** On a store without a tree the new node is the root and has no
    child. *)
Lemma addRootGenome_on_null_tree (name : string) (bl : float) (w : World) :
  name <> "" -> _nodeMap (self w) !! name = None -> _tree (self w) = None ->
  _openGenomes (self w) !! name = None -> is_Some (_file (self w)) ->
  exists w',
    addRootGenome name bl w = (Ok (nextGenome w), w')
    /\ _tree (self w') = Some (nextTree w)
    /\ trees w' !! nextTree w = Some (mkTree (Some (c_str name)) infinity None [])
    /\ (forall q, q <> nextTree w -> trees w' !! q = trees w !! q)
    /\ _nodeMap (self w') = <[name := nextTree w]> (_nodeMap (self w))
    /\ _openGenomes (self w') = <[name := nextGenome w]> (_openGenomes (self w))
    /\ _dirty (self w') = true.
Proof.
  intros Hn Hname Htree Hcache [f Hf]. unfold addRootGenome.
  destruct (decide _); [contradiction|].
  unfold bind at 1. unfold get. rewrite Hname, Htree.
  unfold_heap. cbn. repeat (simp_lookup; rewrite ?Hf).
  eexists. split; [reflexivity|]. cbn. simp_lookup.
  rewrite !map_insert_new_None by assumption.
  repeat split; try reflexivity. intros q Hq. simp_lookup. reflexivity.
Qed.

(** On a store with a tree the new node is the root, the former root is
    its only child and carries the branch length. *)
Lemma addRootGenome_on_root (name : string) (bl : float) (w : World) root rn :
  name <> "" -> _nodeMap (self w) !! name = None ->
  _tree (self w) = Some root -> trees w !! root = Some rn -> parent rn = None ->
  root <> nextTree w -> _openGenomes (self w) !! name = None ->
  is_Some (_file (self w)) ->
  exists w',
    addRootGenome name bl w = (Ok (nextGenome w), w')
    /\ _tree (self w') = Some (nextTree w)
    /\ trees w' !! nextTree w = Some (mkTree (Some (c_str name)) infinity None [root])
    /\ trees w' !! root = Some (mkTree (label rn) bl (Some (nextTree w)) (nodes rn))
    /\ (forall q, q <> nextTree w -> q <> root -> trees w' !! q = trees w !! q)
    /\ _nodeMap (self w') = <[name := nextTree w]> (_nodeMap (self w))
    /\ _dirty (self w') = true.
Proof.
  intros Hn Hname Htree Hroot Hparent Hfresh Hcache [f Hf]. unfold addRootGenome.
  destruct (decide _); [contradiction|].
  unfold bind at 1. unfold get. rewrite Hname, Htree.
  unfold_heap. cbn. repeat (simp_lookup; rewrite ?Hroot, ?Hparent, ?Hf).
  eexists. split; [reflexivity|]. cbn. simp_lookup.
  rewrite !map_insert_new_None by assumption.
  repeat split; try reflexivity. intros q Hq1 Hq2. simp_lookup. reflexivity.
Qed.

(** C4 on the store that has read back an alignment without genomes:
    [loadTree] leaves an unnamed node as the tree, where every other
    function has NULL for the empty tree.  The node map is empty and the
    store has no genome, yet [addRootGenome] takes the unnamed node for
    the former root: the new root "A" gets it as a child, and the names
    of the children of "A" cannot be read.  On the store that
    [createNew] leaves, the same call makes "A" the only node. *)
Lemma addRootGenome_after_empty_load :
  let w := (session_empty world0).2 in
  let r := addRootGenome "A" 1%float w in
  (session_empty world0).1 = Ok tt
  /\ _nodeMap (self w) = ∅
  /\ (getNumGenomes w).1 = Ok 0%nat
  /\ _tree (self w) = Some 1%nat
  /\ trees w !! 1%nat = Some (mkTree None infinity None [])
  /\ r.1 = Ok 1%nat
  /\ _tree (self r.2) = Some 2%nat
  /\ trees r.2 !! 2%nat = Some (mkTree (Some "A") infinity None [1%nat])
  /\ trees r.2 !! 1%nat = Some (mkTree None 1%float (Some 2%nat) [])
  /\ (getChildNames "A" r.2).1 = Fault
  /\ trees world_A !! 1%nat = Some (mkTree (Some "A") infinity None [])
  /\ (getChildNames "A" world_A).1 = Ok [].
Proof. vm_compute. repeat split; reflexivity. Qed.

(** ** Closing the store *)

(** C3 on a store that had a genome: [close] frees the tree and empties
    the cache and leaves the node map as it was.  The stale entry points
    to a freed node, the [assert] of [getNumGenomes] on a store without
    a tree fails, and after [createNew] the name "A", new to the new
    alignment, is refused as a duplicate.  A second [close] changes
    nothing. *)
Lemma close_keeps_node_map :
  let w := (session_A world0).2 in
  (session_A world0).1 = Ok tt
  /\ _file (self w) = None
  /\ _tree (self w) = None
  /\ _openGenomes (self w) = ∅
  /\ _nodeMap (self w) !! "A" = Some 1%nat
  /\ trees w !! 1%nat = None
  /\ (getNumGenomes w).1 = AssertFail
  /\ ((createNew (H := label_codec) "b.hal" ;;; addRootGenome "A" 1%float) w).1
     = Throw DuplicateNameError
  /\ close (H := label_codec) w = (Ok tt, w).
Proof. vm_compute. repeat split; reflexivity. Qed.

(** The body of the loop of [close] over the cache. *)
Definition close_entry (mapIt : string * ptr) : M unit :=
  HDF5Genome_write mapIt.2 ;;; HDF5Genome_delete mapIt.2.

(** What the loop of [close] leaves alone. *)
Record loop_frame (w w' : World) : Prop := {
  lf_self : set_file None (self w') = set_file None (self w);
  lf_trees : trees w' = trees w;
  lf_nextTree : nextTree w' = nextTree w;
  lf_nextGenome : nextGenome w' = nextGenome w;
  lf_disk : disk w' = disk w;
  lf_file : forall f, _file (self w) = Some f ->
            exists f', _file (self w') = Some f' /\ filePath f' = filePath f
                       /\ treeGroup f' = treeGroup f /\ metaGroup f' = metaGroup f;
  lf_genomes : forall g, genomes w' !! g = None \/ genomes w' !! g = genomes w !! g
}.

Lemma loop_frame_refl w : loop_frame w w.
Proof. split; try reflexivity; eauto. Qed.

Lemma close_loop (l : list (string * ptr)) : forall w f,
  _file (self w) = Some f -> NoDup l.*2 ->
  (forall x, x ∈ l -> is_Some (genomes w !! x.2)) ->
  exists w', for_each l close_entry w = (Ok tt, w') /\ loop_frame w w'.
Proof.
  induction l as [|[name g] l IH]; intros w f Hf Hnd Hlive.
  - exists w. split; [reflexivity|apply loop_frame_refl].
  - cbn [for_each]. destruct (Hlive (name, g) ltac:(left)) as [o Ho]. cbn in Ho.
    apply NoDup_cons in Hnd as [Hnotin Hnd].
    unfold close_entry at 1. unfold_heap. cbn. rewrite Ho, Hf. cbn.
    match goal with |- context [for_each l close_entry ?W] =>
      destruct (IH W (mkFile (filePath f) (metaGroup f) (treeGroup f)
                        (<[genomeName o := genomePayload o]> (genomeGroups f))))
        as (w' & Hrun & Hfr) end.
    + reflexivity.
    + exact Hnd.
    + intros x Hx. cbn. rewrite lookup_delete_ne.
      * apply Hlive. right. exact Hx.
      * intros ->. apply Hnotin. apply list_elem_of_fmap. exists x. split; [reflexivity|exact Hx].
    + exists w'. rewrite Hrun. split; [reflexivity|]. destruct Hfr as [H1 H2 H3 H4 H5 H6 H7].
      split; try assumption.
      * intros f0 Hf0. rewrite Hf in Hf0. injection Hf0 as <-.
        destruct (H6 _ eq_refl) as (f' & ? & ? & ? & ?). exists f'. auto.
      * intros g0. destruct (H7 g0) as [Hn|He]; [left; exact Hn|].
        cbn in He. destruct (decide (g0 = g)) as [->|Hne].
        -- left. rewrite He. apply lookup_delete_eq.
        -- right. rewrite He. apply lookup_delete_ne. congruence.
Qed.

Lemma free_tree_sub fuel : forall p (h : gmap ptr stTree) q,
  free_tree fuel p h !! q = None \/ free_tree fuel p h !! q = h !! q.
Proof.
  induction fuel as [|fuel IH]; intros p h q; cbn [free_tree]; [right; reflexivity|].
  destruct (h !! p) as [n|]; [|right; reflexivity].
  assert (Hfold : forall l h0, (h0 !! q = None \/ h0 !! q = h !! q) ->
            foldr (free_tree fuel) h0 l !! q = None
            \/ foldr (free_tree fuel) h0 l !! q = h !! q).
  { induction l as [|c l IHl]; intros h0 Hh0; cbn [foldr]; [exact Hh0|].
    destruct (IH c (foldr (free_tree fuel) h0 l) q) as [Hn|He]; [left; exact Hn|].
    rewrite He. apply IHl, Hh0. }
  apply Hfold. destruct (decide (q = p)) as [->|Hne].
  - left. apply lookup_delete_eq.
  - right. apply lookup_delete_ne. congruence.
Qed.

Section Close.
Context `{NewickCodec}.

Record closed_by (w w' : World) : Prop := {
  cb_file : _file (self w') = None;
  cb_tree : _tree (self w') = None;
  cb_cache : _openGenomes (self w') = ∅;
  cb_dirty : _dirty (self w') = _dirty (self w);
  cb_nodeMap : _nodeMap (self w') = _nodeMap (self w);
  cb_nextTree : nextTree w' = nextTree w;
  cb_nextGenome : nextGenome w' = nextGenome w;
  cb_trees : forall p, trees w' !! p = None \/ trees w' !! p = trees w !! p;
  cb_genomes : forall g, genomes w' !! g = None \/ genomes w' !! g = genomes w !! g;
  cb_persist : forall f, _file (self w) = Some f ->
    exists f', disk w' !! filePath f = Some f'
               /\ (_dirty (self w) = true ->
                   treeGroup f' !! TreeGroupName = Some (tree_string w))
}.

Lemma map_in_order_perm {V} (m : gmap string V) : map_in_order m ≡ₚ map_to_list m.
Proof. apply merge_sort_Permutation. Qed.

Lemma cache_entries_live w :
  wf w -> forall x, x ∈ map_in_order (_openGenomes (self w)) -> is_Some (genomes w !! x.2).
Proof.
  intros Hwf [name g] Hx. rewrite map_in_order_perm in Hx.
  apply elem_of_map_to_list in Hx.
  destruct (wf_cache_live w Hwf name g Hx) as (o & Ho & _). exists o. exact Ho.
Qed.

Lemma cache_entries_NoDup w : wf w -> NoDup (map_in_order (_openGenomes (self w))).*2.
Proof.
  intros Hwf. rewrite map_in_order_perm.
  apply NoDup_fmap_2_strong; [|apply NoDup_map_to_list].
  intros [n1 g1] [n2 g2] H1 H2 Heq. cbn in Heq. subst g2.
  apply elem_of_map_to_list in H1, H2.
  destruct (wf_cache_live w Hwf n1 g1 H1) as (o1 & Ho1 & Hn1).
  destruct (wf_cache_live w Hwf n2 g1 H2) as (o2 & Ho2 & Hn2).
  congruence.
Qed.

(** The state after [writeTree]. *)
Definition written (w : World) : World :=
  match _dirty (self w), _file (self w) with
  | true, Some f =>
      log_event (WriteTree (tree_string w))
        (upd_self (set_file (Some (mkFile (filePath f) (metaGroup f)
                                     (<[TreeGroupName := tree_string w]> (treeGroup f))
                                     (genomeGroups f)))) w)
  | _, _ => w
  end.

Lemma writeTree_ok w : is_Some (_file (self w)) -> writeTree w = (Ok tt, written w).
Proof.
  intros [f Hf]. unfold writeTree, written, tree_string. unfold_heap. cbn.
  destruct (_dirty (self w)); [|reflexivity]. rewrite ?Hf. cbn. rewrite ?Hf. reflexivity.
Qed.

(** The state after the tree is destructed. *)
Definition tree_dropped (w : World) : World :=
  match _tree (self w) with
  | Some t =>
      upd_self (set_tree None)
        (set_trees (free_tree (S (size (trees w))) t (trees w)) w)
  | None => w
  end.

Lemma drop_tree_ok w :
  match _tree (self w) with
  | Some t => stTree_destruct t ;;; modify (upd_self (set_tree None))
  | None => ret tt
  end w = (Ok tt, tree_dropped w).
Proof. unfold tree_dropped. destruct (_tree (self w)); reflexivity. Qed.

(** The state after the meta data is written and deleted. *)
Definition meta_written (w : World) : World :=
  match _metaData (self w), _file (self w) with
  | Some m, Some f =>
      upd_self (set_metaData None)
        (log_event WriteMeta
           (upd_self (set_file (Some (mkFile (filePath f) m (treeGroup f)
                                        (genomeGroups f)))) w))
  | _, _ => w
  end.

Lemma write_meta_ok w : is_Some (_file (self w)) ->
  match _metaData (self w) with
  | Some m => metaData_write m ;;; modify (upd_self (set_metaData None))
  | None => ret tt
  end w = (Ok tt, meta_written w).
Proof.
  intros [f Hf]. unfold meta_written. destruct (_metaData (self w)); [|reflexivity].
  unfold_heap. cbn. rewrite Hf. reflexivity.
Qed.

(** What the three steps before the loop of [close] leave alone. *)
Record prepared (w w3 : World) : Prop := {
  pr_tree : _tree (self w3) = None;
  pr_cache : _openGenomes (self w3) = _openGenomes (self w);
  pr_dirty : _dirty (self w3) = _dirty (self w);
  pr_nodeMap : _nodeMap (self w3) = _nodeMap (self w);
  pr_genomes : genomes w3 = genomes w;
  pr_nextTree : nextTree w3 = nextTree w;
  pr_nextGenome : nextGenome w3 = nextGenome w;
  pr_disk : disk w3 = disk w;
  pr_trees : forall p, trees w3 !! p = None \/ trees w3 !! p = trees w !! p
}.

Lemma prepared_ok w : prepared w (meta_written (tree_dropped (written w))).
Proof.
  unfold written. destruct (_dirty (self w)) eqn:Hd, (_file (self w)) as [f|] eqn:Hf.
  all: unfold tree_dropped; cbn; destruct (_tree (self w)) as [t|] eqn:Ht.
  all: unfold meta_written; cbn; rewrite ?Hf; destruct (_metaData (self w)) eqn:Hm; cbn.
  all: split; cbn; try reflexivity; try assumption; try (intros p; right; reflexivity).
  all: intros p; exact (free_tree_sub (S (size (trees w))) t (trees w) p).
Qed.

Lemma close_spec w : wf w -> exists w', close w = (Ok tt, w') /\ closed_by w w'.
Proof.
  intros Hwf. unfold close. rewrite (bind_Ok get _ w w w eq_refl).
  destruct (_file (self w)) as [f|] eqn:Hf.
  - set (w1 := written w). set (w2 := tree_dropped w1). set (w3 := meta_written w2).
    assert (Hf1 : exists f1, _file (self w1) = Some f1 /\ filePath f1 = filePath f
              /\ (_dirty (self w) = true ->
                  treeGroup f1 !! TreeGroupName = Some (tree_string w))).
    { subst w1. unfold written. rewrite Hf. destruct (_dirty (self w)); cbn.
      - eexists. split; [reflexivity|]. split; [reflexivity|]. intros _. cbn.
        apply lookup_insert_eq.
      - exists f. split; [exact Hf|]. split; [reflexivity|]. discriminate. }
    destruct Hf1 as (f1 & Hf1 & Hp1 & Ht1).
    assert (Hf2 : _file (self w2) = Some f1).
    { subst w2. unfold tree_dropped. destruct (_tree (self w1)); exact Hf1. }
    assert (Hf3 : exists f3, _file (self w3) = Some f3 /\ filePath f3 = filePath f1
              /\ treeGroup f3 = treeGroup f1).
    { subst w3. unfold meta_written. rewrite Hf2. destruct (_metaData (self w2)); cbn.
      - eexists. split; [reflexivity|]. split; reflexivity.
      - exists f1. split; [exact Hf2|]. split; reflexivity. }
    destruct Hf3 as (f3 & Hf3 & Hp3 & Ht3).
    pose proof (prepared_ok w) as Hpr. fold w1 w2 w3 in Hpr.
    rewrite (bind_Ok writeTree _ w tt w1) by (apply writeTree_ok; rewrite Hf; eauto).
    rewrite (bind_Ok get _ w1 w1 w1 eq_refl).
    rewrite (bind_Ok _ _ w1 tt w2) by apply drop_tree_ok.
    rewrite (bind_Ok get _ w2 w2 w2 eq_refl).
    rewrite (bind_Ok _ _ w2 tt w3) by (apply write_meta_ok; rewrite Hf2; eauto).
    rewrite (bind_Ok get _ w3 w3 w3 eq_refl).
    destruct (close_loop (map_in_order (_openGenomes (self w3))) w3 f3 Hf3)
      as (w4 & Hloop & Hfr).
    { rewrite (pr_cache _ _ Hpr). apply cache_entries_NoDup, Hwf. }
    { rewrite (pr_cache _ _ Hpr), (pr_genomes _ _ Hpr). apply cache_entries_live, Hwf. }
    change (fun mapIt : string * ptr =>
              HDF5Genome_write mapIt.2 ;;; HDF5Genome_delete mapIt.2)
      with close_entry.
    rewrite (bind_Ok _ _ w3 tt w4 Hloop).
    destruct (lf_file _ _ Hfr f3 Hf3) as (f4 & Hf4 & Hp4 & Ht4 & _).
    unfold_heap. cbn. rewrite Hf4. cbn.
    eexists. split; [reflexivity|].
    pose proof (lf_self _ _ Hfr) as Hself.
    split; cbn.
    + reflexivity.
    + rewrite <- (pr_tree _ _ Hpr). exact (f_equal _tree Hself).
    + reflexivity.
    + rewrite <- (pr_dirty _ _ Hpr). exact (f_equal _dirty Hself).
    + rewrite <- (pr_nodeMap _ _ Hpr). exact (f_equal _nodeMap Hself).
    + rewrite (lf_nextTree _ _ Hfr). apply (pr_nextTree _ _ Hpr).
    + rewrite (lf_nextGenome _ _ Hfr). apply (pr_nextGenome _ _ Hpr).
    + intros p. rewrite (lf_trees _ _ Hfr). apply (pr_trees _ _ Hpr).
    + intros g. rewrite <- (pr_genomes _ _ Hpr). apply (lf_genomes _ _ Hfr).
    + intros f0 Hf0. rewrite Hf in Hf0. injection Hf0 as <-. exists f4. split.
      * rewrite <- Hp1, <- Hp3, <- Hp4. apply lookup_insert_eq.
      * intros Hd. rewrite Ht4, Ht3. apply Ht1, Hd.
  - destruct (wf_closed w Hwf Hf) as [Ht Hc].
    unfold_heap. cbn. rewrite Ht, Hc. cbn.
    exists w. split; [reflexivity|].
    split; try reflexivity; try assumption; try (intros; right; reflexivity).
    intros f0 Hf0. congruence.
Qed.

End Close.

(** ** Frames

    A relation between the state before and the state after that a
    computation respects however it ends. *)
Definition preserves {A} (R : relation World) (m : M A) : Prop :=
  forall w, R w (m w).2.

Section Preserves.
Context (R : relation World) `{!Reflexive R} `{!Transitive R}.

Lemma preserves_bind {A B} (m : M A) (f : A -> M B) :
  preserves R m -> (forall a, preserves R (f a)) -> preserves R (bind m f).
Proof.
  intros Hm Hf w. unfold bind. specialize (Hm w).
  destruct (m w) as [[a| | | |] w1]; cbn in *; try exact Hm.
  etransitivity; [exact Hm|apply Hf].
Qed.

(** A computation that never changes the state. *)
Lemma preserves_pure {A} (m : M A) : (forall w, (m w).2 = w) -> preserves R m.
Proof. intros Hm w. rewrite Hm. reflexivity. Qed.

Lemma preserves_for_each {A} (l : list A) (body : A -> M unit) :
  (forall x, preserves R (body x)) -> preserves R (for_each l body).
Proof.
  intros Hb. induction l as [|x l IH]; cbn [for_each].
  - apply preserves_pure. reflexivity.
  - apply preserves_bind; [apply Hb|intros _; exact IH].
Qed.

Lemma preserves_assert b : preserves R (assert b).
Proof. apply preserves_pure. intros w. unfold assert. destruct b; reflexivity. Qed.

Lemma preserves_tree_load p : preserves R (tree_load p).
Proof.
  apply preserves_pure. intros w. unfold tree_load. destruct (trees w !! p); reflexivity.
Qed.

Lemma preserves_tree_store p n :
  (forall w, R w (set_trees (<[p := n]> (trees w)) w)) -> preserves R (tree_store p n).
Proof.
  intros Hs w. unfold tree_store. destruct (trees w !! p); [apply Hs|reflexivity].
Qed.

Lemma preserves_genome_load g : preserves R (genome_load g).
Proof.
  apply preserves_pure. intros w. unfold genome_load.
  destruct (genomes w !! g); reflexivity.
Qed.

Lemma preserves_the_file : preserves R the_file.
Proof.
  apply preserves_pure. intros w. unfold the_file.
  destruct (_file (self w)); reflexivity.
Qed.

End Preserves.

(** One step of a syntax-directed proof of [preserves]: binds, loops and
    branches are taken apart, computations that only read are the lemmas
    above, and [tac] shows the relation for a [modify]. *)
Ltac preserves_step tac :=
  first
    [ apply preserves_bind; [typeclasses eauto| |intros ?]
    | apply preserves_for_each; [typeclasses eauto|typeclasses eauto|intros ?]
    | apply preserves_assert; typeclasses eauto
    | apply preserves_tree_load; typeclasses eauto
    | apply preserves_tree_store; [typeclasses eauto|intros ?; tac]
    | apply preserves_genome_load; typeclasses eauto
    | apply preserves_the_file; typeclasses eauto
    | apply preserves_pure; [typeclasses eauto|intros ?; reflexivity]
    | match goal with
      | |- preserves _ (match ?x with _ => _ end) => destruct x
      end
    | (intros ?; tac) ].

Ltac preserves_tac tac := repeat (preserves_step tac).

(** ** The dirty flag *)

(** The flag after is the flag before. *)
Definition same_dirty : relation World :=
  fun w w' => _dirty (self w') = _dirty (self w).

#[local] Instance same_dirty_refl : Reflexive same_dirty.
Proof. intros w. reflexivity. Qed.

#[local] Instance same_dirty_trans : Transitive same_dirty.
Proof. intros w1 w2 w3 H12 H23. unfold same_dirty in *. congruence. Qed.

Ltac same_dirty_tac := preserves_tac ltac:(reflexivity).

Section Dirty.
Context `{NewickCodec}.

Lemma same_dirty_parse s : preserves same_dirty (stTree_parseNewickString s).
Proof.
  intros w. unfold stTree_parseNewickString.
  destruct (newick_parse s (trees w) (nextTree w)) as [[root h] next]. reflexivity.
Qed.

Lemma same_dirty_writeTree : preserves same_dirty writeTree.
Proof. unfold writeTree, treeMeta_set, put_file. same_dirty_tac. Qed.

Lemma same_dirty_close : preserves same_dirty close.
Proof.
  unfold close. apply preserves_bind; [typeclasses eauto|same_dirty_tac|intros w0].
  destruct (_file (self w0)).
  - apply preserves_bind; [typeclasses eauto|apply same_dirty_writeTree|intros _].
    unfold stTree_destruct, metaData_write, HDF5Genome_write, HDF5Genome_delete,
      put_file.
    same_dirty_tac.
  - same_dirty_tac.
Qed.

Lemma same_dirty_addNodeToMap fuel : forall node,
  preserves same_dirty (addNodeToMap fuel node).
Proof.
  induction fuel as [|fuel IH]; intros node; cbn [addNodeToMap].
  - same_dirty_tac.
  - unfold stTree_getLabel, stTree_getChildren.
    apply preserves_bind; [typeclasses eauto|same_dirty_tac|intros l].
    apply preserves_bind; [typeclasses eauto|same_dirty_tac|intros _].
    destruct l as [name|]; [|same_dirty_tac].
    apply preserves_bind; [typeclasses eauto|same_dirty_tac|intros w0].
    apply preserves_bind; [typeclasses eauto|same_dirty_tac|intros _].
    apply preserves_bind; [typeclasses eauto|same_dirty_tac|intros _].
    apply preserves_bind; [typeclasses eauto|same_dirty_tac|intros children].
    apply preserves_for_each; [typeclasses eauto..|]. exact IH.
Qed.

Lemma same_dirty_loadTree : preserves same_dirty loadTree.
Proof.
  unfold loadTree.
  apply preserves_bind; [typeclasses eauto|same_dirty_tac|intros _].
  apply preserves_bind; [typeclasses eauto|same_dirty_tac|intros f].
  apply preserves_bind; [typeclasses eauto|same_dirty_tac|intros _].
  apply preserves_bind; [typeclasses eauto|same_dirty_tac|intros _].
  apply preserves_bind; [typeclasses eauto|same_dirty_tac|intros w0].
  apply preserves_bind; [typeclasses eauto| |intros _].
  { destruct (_tree (self w0)); unfold stTree_destruct; same_dirty_tac. }
  destruct (decide _).
  - same_dirty_tac.
  - apply preserves_bind; [typeclasses eauto|apply same_dirty_parse|intros t].
    apply preserves_bind; [typeclasses eauto|same_dirty_tac|intros _].
    apply preserves_bind; [typeclasses eauto|same_dirty_tac|intros w1].
    apply same_dirty_addNodeToMap.
Qed.

Lemma same_dirty_open path readOnly : preserves same_dirty (open path readOnly).
Proof.
  unfold open.
  apply preserves_bind; [typeclasses eauto|apply same_dirty_close|intros _].
  apply preserves_bind; [typeclasses eauto|same_dirty_tac|intros _].
  apply preserves_bind; [typeclasses eauto|same_dirty_tac|intros w0].
  destruct (disk w0 !! path); [|same_dirty_tac].
  unfold put_file.
  apply preserves_bind; [typeclasses eauto|same_dirty_tac|intros _].
  apply preserves_bind; [typeclasses eauto|same_dirty_tac|intros _].
  apply same_dirty_loadTree.
Qed.

End Dirty.

(** A computation that returns only with the dirty flag set. *)
Definition sets_dirty {A} (m : M A) : Prop :=
  forall w a w', m w = (Ok a, w') -> _dirty (self w') = true.

Lemma sets_dirty_bind {A B} (m : M A) (f : A -> M B) :
  (forall a, sets_dirty (f a)) -> sets_dirty (bind m f).
Proof.
  intros Hf w b w'. unfold bind.
  destruct (m w) as [[a| | | |] w1]; try discriminate. apply Hf.
Qed.

Lemma sets_dirty_throw {A} e : sets_dirty (@throw A e).
Proof. intros w a w'. discriminate. Qed.

Lemma sets_dirty_last {A} (a : A) :
  sets_dirty (modify (upd_self (set_dirty true)) ;;; ret a).
Proof. intros w a' w' Heq. inversion Heq; subst. reflexivity. Qed.

Lemma sets_dirty_addRootGenome name bl : sets_dirty (addRootGenome name bl).
Proof.
  unfold addRootGenome. destruct (decide _); [apply sets_dirty_throw|].
  apply sets_dirty_bind. intros w0.
  destruct (_nodeMap (self w0) !! name); [apply sets_dirty_throw|].
  repeat first [apply sets_dirty_last | apply sets_dirty_bind; intros ?].
Qed.

Lemma sets_dirty_addLeafGenome name parentName bl :
  sets_dirty (addLeafGenome name parentName bl).
Proof.
  unfold addLeafGenome. destruct (decide _); [apply sets_dirty_throw|].
  apply sets_dirty_bind. intros w0.
  destruct (_nodeMap (self w0) !! name); [apply sets_dirty_throw|].
  destruct (_nodeMap (self w0) !! parentName); [|apply sets_dirty_throw].
  repeat first [apply sets_dirty_last | apply sets_dirty_bind; intros ?].
Qed.

(** ** The invariant *)

Lemma wf_new d : wf (World_new d).
Proof.
  split; cbn.
  - intros _. split; reflexivity.
  - intros name g Hg. rewrite lookup_empty in Hg. discriminate Hg.
  - intros name [g Hg]. rewrite lookup_empty in Hg. discriminate Hg.
  - intros g _. apply lookup_empty.
  - intros p _. apply lookup_empty.
Qed.

Section Lifecycle.
Context `{NewickCodec}.

Lemma closed_by_wf w w' : wf w -> closed_by w w' -> wf w'.
Proof.
  intros Hwf Hcb. split.
  - intros _. split; [apply (cb_tree _ _ Hcb)|apply (cb_cache _ _ Hcb)].
  - intros name g Hg. rewrite (cb_cache _ _ Hcb), lookup_empty in Hg. discriminate Hg.
  - intros name [g Hg]. rewrite (cb_cache _ _ Hcb), lookup_empty in Hg. discriminate Hg.
  - intros g Hg. rewrite (cb_nextGenome _ _ Hcb) in Hg.
    destruct (cb_genomes _ _ Hcb g) as [Hn|He]; [exact Hn|].
    rewrite He. apply (wf_fresh_genome w Hwf), Hg.
  - intros p Hp. rewrite (cb_nextTree _ _ Hcb) in Hp.
    destruct (cb_trees _ _ Hcb p) as [Hn|He]; [exact Hn|].
    rewrite He. apply (wf_fresh_tree w Hwf), Hp.
Qed.

(** [createNew] on a well-formed store: the new container is open and
    empty, there is no tree, no genome is open, the flag is set; the
    node map is the one from before. *)
Lemma createNew_spec path w :
  wf w ->
  exists w',
    createNew path w = (Ok tt, w')
    /\ wf w'
    /\ _dirty (self w') = true
    /\ _file (self w') = Some (mkFile path ∅ ∅ ∅)
    /\ _tree (self w') = None
    /\ _openGenomes (self w') = ∅
    /\ _nodeMap (self w') = _nodeMap (self w).
Proof.
  intros Hwf. destruct (close_spec w Hwf) as (w1 & Hclose & Hcb).
  pose proof (closed_by_wf w w1 Hwf Hcb) as Hwf1.
  unfold createNew. rewrite (bind_Ok _ _ w tt w1 Hclose).
  unfold_heap. cbn. eexists. split; [reflexivity|]. cbn.
  split; [|repeat split; try reflexivity;
             [apply (cb_cache _ _ Hcb)|apply (cb_nodeMap _ _ Hcb)]].
  split; cbn.
  - discriminate.
  - intros name g Hg. rewrite (cb_cache _ _ Hcb), lookup_empty in Hg. discriminate Hg.
  - intros name [g Hg]. rewrite (cb_cache _ _ Hcb), lookup_empty in Hg. discriminate Hg.
  - apply (wf_fresh_genome w1 Hwf1).
  - apply (wf_fresh_tree w1 Hwf1).
Qed.

(** C2, as the code has it: [createNew] and every [addRootGenome] and
    [addLeafGenome] that returns set the dirty flag; [close] on a dirty
    open store writes the tree string to the container, which it puts
    on disk; and nothing clears the flag: [writeTree], [close] and
    [open] leave it as it is, so that it is clear after [open] only when
    it was clear before, as on a store just constructed. *)
Theorem dirty_flag_is_set_and_kept (w : World) (Hwf : wf w) :
  (forall path, exists w', createNew path w = (Ok tt, w') /\ _dirty (self w') = true)
  /\ (forall name bl g w',
        addRootGenome name bl w = (Ok g, w') -> _dirty (self w') = true)
  /\ (forall name parentName bl g w',
        addLeafGenome name parentName bl w = (Ok g, w') -> _dirty (self w') = true)
  /\ (exists w',
        close w = (Ok tt, w')
        /\ _dirty (self w') = _dirty (self w)
        /\ forall f, _file (self w) = Some f -> _dirty (self w) = true ->
             exists f', disk w' !! filePath f = Some f'
                        /\ treeGroup f' !! TreeGroupName = Some (tree_string w))
  /\ _dirty (self (writeTree w).2) = _dirty (self w)
  /\ (forall path readOnly,
        _dirty (self (open path readOnly w).2) = _dirty (self w))
  /\ (forall d path readOnly,
        _dirty (self (open path readOnly (World_new d)).2) = false).
Proof.
  split; [|split; [|split; [|split; [|split; [|split]]]]].
  - intros path. destruct (createNew_spec path w Hwf) as (w' & Hrun & _ & Hd & _).
    exists w'. split; assumption.
  - intros name bl g w'. apply sets_dirty_addRootGenome.
  - intros name parentName bl g w'. apply sets_dirty_addLeafGenome.
  - destruct (close_spec w Hwf) as (w' & Hrun & Hcb). exists w'.
    split; [exact Hrun|]. split; [apply (cb_dirty _ _ Hcb)|].
    intros f Hf Hd. destruct (cb_persist _ _ Hcb f Hf) as (f' & Hdisk & Htree).
    exists f'. split; [exact Hdisk|apply Htree, Hd].
  - apply same_dirty_writeTree.
  - intros path readOnly. apply same_dirty_open.
  - intros d path readOnly. apply (same_dirty_open path readOnly (World_new d)).
Qed.

End Lifecycle.

(** C2, as stated, fails on a store that is created and closed: the
    flag is still set after [close], and still set after the [open]
    that follows. *)
Lemma dirty_flag_counterexample :
  ~ (_dirty (self ((createNew (H := label_codec) "e.hal" ;;;
                    close (H := label_codec)) world0).2) = false
     \/ _dirty (self (session_empty world0).2) = false).
Proof. vm_compute. intros [Hd|Hd]; discriminate Hd. Qed.

(** ** What the heap operations leave alone *)

(** The operations on tree nodes change the tree heap and its allocator
    only. *)
Record tree_only (w w' : World) : Prop := {
  to_self : self w' = self w;
  to_genomes : genomes w' = genomes w;
  to_nextGenome : nextGenome w' = nextGenome w;
  to_disk : disk w' = disk w;
  to_log : ioLog w' = ioLog w
}.

#[local] Instance tree_only_refl : Reflexive tree_only.
Proof. intros w. split; reflexivity. Qed.

#[local] Instance tree_only_trans : Transitive tree_only.
Proof.
  intros w1 w2 w3 [] []. split; etransitivity; eassumption.
Qed.

Ltac tree_only_tac := preserves_tac ltac:(split; reflexivity).

Lemma tree_only_construct : preserves tree_only stTree_construct.
Proof. tree_only_tac. Qed.

Lemma tree_only_setLabel t s : preserves tree_only (stTree_setLabel t s).
Proof. unfold stTree_setLabel. tree_only_tac. Qed.

Lemma tree_only_setBranchLength t d : preserves tree_only (stTree_setBranchLength t d).
Proof. unfold stTree_setBranchLength. tree_only_tac. Qed.

Lemma tree_only_setParent t p : preserves tree_only (stTree_setParent t p).
Proof. unfold stTree_setParent. tree_only_tac. Qed.

(** ** The allocators *)

(** An invariant that holds after when it holds before. *)
Definition keeps (I : World -> Prop) : relation World := fun w w' => I w -> I w'.

#[local] Instance keeps_refl I : Reflexive (keeps I).
Proof. intros w Hw. exact Hw. Qed.

#[local] Instance keeps_trans I : Transitive (keeps I).
Proof. intros w1 w2 w3 H12 H23 Hw. apply H23, H12, Hw. Qed.

Definition fresh_tree (w : World) : Prop :=
  forall p, (nextTree w <= p)%nat -> trees w !! p = None.

Definition fresh_genome (w : World) : Prop :=
  forall g, (nextGenome w <= g)%nat -> genomes w !! g = None.

Lemma fresh_tree_construct : preserves (keeps fresh_tree) stTree_construct.
Proof.
  intros w Hw p Hp. cbn in *. rewrite lookup_insert_ne by lia. apply Hw. lia.
Qed.

(** A store goes to a live node, which is below the allocator. *)
Lemma fresh_tree_store p n : preserves (keeps fresh_tree) (tree_store p n).
Proof.
  intros w Hw. unfold tree_store.
  destruct (trees w !! p) as [n0|] eqn:Hp; cbn; [|exact Hw].
  intros q Hq. cbn in *. rewrite lookup_insert_ne; [apply Hw, Hq|].
  intros ->. rewrite (Hw q Hq) in Hp. discriminate Hp.
Qed.

Lemma fresh_tree_destruct t : preserves (keeps fresh_tree) (stTree_destruct t).
Proof.
  intros w Hw p Hp. unfold stTree_destruct, modify in *. cbn [snd set_trees trees nextTree] in *.
  destruct (free_tree_sub (S (size (trees w))) t (trees w) p) as [Hn|He];
    [exact Hn|]. rewrite He. apply Hw, Hp.
Qed.

Lemma fresh_tree_parse `{NewickCodec} s :
  preserves (keeps fresh_tree) (stTree_parseNewickString s).
Proof.
  intros w Hw. unfold stTree_parseNewickString.
  destruct (newick_parse s (trees w) (nextTree w)) as [[root h] next] eqn:Hparse.
  destruct (newick_parse_fresh _ _ _ _ _ _ Hparse Hw) as [_ Hfree].
  intros p Hp. cbn in *. apply Hfree, Hp.
Qed.

Ltac fresh_tree_tac :=
  repeat first
    [ apply fresh_tree_construct
    | apply fresh_tree_store
    | apply fresh_tree_destruct
    | apply fresh_tree_parse
    | preserves_step ltac:(let Hw := fresh "Hw" in intros Hw; exact Hw) ].

Lemma fresh_genome_new name : preserves (keeps fresh_genome) (HDF5Genome_new name).
Proof.
  intros w Hw. unfold HDF5Genome_new. unfold_heap.
  destruct (_file (self w)); cbn; [|exact Hw].
  intros g Hg. cbn in *. rewrite lookup_insert_ne by lia. apply Hw. lia.
Qed.

Lemma fresh_genome_read g : preserves (keeps fresh_genome) (HDF5Genome_read g).
Proof.
  intros w Hw. unfold HDF5Genome_read. unfold_heap.
  destruct (genomes w !! g) as [o|] eqn:Hg; cbn; [|exact Hw].
  destruct (_file (self w)); cbn; [|exact Hw].
  intros q Hq. cbn in *. rewrite lookup_insert_ne; [apply Hw, Hq|].
  intros ->. rewrite (Hw q Hq) in Hg. discriminate Hg.
Qed.

Lemma fresh_genome_delete g : preserves (keeps fresh_genome) (HDF5Genome_delete g).
Proof.
  intros w Hw q Hq. unfold HDF5Genome_delete, modify in *. cbn in *.
  destruct (decide (g = q)) as [->|Hne].
  - apply lookup_delete_eq.
  - rewrite lookup_delete_ne by exact Hne. apply Hw, Hq.
Qed.

Ltac fresh_genome_tac :=
  repeat first
    [ apply fresh_genome_new
    | apply fresh_genome_read
    | apply fresh_genome_delete
    | preserves_step ltac:(let Hw := fresh "Hw" in intros Hw; exact Hw) ].

Section Allocators.
Context `{NewickCodec}.

Lemma fresh_genome_parse s : preserves (keeps fresh_genome) (stTree_parseNewickString s).
Proof.
  intros w Hw. unfold stTree_parseNewickString.
  destruct (newick_parse s (trees w) (nextTree w)) as [[root h] next]. exact Hw.
Qed.

Lemma fresh_tree_addRootGenome name bl :
  preserves (keeps fresh_tree) (addRootGenome name bl).
Proof.
  unfold addRootGenome, HDF5Genome_new, stTree_setLabel, stTree_setParent,
    stTree_setBranchLength.
  fresh_tree_tac.
Qed.

Lemma fresh_genome_addRootGenome name bl :
  preserves (keeps fresh_genome) (addRootGenome name bl).
Proof.
  unfold addRootGenome, stTree_setLabel, stTree_setParent, stTree_setBranchLength.
  fresh_genome_tac.
Qed.

Lemma fresh_tree_addLeafGenome name parentName bl :
  preserves (keeps fresh_tree) (addLeafGenome name parentName bl).
Proof.
  unfold addLeafGenome, HDF5Genome_new, stTree_setLabel, stTree_setParent,
    stTree_setBranchLength.
  fresh_tree_tac.
Qed.

Lemma fresh_genome_addLeafGenome name parentName bl :
  preserves (keeps fresh_genome) (addLeafGenome name parentName bl).
Proof.
  unfold addLeafGenome, stTree_setLabel, stTree_setParent, stTree_setBranchLength.
  fresh_genome_tac.
Qed.

Lemma fresh_tree_openGenome name : preserves (keeps fresh_tree) (openGenome name).
Proof. unfold openGenome, HDF5Genome_new, HDF5Genome_read. fresh_tree_tac. Qed.

Lemma fresh_genome_openGenome name : preserves (keeps fresh_genome) (openGenome name).
Proof. unfold openGenome. fresh_genome_tac. Qed.

Lemma fresh_tree_closeGenome g : preserves (keeps fresh_tree) (closeGenome g).
Proof. unfold closeGenome, HDF5Genome_write, HDF5Genome_delete, put_file. fresh_tree_tac. Qed.

Lemma fresh_genome_closeGenome g : preserves (keeps fresh_genome) (closeGenome g).
Proof. unfold closeGenome, HDF5Genome_write, put_file. fresh_genome_tac. Qed.

End Allocators.

(** ** The invariant is kept *)

Lemma bind_inv {A B} (m : M A) (f : A -> M B) w b w' :
  bind m f w = (Ok b, w') ->
  exists a w1, m w = (Ok a, w1) /\ f a w1 = (Ok b, w').
Proof.
  unfold bind. destruct (m w) as [[a| | | |] w1]; try discriminate.
  intros Hf. exists a, w1. split; [reflexivity|exact Hf].
Qed.

(** A run of a framed computation relates its two states. *)
Lemma preserves_run {A} (R : relation World) (m : M A) w o w' :
  preserves R m -> m w = (o, w') -> R w w'.
Proof. intros Hm Hrun. specialize (Hm w). rewrite Hrun in Hm. exact Hm. Qed.

(** The part of the invariant that speaks of the cache, after a new
    genome object for [name] went into it. *)
Lemma wf_cache_insert w (name : string) (payload : Payload)
    (nodeMap' : gmap string ptr) :
  wf w -> _openGenomes (self w) !! name = None ->
  (forall n, is_Some (_nodeMap (self w) !! n) -> is_Some (nodeMap' !! n)) ->
  is_Some (nodeMap' !! name) ->
  let cache' := <[name := nextGenome w]> (_openGenomes (self w)) in
  let genomes' := <[nextGenome w := mkGenome name payload]> (genomes w) in
  (forall n g, cache' !! n = Some g ->
     exists o, genomes' !! g = Some o /\ genomeName o = n)
  /\ (forall n, is_Some (cache' !! n) -> is_Some (nodeMap' !! n)).
Proof.
  intros Hwf Hc Hsub Hname cache' genomes'. subst cache' genomes'. split.
  - intros n g Hg. destruct (decide (name = n)) as [->|Hne].
    + rewrite lookup_insert_eq in Hg. injection Hg as <-.
      eexists. split; [apply lookup_insert_eq|reflexivity].
    + rewrite lookup_insert_ne in Hg by exact Hne.
      destruct (wf_cache_live w Hwf n g Hg) as (o & Ho & Hn).
      exists o. split; [|exact Hn]. rewrite lookup_insert_ne; [exact Ho|].
      intros <-. rewrite (wf_fresh_genome w Hwf (nextGenome w)) in Ho by lia.
      discriminate Ho.
  - intros n Hn. destruct (decide (name = n)) as [->|Hne]; [exact Hname|].
    rewrite lookup_insert_ne in Hn by exact Hne.
    apply Hsub, (wf_cache_tree w Hwf), Hn.
Qed.

Section Kept.
Context `{NewickCodec}.

Lemma addRootGenome_wf name bl w g w' :
  wf w -> addRootGenome name bl w = (Ok g, w') -> wf w'.
Proof.
  intros Hwf Hrun.
  pose proof (preserves_run _ _ _ _ _ (fresh_tree_addRootGenome name bl) Hrun
                (wf_fresh_tree w Hwf)) as Hft.
  pose proof (preserves_run _ _ _ _ _ (fresh_genome_addRootGenome name bl) Hrun
                (wf_fresh_genome w Hwf)) as Hfg.
  unfold addRootGenome in Hrun. destruct (decide (name = "")); [discriminate Hrun|].
  apply bind_inv in Hrun as (w0 & w0' & Hget & Hrun). injection Hget as <- <-.
  destruct (_nodeMap (self w) !! name) eqn:Hname; [discriminate Hrun|].
  apply bind_inv in Hrun as (node & w1 & H1 & Hrun).
  apply bind_inv in Hrun as ([] & w2 & H2 & Hrun).
  apply bind_inv in Hrun as ([] & w3 & H3 & Hrun).
  assert (Hfr : tree_only w w3).
  { etransitivity; [apply (preserves_run _ _ _ _ _ tree_only_construct H1)|].
    etransitivity; [apply (preserves_run _ _ _ _ _ (tree_only_setLabel _ _) H2)|].
    revert H3. destruct (_tree (self w)).
    - apply preserves_run. unfold stTree_setParent, stTree_setBranchLength.
      preserves_tac ltac:(split; reflexivity).
    - intros Heq. injection Heq as <-. reflexivity. }
  destruct Hfr as [Hself Hgen Hng _ _].
  assert (Hcache : _openGenomes (self w) !! name = None).
  { destruct (_openGenomes (self w) !! name) eqn:Hc; [|reflexivity].
    destruct (wf_cache_tree w Hwf name) as [p Hp]; [eauto|]. congruence. }
  revert Hrun. unfold_heap. cbn.
  destruct (_file (self w3)) as [f|] eqn:Hf; cbn; [|discriminate].
  intros Heq. injection Heq as <- <-. rewrite Hself in Hf.
  destruct (wf_cache_insert w name "" (<[name := node]> (_nodeMap (self w)))
              Hwf Hcache) as [Hlive Htree].
  { intros n0 Hn0. destruct (decide (name = n0)) as [->|Hne];
      [rewrite lookup_insert_eq; eauto|rewrite lookup_insert_ne by exact Hne; exact Hn0]. }
  { rewrite lookup_insert_eq. eauto. }
  split; [| | |exact Hfg|exact Hft]; cbn; rewrite ?Hself, ?Hgen, ?Hng; cbn;
    rewrite ?map_insert_new_None by assumption.
  - rewrite Hf. discriminate.
  - exact Hlive.
  - exact Htree.
Qed.

Lemma addLeafGenome_wf name parentName bl w g w' :
  wf w -> addLeafGenome name parentName bl w = (Ok g, w') -> wf w'.
Proof.
  intros Hwf Hrun.
  pose proof (preserves_run _ _ _ _ _ (fresh_tree_addLeafGenome name parentName bl)
                Hrun (wf_fresh_tree w Hwf)) as Hft.
  pose proof (preserves_run _ _ _ _ _ (fresh_genome_addLeafGenome name parentName bl)
                Hrun (wf_fresh_genome w Hwf)) as Hfg.
  unfold addLeafGenome in Hrun. destruct (decide _); [discriminate Hrun|].
  apply bind_inv in Hrun as (w0 & w0' & Hget & Hrun). injection Hget as <- <-.
  destruct (_nodeMap (self w) !! name) eqn:Hname; [discriminate Hrun|].
  destruct (_nodeMap (self w) !! parentName) as [parent|]; [|discriminate Hrun].
  apply bind_inv in Hrun as (node & w1 & H1 & Hrun).
  apply bind_inv in Hrun as ([] & w2 & H2 & Hrun).
  apply bind_inv in Hrun as ([] & w3 & H3 & Hrun).
  apply bind_inv in Hrun as ([] & w4 & H4 & Hrun).
  assert (Hfr : tree_only w w4).
  { etransitivity; [apply (preserves_run _ _ _ _ _ tree_only_construct H1)|].
    etransitivity; [apply (preserves_run _ _ _ _ _ (tree_only_setLabel _ _) H2)|].
    etransitivity; [apply (preserves_run _ _ _ _ _ (tree_only_setParent _ _) H3)|].
    apply (preserves_run _ _ _ _ _ (tree_only_setBranchLength _ _) H4). }
  destruct Hfr as [Hself Hgen Hng _ _].
  assert (Hcache : _openGenomes (self w) !! name = None).
  { destruct (_openGenomes (self w) !! name) eqn:Hc; [|reflexivity].
    destruct (wf_cache_tree w Hwf name) as [p Hp]; [eauto|]. congruence. }
  revert Hrun. unfold_heap. cbn.
  destruct (_file (self w4)) as [f|] eqn:Hf; cbn; [|discriminate].
  intros Heq. injection Heq as <- <-. rewrite Hself in Hf.
  destruct (wf_cache_insert w name "" (<[name := node]> (_nodeMap (self w)))
              Hwf Hcache) as [Hlive Htree].
  { intros n0 Hn0. destruct (decide (name = n0)) as [->|Hne];
      [rewrite lookup_insert_eq; eauto|rewrite lookup_insert_ne by exact Hne; exact Hn0]. }
  { rewrite lookup_insert_eq. eauto. }
  split; [| | |exact Hfg|exact Hft]; cbn; rewrite ?Hself, ?Hgen, ?Hng; cbn;
    rewrite ?map_insert_new_None by assumption.
  - rewrite Hf. discriminate.
  - exact Hlive.
  - exact Htree.
Qed.

Lemma openGenome_wf name w r w' :
  wf w -> openGenome name w = (Ok r, w') -> wf w'.
Proof.
  intros Hwf Hrun.
  pose proof (preserves_run _ _ _ _ _ (fresh_tree_openGenome name) Hrun
                (wf_fresh_tree w Hwf)) as Hft.
  pose proof (preserves_run _ _ _ _ _ (fresh_genome_openGenome name) Hrun
                (wf_fresh_genome w Hwf)) as Hfg.
  unfold openGenome in Hrun.
  apply bind_inv in Hrun as (w0 & w0' & Hget & Hrun). injection Hget as <- <-.
  destruct (_openGenomes (self w) !! name) eqn:Hcache.
  { injection Hrun as <- <-. exact Hwf. }
  destruct (_nodeMap (self w) !! name) eqn:Hname.
  2:{ injection Hrun as <- <-. exact Hwf. }
  revert Hrun. unfold_heap. cbn.
  destruct (_file (self w)) as [f|] eqn:Hf; cbn; [|discriminate].
  simp_lookup. rewrite Hf. cbn.
  intros Heq. injection Heq as <- <-.
  destruct (wf_cache_insert w name (default "" (genomeGroups f !! name))
              (_nodeMap (self w)) Hwf Hcache) as [Hlive Htree];
    [auto|rewrite Hname; eauto|].
  split; [| | |exact Hfg|exact Hft]; cbn;
    rewrite ?map_insert_new_None by assumption; rewrite ?insert_insert_eq.
  - rewrite Hf. discriminate.
  - exact Hlive.
  - exact Htree.
Qed.

Lemma closeGenome_wf g w w' :
  wf w -> closeGenome g w = (Ok tt, w') -> wf w'.
Proof.
  intros Hwf Hrun.
  pose proof (preserves_run _ _ _ _ _ (fresh_tree_closeGenome g) Hrun
                (wf_fresh_tree w Hwf)) as Hft.
  pose proof (preserves_run _ _ _ _ _ (fresh_genome_closeGenome g) Hrun
                (wf_fresh_genome w Hwf)) as Hfg.
  revert Hrun. unfold closeGenome. unfold_heap. cbn.
  destruct (genomes w !! g) as [o|] eqn:Hg; cbn; [|discriminate].
  destruct (_openGenomes (self w) !! genomeName o) as [c|] eqn:Hc; cbn; [|discriminate].
  destruct (genomes w !! c) as [oc|] eqn:Hoc; cbn; [|discriminate].
  destruct (_file (self w)) as [f|] eqn:Hf; cbn; [|discriminate].
  intros Heq. injection Heq as <-.
  split; [| | |exact Hfg|exact Hft]; cbn.
  - discriminate.
  - intros n p Hp. destruct (decide (genomeName o = n)) as [<-|Hne].
    + rewrite lookup_delete_eq in Hp. discriminate Hp.
    + rewrite lookup_delete_ne in Hp by exact Hne.
      destruct (wf_cache_live w Hwf n p Hp) as (op & Hop & Hn).
      exists op. split; [|exact Hn]. rewrite lookup_delete_ne; [exact Hop|].
      intros <-. destruct (wf_cache_live w Hwf _ c Hc) as (oc' & Hoc' & Hn').
      congruence.
  - intros n [p Hp]. destruct (decide (genomeName o = n)) as [<-|Hne].
    + rewrite lookup_delete_eq in Hp. discriminate Hp.
    + rewrite lookup_delete_ne in Hp by exact Hne.
      apply (wf_cache_tree w Hwf). eauto.
Qed.

End Kept.

(** ** Loading the tree *)

(** [loadTree] changes the tree index, the tree heap and its allocator
    only. *)
Record index_only (w w' : World) : Prop := {
  io_file : _file (self w') = _file (self w);
  io_cache : _openGenomes (self w') = _openGenomes (self w);
  io_genomes : genomes w' = genomes w;
  io_nextGenome : nextGenome w' = nextGenome w
}.

#[local] Instance index_only_refl : Reflexive index_only.
Proof. intros w. split; reflexivity. Qed.

#[local] Instance index_only_trans : Transitive index_only.
Proof. intros w1 w2 w3 [] []. split; etransitivity; eassumption. Qed.

Section Load.
Context `{NewickCodec}.

Lemma index_only_parse s : preserves index_only (stTree_parseNewickString s).
Proof.
  intros w. unfold stTree_parseNewickString.
  destruct (newick_parse s (trees w) (nextTree w)) as [[root h] next].
  split; reflexivity.
Qed.

Lemma index_only_addNodeToMap fuel : forall node,
  preserves index_only (addNodeToMap fuel node).
Proof.
  induction fuel as [|fuel IH]; intros node; cbn [addNodeToMap];
    unfold stTree_getLabel, stTree_getChildren;
    preserves_tac ltac:(split; reflexivity).
  apply IH.
Qed.

Lemma fresh_tree_addNodeToMap fuel : forall node,
  preserves (keeps fresh_tree) (addNodeToMap fuel node).
Proof.
  induction fuel as [|fuel IH]; intros node; cbn [addNodeToMap];
    unfold stTree_getLabel, stTree_getChildren; fresh_tree_tac.
  apply IH.
Qed.

Lemma index_only_loadTree : preserves index_only loadTree.
Proof.
  unfold loadTree, stTree_destruct.
  repeat first [ apply index_only_parse | apply index_only_addNodeToMap
               | preserves_step ltac:(split; reflexivity) ].
Qed.

Lemma fresh_tree_loadTree : preserves (keeps fresh_tree) loadTree.
Proof.
  unfold loadTree.
  repeat first [ apply fresh_tree_addNodeToMap | fresh_tree_tac ].
Qed.

Lemma open_wf path readOnly w o w' :
  wf w -> open path readOnly w = (o, w') ->
  match o with Ok _ | Throw _ => wf w' | _ => True end.
Proof.
  intros Hwf. destruct (close_spec w Hwf) as (w1 & Hclose & Hcb).
  pose proof (closed_by_wf w w1 Hwf Hcb) as Hwf1.
  unfold open. rewrite (bind_Ok _ _ w tt w1 Hclose).
  unfold modify at 1. unfold bind at 1. unfold bind at 1. unfold get. cbn [upd_self disk].
  destruct (disk w1 !! path) as [f|] eqn:Hdisk.
  - unfold put_file. unfold modify at 1 2. unfold bind at 1 2.
    match goal with |- loadTree ?W = _ -> _ => set (w2 := W) end.
    intros Hrun.
    pose proof (preserves_run _ _ _ _ _ index_only_loadTree Hrun) as [Hf Hc Hg Hng].
    pose proof (preserves_run _ _ _ _ _ fresh_tree_loadTree Hrun) as Hft.
    destruct o; try exact I.
    all: split; [| | | |apply Hft; exact (wf_fresh_tree w1 Hwf1)].
    all: rewrite ?Hf, ?Hc, ?Hg, ?Hng; subst w2; cbn; rewrite ?(cb_cache _ _ Hcb).
    all: try discriminate.
    all: try (intros name g Hg0; rewrite lookup_empty in Hg0; discriminate Hg0).
    all: try (intros name [g Hg0]; rewrite lookup_empty in Hg0; discriminate Hg0).
    all: exact (wf_fresh_genome w1 Hwf1).
  - intros Heq. injection Heq as <- <-.
    split; cbn.
    + intros _. split; [apply (cb_tree _ _ Hcb)|apply (cb_cache _ _ Hcb)].
    + apply (wf_cache_live w1 Hwf1).
    + apply (wf_cache_tree w1 Hwf1).
    + apply (wf_fresh_genome w1 Hwf1).
    + apply (wf_fresh_tree w1 Hwf1).
Qed.

Lemma close_wf w o w' : wf w -> close w = (o, w') -> o = Ok tt /\ wf w'.
Proof.
  intros Hwf Hrun. destruct (close_spec w Hwf) as (w1 & Hclose & Hcb).
  rewrite Hclose in Hrun. injection Hrun as <- <-.
  split; [reflexivity|apply (closed_by_wf w w1 Hwf Hcb)].
Qed.

End Load.

(** ** Exceptions leave the state as it was *)

(** A computation that throws no [hal_exception]. *)
Definition never_throws {A} (m : M A) : Prop :=
  forall w e w', m w <> (Throw e, w').

Lemma never_throws_bind {A B} (m : M A) (f : A -> M B) :
  never_throws m -> (forall a, never_throws (f a)) -> never_throws (bind m f).
Proof.
  intros Hm Hf w e w'. unfold bind.
  destruct (m w) as [[a| | | |] w1] eqn:Hrun; try discriminate.
  - apply Hf.
  - exfalso. exact (Hm w _ _ Hrun).
Qed.

Ltac never_throws_tac :=
  repeat first
    [ apply never_throws_bind; [|intros ?]
    | match goal with
      | |- never_throws (match ?x with _ => _ end) => destruct x
      end
    | (intros ? ? ?;
       unfold tree_load, tree_store, genome_load, the_file, stTree_construct,
         alloc_genome, modify, ret, fault, get, assert;
       repeat case_match; discriminate) ].

(** A computation that, when it throws, has not changed the state. *)
Definition throws_unchanged {A} (m : M A) : Prop :=
  forall w e w', m w = (Throw e, w') -> w' = w.

Lemma throws_unchanged_throw {A} e : throws_unchanged (@throw A e).
Proof. intros w e' w' Heq. injection Heq as _ <-. reflexivity. Qed.

Lemma throws_unchanged_never {A} (m : M A) : never_throws m -> throws_unchanged m.
Proof. intros Hm w e w' Hrun. exfalso. exact (Hm w e w' Hrun). Qed.

Lemma throws_unchanged_bind {A B} (m : M A) (f : A -> M B) :
  (forall w, (m w).2 = w) -> (forall a, throws_unchanged (f a)) ->
  throws_unchanged (bind m f).
Proof.
  intros Hm Hf w e w'. unfold bind. specialize (Hm w).
  destruct (m w) as [[a| | | |] w1]; cbn in Hm; subst w1; try discriminate.
  - apply Hf.
  - intros Heq. injection Heq as _ <-. reflexivity.
Qed.

(** The three functions that throw do so before they change anything. *)
Lemma addRootGenome_throw name bl : throws_unchanged (addRootGenome name bl).
Proof.
  unfold addRootGenome. destruct (decide _); [apply throws_unchanged_throw|].
  apply throws_unchanged_bind; [reflexivity|intros w0].
  destruct (_nodeMap (self w0) !! name); [apply throws_unchanged_throw|].
  apply throws_unchanged_never.
  unfold stTree_setLabel, stTree_setParent, stTree_setBranchLength, HDF5Genome_new.
  never_throws_tac.
Qed.

Lemma addLeafGenome_throw name parentName bl :
  throws_unchanged (addLeafGenome name parentName bl).
Proof.
  unfold addLeafGenome. destruct (decide _); [apply throws_unchanged_throw|].
  apply throws_unchanged_bind; [reflexivity|intros w0].
  destruct (_nodeMap (self w0) !! name); [apply throws_unchanged_throw|].
  destruct (_nodeMap (self w0) !! parentName); [|apply throws_unchanged_throw].
  apply throws_unchanged_never.
  unfold stTree_setLabel, stTree_setParent, stTree_setBranchLength, HDF5Genome_new.
  never_throws_tac.
Qed.

Lemma closeGenome_throw g : throws_unchanged (closeGenome g).
Proof.
  unfold closeGenome. apply throws_unchanged_bind.
  { intros w. unfold genome_load. destruct (genomes w !! g); reflexivity. }
  intros o. apply throws_unchanged_bind; [reflexivity|intros w0].
  destruct (_openGenomes (self w0) !! genomeName o); [|apply throws_unchanged_throw].
  apply throws_unchanged_never.
  unfold HDF5Genome_write, HDF5Genome_delete, put_file.
  never_throws_tac.
Qed.

Lemma openGenome_never_throws name : never_throws (openGenome name).
Proof.
  unfold openGenome, HDF5Genome_new, HDF5Genome_read. never_throws_tac.
Qed.

(** ** The states a store goes through *)

(** Every state a store goes through is well-formed. *)
Lemma reachable_wf `{NewickCodec} w : reachable w -> wf w.
Proof.
  induction 1 as [d|path w o w' _ IH Hrun Ho|path ro w o w' _ IH Hrun Ho
                  |w o w' _ IH Hrun Ho|name bl w o w' _ IH Hrun Ho
                  |name pn bl w o w' _ IH Hrun Ho|name w o w' _ IH Hrun Ho
                  |g w o w' _ IH Hrun Ho].
  - apply wf_new.
  - destruct (createNew_spec path w IH) as (w1 & Hrun1 & Hwf1 & _).
    rewrite Hrun1 in Hrun. injection Hrun as _ <-. exact Hwf1.
  - pose proof (open_wf path ro w o w' IH Hrun) as Hwf.
    destruct o; try contradiction; exact Hwf.
  - apply (close_wf w o w' IH Hrun).
  - destruct o as [g|e| | |]; try contradiction.
    + apply (addRootGenome_wf name bl w g w' IH Hrun).
    + rewrite (addRootGenome_throw name bl w e w' Hrun). exact IH.
  - destruct o as [g|e| | |]; try contradiction.
    + apply (addLeafGenome_wf name pn bl w g w' IH Hrun).
    + rewrite (addLeafGenome_throw name pn bl w e w' Hrun). exact IH.
  - destruct o as [r|e| | |]; try contradiction.
    + apply (openGenome_wf name w r w' IH Hrun).
    + exfalso. exact (openGenome_never_throws name w e w' Hrun).
  - destruct o as [[]|e| | |]; try contradiction.
    + apply (closeGenome_wf g w w' IH Hrun).
    + rewrite (closeGenome_throw g w e w' Hrun). exact IH.
Qed.

(** The state after [createNew("a.hal"); addRootGenome("A", 1.0)] is one
    of them. *)
Lemma world_A_reachable : reachable (H := label_codec) world_A.
Proof.
  unfold world_A.
  destruct (createNew (H := label_codec) "a.hal" world0) as [o1 w1] eqn:H1.
  assert (Ho1 : o1 = Ok tt) by (apply (f_equal fst) in H1; vm_compute in H1; congruence).
  subst o1. rewrite (bind_Ok _ _ _ _ _ H1).
  destruct (addRootGenome "A" 1%float w1) as [o2 w2] eqn:H2.
  assert (Ho2 : survives o2).
  { assert (Hw1 : w1 = (createNew (H := label_codec) "a.hal" world0).2)
      by (rewrite H1; reflexivity).
    apply (f_equal fst) in H2. rewrite Hw1 in H2. vm_compute in H2. subst o2. exact I. }
  cbn [snd]. eapply reach_addRootGenome; [|exact H2|exact Ho2].
  eapply reach_createNew; [apply (reach_new ∅)|exact H1|exact I].
Qed.

Lemma world_A_wf : wf world_A.
Proof. apply (reachable_wf (H := label_codec)), world_A_reachable. Qed.

Lemma dirty_flag_is_set_and_kept_witness :
  wf world_A
  /\ exists w',
       close (H := label_codec) world_A = (Ok tt, w')
       /\ _dirty (self w') = _dirty (self world_A)
       /\ forall f, _file (self world_A) = Some f -> _dirty (self world_A) = true ->
            exists f', disk w' !! filePath f = Some f'
                       /\ treeGroup f' !! TreeGroupName
                          = Some (tree_string (H := label_codec) world_A).
Proof.
  split; [exact world_A_wf|].
  destruct (dirty_flag_is_set_and_kept (H := label_codec) world_A world_A_wf)
    as (_ & _ & _ & Hclose & _).
  exact Hclose.
Defined.

(** ** The leaves below a node *)

Lemma forest_size_app ts1 ts2 :
  forest_size (ts1 ++ ts2) = (forest_size ts1 + forest_size ts2)%nat.
Proof.
  unfold forest_size. induction ts1 as [|t ts1 IH]; cbn; [reflexivity|].
  rewrite IH. lia.
Qed.

(** The loop over a queue that holds the roots of a forest: the leaves
    of the forest are appended, in some order. *)
Lemma getLeafNamesBelow_loop_spec w name fuel : forall forest leaves,
  Forall (unfolds_to w) forest ->
  (forest_size forest < fuel)%nat ->
  exists r,
    getLeafNamesBelow_loop fuel name (root_name <$> forest) leaves w
    = (Ok (leaves ++ r), w)
    /\ r ≡ₚ filter (fun x => x <> name) (flat_map leaf_names forest).
Proof.
  induction fuel as [|fuel IH]; intros forest leaves Hall Hfuel; [lia|].
  destruct forest as [|[current kids] rest].
  - exists []. rewrite app_nil_r. split; [reflexivity|]. cbn. reflexivity.
  - apply Forall_cons in Hall as [Ht Hrest]. inversion Ht as [n k Hkids Hsub]; subst.
    cbn [fmap list_fmap root_name getLeafNamesBelow_loop].
    rewrite (bind_Ok _ _ _ _ _ Hkids).
    change (list_fmap NameTree string root_name rest) with (root_name <$> rest).
    rewrite <- fmap_app.
    destruct (IH (rest ++ kids)
                (if decide (root_name <$> kids = [] /\ current <> name)
                 then leaves ++ [current] else leaves)) as (r & Hrun & Hperm).
    { apply Forall_app. split; assumption. }
    { rewrite forest_size_app. cbn in Hfuel. fold (forest_size kids) in Hfuel.
      fold (forest_size rest) in Hfuel. lia. }
    rewrite Hrun. cbn [flat_map]. rewrite filter_app.
    rewrite flat_map_app, filter_app in Hperm.
    destruct kids as [|kid kids].
    + cbn [flat_map filter] in Hperm. rewrite app_nil_r in Hperm.
      cbn [fmap list_fmap leaf_names].
      destruct (decide (current <> name)) as [Hne|Heq].
      * rewrite decide_True by (split; [reflexivity|exact Hne]).
        exists (current :: r). rewrite <- app_assoc. split; [reflexivity|].
        rewrite filter_cons_True by exact Hne. cbn. rewrite Hperm. reflexivity.
      * rewrite decide_False by tauto.
        exists r. split; [reflexivity|].
        rewrite filter_cons_False by exact Heq. cbn. exact Hperm.
    + rewrite decide_False by (intros [Hnil _]; discriminate Hnil).
      exists r. split; [reflexivity|]. rewrite Hperm.
      change (leaf_names (NameNode current (kid :: kids)))
        with (flat_map leaf_names (kid :: kids)).
      apply Permutation_app_comm.
Qed.

(** A computation that leaves the state as it is, however it ends. *)
Definition unchanged {A} (m : M A) : Prop := forall w, (m w).2 = w.

Lemma unchanged_preserves {A} (m : M A) : preserves eq m -> unchanged m.
Proof. intros Hm w. symmetry. apply Hm. Qed.

Lemma labels_of_unchanged l : preserves eq (labels_of l).
Proof.
  induction l as [|c l IH]; cbn [labels_of]; unfold stTree_getLabel;
    preserves_tac ltac:(reflexivity).
  exact IH.
Qed.

Lemma getChildNames_unchanged name : unchanged (getChildNames name).
Proof.
  apply unchanged_preserves. unfold getChildNames, stTree_getChildren.
  repeat first [apply labels_of_unchanged | preserves_step ltac:(reflexivity)].
Qed.

Lemma getLeafNamesBelow_loop_unchanged name fuel : forall q leaves,
  preserves eq (getLeafNamesBelow_loop fuel name q leaves).
Proof.
  induction fuel as [|fuel IH]; intros q leaves; cbn [getLeafNamesBelow_loop].
  - intros w. reflexivity.
  - destruct q as [|current rest]; [intros w; reflexivity|].
    apply preserves_bind; [typeclasses eauto| |intros children; apply IH].
    intros w. symmetry. apply getChildNames_unchanged.
Qed.

(** X9: where [getChildNames], followed down from a name, unfolds a
    finite tree, [getLeafNamesBelow] with more fuel than the tree has
    nodes returns, leaves the state as it is, and lists the names of
    the nodes without children of that tree, each as often as it is
    there, except the name asked for: a leaf asked for by its own name
    gives the empty list. *)
Theorem getLeafNamesBelow_lists_leaves (w : World) (t : NameTree) (fuel : nat)
    (Htree : unfolds_to w t) (Hfuel : (tree_size t < fuel)%nat) :
  exists leaves,
    getLeafNamesBelow fuel (root_name t) w = (Ok leaves, w)
    /\ leaves ≡ₚ filter (fun x => x <> root_name t) (leaf_names t).
Proof.
  destruct (getLeafNamesBelow_loop_spec w (root_name t) fuel [t] [])
    as (r & Hrun & Hperm).
  { repeat constructor. exact Htree. }
  { cbn. lia. }
  exists r. split; [exact Hrun|].
  cbn [flat_map] in Hperm. rewrite app_nil_r in Hperm. exact Hperm.
Qed.

(** For a name that is not in the node map the first [getChildNames]
    throws; the state is as before, as it is however the function
    ends. *)
Lemma getLeafNamesBelow_unknown_name (w : World) (name : string) (fuel : nat)
    (Hname : _nodeMap (self w) !! name = None) :
  getLeafNamesBelow (S fuel) name w = (Throw NotFoundError, w)
  /\ forall fuel', (getLeafNamesBelow fuel' name w).2 = w.
Proof.
  split.
  - unfold getLeafNamesBelow. cbn [getLeafNamesBelow_loop].
    unfold getChildNames, bind, get. rewrite Hname. reflexivity.
  - intros fuel'. symmetry. apply getLeafNamesBelow_loop_unchanged.
Qed.

Lemma world_ABC_unfolds : unfolds_to world_ABC tree_ABC.
Proof.
  repeat (constructor; [vm_compute; reflexivity|]); repeat constructor.
  all: try (vm_compute; reflexivity).
Qed.

Lemma getLeafNamesBelow_lists_leaves_witness :
  exists leaves,
    getLeafNamesBelow 5 "A" world_ABC = (Ok leaves, world_ABC)
    /\ leaves ≡ₚ filter (fun x => x <> "A"%string) (leaf_names tree_ABC).
Proof.
  apply (getLeafNamesBelow_lists_leaves world_ABC tree_ABC 5).
  - exact world_ABC_unfolds.
  - vm_compute. lia.
Defined.

Example getLeafNamesBelow_ABC :
  (getLeafNamesBelow 5 "A" world_ABC).1 = Ok ["B"; "C"]%string
  /\ (getLeafNamesBelow 5 "B" world_ABC).1 = Ok []
  /\ (getLeafNamesBelow 5 "D" world_ABC).1 = Throw NotFoundError.
Proof. vm_compute. repeat split; reflexivity. Qed.

(** ** What [close] writes *)

Section CloseSteps.
Context `{NewickCodec}.

(** The state [close] leaves on an open store, given the state after
    the loop over the cache. *)
Definition closing (w4 : World) (f4 : H5File) : World :=
  upd_self (set_file None)
    (set_disk (<[filePath f4 := f4]> (disk w4))
       (upd_self (set_openGenomes ∅) w4)).

Lemma close_steps w f :
  wf w -> _file (self w) = Some f ->
  exists w4 f4,
    for_each (map_in_order (_openGenomes (self w))) close_entry
      (meta_written (tree_dropped (written w))) = (Ok tt, w4)
    /\ _file (self w4) = Some f4
    /\ filePath f4 = filePath f
    /\ close w = (Ok tt, closing w4 f4).
Proof.
  intros Hwf Hf. unfold close. rewrite (bind_Ok get _ w w w eq_refl). rewrite Hf.
  set (w1 := written w). set (w2 := tree_dropped w1). set (w3 := meta_written w2).
  assert (Hf1 : exists f1, _file (self w1) = Some f1 /\ filePath f1 = filePath f).
  { subst w1. unfold written. rewrite Hf. destruct (_dirty (self w)); cbn; eauto. }
  destruct Hf1 as (f1 & Hf1 & Hp1).
  assert (Hf2 : _file (self w2) = Some f1).
  { subst w2. unfold tree_dropped. destruct (_tree (self w1)); exact Hf1. }
  assert (Hf3 : exists f3, _file (self w3) = Some f3 /\ filePath f3 = filePath f1).
  { subst w3. unfold meta_written. rewrite Hf2. destruct (_metaData (self w2)); cbn; eauto. }
  destruct Hf3 as (f3 & Hf3 & Hp3).
  pose proof (prepared_ok w) as Hpr. fold w1 w2 w3 in Hpr.
  rewrite (bind_Ok writeTree _ w tt w1) by (apply writeTree_ok; rewrite Hf; eauto).
  rewrite (bind_Ok get _ w1 w1 w1 eq_refl).
  rewrite (bind_Ok _ _ w1 tt w2) by apply drop_tree_ok.
  rewrite (bind_Ok get _ w2 w2 w2 eq_refl).
  rewrite (bind_Ok _ _ w2 tt w3) by (apply write_meta_ok; rewrite Hf2; eauto).
  rewrite (bind_Ok get _ w3 w3 w3 eq_refl).
  destruct (close_loop (map_in_order (_openGenomes (self w3))) w3 f3 Hf3)
    as (w4 & Hloop & Hfr).
  { rewrite (pr_cache _ _ Hpr). apply cache_entries_NoDup, Hwf. }
  { rewrite (pr_cache _ _ Hpr), (pr_genomes _ _ Hpr). apply cache_entries_live, Hwf. }
  change (fun mapIt : string * ptr =>
            HDF5Genome_write mapIt.2 ;;; HDF5Genome_delete mapIt.2)
    with close_entry.
  rewrite (bind_Ok _ _ w3 tt w4 Hloop).
  destruct (lf_file _ _ Hfr f3 Hf3) as (f4 & Hf4 & Hp4 & _).
  exists w4, f4. rewrite <- (pr_cache _ _ Hpr). split; [exact Hloop|].
  split; [exact Hf4|]. split; [congruence|].
  unfold_heap. cbn. rewrite Hf4. reflexivity.
Qed.

(** What the loop of [close] writes and frees. *)
Lemma close_loop_log (l : list (string * ptr)) : forall w w',
  for_each l close_entry w = (Ok tt, w') ->
  (forall x, x ∈ l -> exists o, genomes w !! x.2 = Some o /\ genomeName o = x.1) ->
  NoDup l.*2 ->
  ioLog w' = ioLog w ++ (WriteGenome <$> l.*1)
  /\ (forall x, x ∈ l -> genomes w' !! x.2 = None)
  /\ (forall g, g ∉ l.*2 -> genomes w' !! g = genomes w !! g).
Proof.
  induction l as [|[name g] l IH]; intros w w' Hrun Hlive Hnd.
  - cbn in Hrun. injection Hrun as <-. rewrite app_nil_r.
    split; [reflexivity|]. split; [intros x Hx; inversion Hx|reflexivity].
  - cbn [for_each] in Hrun. apply bind_inv in Hrun as ([] & w1 & Hentry & Hrest).
    destruct (Hlive (name, g) ltac:(left)) as (o & Ho & Hname). cbn in Ho, Hname.
    apply NoDup_cons in Hnd as [Hnotin Hnd].
    assert (Hw1 : ioLog w1 = ioLog w ++ [WriteGenome name]
                  /\ genomes w1 = delete g (genomes w)).
    { revert Hentry. unfold close_entry. unfold_heap. cbn. rewrite Ho.
      destruct (_file (self w)); cbn; [|discriminate].
      intros Heq. injection Heq as <-. cbn. rewrite Hname. split; reflexivity. }
    destruct Hw1 as [Hlog1 Hgen1].
    destruct (IH w1 w' Hrest) as (Hlog & Hfreed & Hkept).
    { intros x Hx. rewrite Hgen1. rewrite lookup_delete_ne.
      - apply Hlive. right. exact Hx.
      - intros ->. apply Hnotin. apply list_elem_of_fmap. exists x. split; [reflexivity|exact Hx]. }
    { exact Hnd. }
    split; [|split].
    + rewrite Hlog, Hlog1, <- app_assoc. reflexivity.
    + intros x Hx. apply elem_of_cons in Hx as [->|Hx]; [|apply Hfreed, Hx].
      cbn. rewrite Hkept by exact Hnotin. rewrite Hgen1. apply lookup_delete_eq.
    + intros g0 Hg0. rewrite fmap_cons in Hg0. apply not_elem_of_cons in Hg0 as [Hne Hg0].
      rewrite (Hkept g0 Hg0), Hgen1. apply lookup_delete_ne. cbn in Hne. congruence.
Qed.

End CloseSteps.

Section CloseFacts.
Context `{NewickCodec}.

(** X10: [close] on a well-formed open store returns; it writes the
    tree string when the flag is set, then the meta data when there is
    one, then every genome of the cache, each one once; every genome
    object of the cache is deleted, and the container is on disk under
    its path. *)
Theorem close_writes_in_order (w : World) (f : H5File)
    (Hwf : wf w) (Hf : _file (self w) = Some f) :
  exists w' writes,
    close w = (Ok tt, w')
    /\ ioLog w'
       = ioLog w
         ++ (if _dirty (self w) then [WriteTree (tree_string w)] else [])
         ++ (match _metaData (self w) with Some _ => [WriteMeta] | None => [] end)
         ++ writes
    /\ writes ≡ₚ WriteGenome <$> (map_to_list (_openGenomes (self w))).*1
    /\ (forall name g, _openGenomes (self w) !! name = Some g -> genomes w' !! g = None)
    /\ is_Some (disk w' !! filePath f).
Proof.
  destruct (close_steps w f Hwf Hf) as (w4 & f4 & Hloop & Hf4 & Hp4 & Hclose).
  pose proof (prepared_ok w) as Hpr.
  apply close_loop_log in Hloop as (Hlog & Hfreed & _).
  2:{ intros [name g] Hx. rewrite map_in_order_perm in Hx.
      apply elem_of_map_to_list in Hx.
      rewrite (pr_genomes _ _ Hpr). apply (wf_cache_live w Hwf name g Hx). }
  2:{ apply cache_entries_NoDup, Hwf. }
  exists (closing w4 f4), (WriteGenome <$> (map_in_order (_openGenomes (self w))).*1).
  split; [exact Hclose|].
  split; [|split; [rewrite map_in_order_perm; reflexivity|split]].
  - assert (Hlog3 : ioLog (meta_written (tree_dropped (written w)))
                    = ioLog w
                      ++ (if _dirty (self w) then [WriteTree (tree_string w)] else [])
                      ++ (match _metaData (self w) with
                          | Some _ => [WriteMeta] | None => [] end)).
    { unfold written. rewrite Hf.
      destruct (_dirty (self w)), (_tree (self w)) as [t|] eqn:Ht,
               (_metaData (self w)) as [m|] eqn:Hm;
        unfold tree_dropped; cbn; rewrite ?Ht; unfold meta_written; cbn;
        rewrite ?Hm, ?Hf; cbn; rewrite <- ?app_assoc, ?app_nil_r; reflexivity. }
    cbn. rewrite Hlog, Hlog3, <- !app_assoc. reflexivity.
  - intros name g Hg. cbn. apply (Hfreed (name, g)).
    rewrite map_in_order_perm. apply elem_of_map_to_list. exact Hg.
  - cbn. rewrite <- Hp4, lookup_insert_eq. eauto.
Qed.

(** X11: in every state that a store reaches from its construction
    through member functions that return or throw, [close] returns:
    its [assert]s hold and it touches no freed object.  It leaves the
    store without container, tree and open genomes, and a second
    [close] changes nothing.  The destructor, which calls [close], ends
    in the same way. *)
Theorem close_returns_on_reachable (w : World) (Hreach : reachable w) :
  exists w',
    close w = (Ok tt, w')
    /\ HDF5Alignment_destroy w = (Ok tt, w')
    /\ _file (self w') = None /\ _tree (self w') = None
    /\ _openGenomes (self w') = ∅
    /\ close w' = (Ok tt, w').
Proof.
  pose proof (reachable_wf w Hreach) as Hwf.
  destruct (close_spec w Hwf) as (w' & Hrun & Hcb).
  exists w'. split; [exact Hrun|]. split; [exact Hrun|].
  pose proof (cb_file _ _ Hcb) as Hf. pose proof (cb_tree _ _ Hcb) as Ht.
  pose proof (cb_cache _ _ Hcb) as Hc.
  repeat split; try assumption.
  unfold close. unfold_heap. cbn. rewrite Hf, Ht, Hc. reflexivity.
Qed.

End CloseFacts.

Lemma close_writes_in_order_witness :
  exists w' writes,
    close (H := label_codec) world_ABC = (Ok tt, w')
    /\ ioLog w'
       = ioLog world_ABC
         ++ (if _dirty (self world_ABC)
             then [WriteTree (tree_string (H := label_codec) world_ABC)] else [])
         ++ (match _metaData (self world_ABC) with Some _ => [WriteMeta] | None => [] end)
         ++ writes
    /\ writes ≡ₚ WriteGenome <$> (map_to_list (_openGenomes (self world_ABC))).*1
    /\ (forall name g, _openGenomes (self world_ABC) !! name = Some g ->
          genomes w' !! g = None)
    /\ is_Some (disk w' !! filePath (mkFile "a.hal" ∅ ∅ ∅)).
Proof.
  apply (close_writes_in_order (H := label_codec) world_ABC (mkFile "a.hal" ∅ ∅ ∅)).
  - apply (reachable_wf (H := label_codec)).
    unfold world_ABC.
    destruct (addLeafGenome "B" "A" 2%float world_A) as [o1 w1] eqn:H1.
    assert (Ho1 : exists g, o1 = Ok g).
    { apply (f_equal fst) in H1. vm_compute in H1. subst o1. eauto. }
    destruct Ho1 as [g1 ->]. rewrite (bind_Ok _ _ _ _ _ H1).
    destruct (addLeafGenome "C" "A" 3%float w1) as [o2 w2] eqn:H2.
    assert (Ho2 : survives o2).
    { assert (Hw1 : w1 = (addLeafGenome "B" "A" 2%float world_A).2)
        by (rewrite H1; reflexivity).
      apply (f_equal fst) in H2. rewrite Hw1 in H2. vm_compute in H2. subst o2. exact I. }
    cbn [snd]. eapply reach_addLeafGenome; [|exact H2|exact Ho2].
    eapply reach_addLeafGenome; [apply world_A_reachable|exact H1|exact I].
  - vm_compute. reflexivity.
Defined.

(** The genomes of the cache are written in the order of their names,
    not in the order in which they were added. *)
Example close_writes_by_name :
  ioLog ((createNew (H := label_codec) "a.hal" ;;;
          addRootGenome "C" 1%float ;;;
          addLeafGenome "B" "C" 2%float ;;;
          addLeafGenome "A" "C" 3%float ;;;
          close (H := label_codec)) world0).2
  = [WriteTree "C"; WriteMeta; WriteGenome "A"; WriteGenome "B"; WriteGenome "C"].
Proof. vm_compute. reflexivity. Qed.

Lemma close_returns_on_reachable_witness :
  exists w',
    close (H := label_codec) world_A = (Ok tt, w')
    /\ HDF5Alignment_destroy (H := label_codec) world_A = (Ok tt, w')
    /\ _file (self w') = None /\ _tree (self w') = None
    /\ _openGenomes (self w') = ∅
    /\ close (H := label_codec) w' = (Ok tt, w').
Proof.
  apply (close_returns_on_reachable (H := label_codec) world_A).
  exact world_A_reachable.
Defined.

(** ** Queries after a genome is added *)

(** The success case of [addLeafGenome], as a state. *)
Lemma addLeafGenome_ok (name parentName : string) (bl : float) (w : World) parent pn :
  name <> "" -> parentName <> "" -> _nodeMap (self w) !! name = None ->
  _nodeMap (self w) !! parentName = Some parent ->
  trees w !! parent = Some pn -> parent <> nextTree w ->
  _openGenomes (self w) !! name = None -> is_Some (_file (self w)) ->
  exists w',
    addLeafGenome name parentName bl w = (Ok (nextGenome w), w')
    /\ trees w'
       = <[parent := mkTree (label pn) (branchLength pn) (Store.parent pn)
                       (nodes pn ++ [nextTree w])]>
           (<[nextTree w := mkTree (Some (c_str name)) bl (Some parent) []]> (trees w))
    /\ _nodeMap (self w') = <[name := nextTree w]> (_nodeMap (self w))
    /\ _tree (self w') = _tree (self w)
    /\ _file (self w') = _file (self w).
Proof.
  intros Hn Hp Hname Hparent Hlive Hfresh Hcache [f Hf].
  unfold addLeafGenome.
  destruct (decide _) as [[?|?]|_]; [contradiction..|].
  unfold bind at 1. unfold get. rewrite Hname, Hparent.
  unfold_heap. cbn. repeat (simp_lookup; rewrite ?Hlive, ?Hf).
  eexists. split; [reflexivity|]. cbn.
  rewrite !map_insert_new_None by assumption.
  repeat split; try reflexivity; try exact Hf.
  apply map_eq. intros q.
  destruct (decide (q = parent)) as [->|Hq1]; [simp_lookup; reflexivity|].
  destruct (decide (q = nextTree w)) as [->|Hq2]; simp_lookup; reflexivity.
Qed.

(** The labels of a list of nodes in a heap, where every node is live
    and labelled. *)
Fixpoint node_labels (h : gmap ptr stTree) (l : list ptr) : option (list string) :=
  match l with
  | [] => Some []
  | c :: l' =>
      match h !! c ≫= label, node_labels h l' with
      | Some s, Some rest => Some (s :: rest)
      | _, _ => None
      end
  end.

Lemma labels_of_run l w :
  labels_of l w
  = match node_labels (trees w) l with
    | Some names => (Ok names, w)
    | None => (Fault, w)
    end.
Proof.
  induction l as [|c l IH]; [reflexivity|].
  cbn [labels_of node_labels]. unfold stTree_getLabel, tree_load.
  unfold bind at 1 2. unfold ret at 1.
  destruct (trees w !! c) as [n|]; cbn; [|reflexivity].
  destruct (label n) as [s|]; cbn; [|reflexivity].
  unfold bind. rewrite IH. destruct (node_labels (trees w) l); reflexivity.
Qed.

Lemma node_labels_agree h h' l :
  (forall c, c ∈ l -> h' !! c ≫= label = h !! c ≫= label) ->
  node_labels h' l = node_labels h l.
Proof.
  induction l as [|c l IH]; intros Hagree; [reflexivity|].
  cbn [node_labels]. rewrite (Hagree c) by left.
  rewrite IH; [reflexivity|]. intros c' Hc'. apply Hagree. right. exact Hc'.
Qed.

Lemma node_labels_live h l names :
  node_labels h l = Some names -> forall c, c ∈ l -> is_Some (h !! c).
Proof.
  revert names. induction l as [|c l IH]; intros names Hrun c' Hc'; [inversion Hc'|].
  cbn [node_labels] in Hrun.
  destruct (h !! c) as [n|] eqn:Hn; [|discriminate Hrun]. cbn in Hrun.
  destruct (label n); [|discriminate Hrun].
  destruct (node_labels h l) as [rest|] eqn:Hrest; [|discriminate Hrun].
  apply elem_of_cons in Hc' as [->|Hc']; [rewrite Hn; eauto|].
  apply (IH rest eq_refl), Hc'.
Qed.

Lemma node_labels_app h l1 l2 names1 names2 :
  node_labels h l1 = Some names1 -> node_labels h l2 = Some names2 ->
  node_labels h (l1 ++ l2) = Some (names1 ++ names2).
Proof.
  revert names1. induction l1 as [|c l1 IH]; intros names1 H1 H2.
  - injection H1 as <-. exact H2.
  - cbn [node_labels app] in H1 |- *.
    destruct (h !! c ≫= label) as [s|]; [|discriminate H1].
    destruct (node_labels h l1) as [rest|]; [|discriminate H1].
    injection H1 as <-. rewrite (IH rest eq_refl H2). reflexivity.
Qed.

(** [getChildNames] as a function of the state. *)
Lemma getChildNames_run name w :
  getChildNames name w
  = match _nodeMap (self w) !! name with
    | None => (Throw NotFoundError, w)
    | Some node =>
        match trees w !! node with
        | None => (Fault, w)
        | Some n =>
            match node_labels (trees w) (nodes n) with
            | Some names => (Ok names, w)
            | None => (Fault, w)
            end
        end
    end.
Proof.
  unfold getChildNames, stTree_getChildren, tree_load. unfold bind at 1. unfold get.
  destruct (_nodeMap (self w) !! name) as [node|]; [|reflexivity].
  unfold bind at 1. unfold bind at 1.
  destruct (trees w !! node) as [n|]; [|reflexivity].
  unfold ret. apply labels_of_run.
Qed.

(** A name without a NUL character is its own C string. *)
Lemma c_str_no_nul s : Ascii.zero ∉ list_ascii_of_string s -> c_str s = s.
Proof.
  induction s as [|c s IH]; intros Hs; [reflexivity|].
  cbn [c_str list_ascii_of_string] in *. apply not_elem_of_cons in Hs as [Hc Hs].
  rewrite decide_False by congruence. rewrite IH by exact Hs. reflexivity.
Qed.

(** X12: after [addLeafGenome] on a well-formed open store, with the
    node of the parent live and labelled with the name of the parent,
    the queries see the new leaf: [getParentName] of the leaf is the
    parent, [getBranchLength] of the edge is the length given, the leaf
    has no children, its name as a C string (the name up to its first
    NUL character, the label given to the node) is the last of the
    children of the parent, and [getNumGenomes] has gone up by one. *)
Theorem addLeafGenome_then_queries (name parentName : string) (bl : float)
    (w : World) (parent : ptr) (pn : stTree)
    (Hwf : wf w) (Hopen : is_Some (_file (self w)))
    (Hn : name <> "") (Hp : parentName <> "")
    (Hname : _nodeMap (self w) !! name = None)
    (Hparent : _nodeMap (self w) !! parentName = Some parent)
    (Hlive : trees w !! parent = Some pn)
    (Hlabel : label pn = Some parentName) :
  exists g w',
    addLeafGenome name parentName bl w = (Ok g, w')
    /\ getParentName name w' = (Ok parentName, w')
    /\ getBranchLength parentName name w' = (Ok bl, w')
    /\ getChildNames name w' = (Ok [], w')
    /\ (forall kids, getChildNames parentName w = (Ok kids, w) ->
          getChildNames parentName w' = (Ok (kids ++ [c_str name]), w'))
    /\ (forall n, is_Some (_tree (self w)) -> getNumGenomes w = (Ok n, w) ->
          getNumGenomes w' = (Ok (S n), w')).
Proof.
  assert (Hfresh : parent <> nextTree w).
  { intros ->. rewrite (wf_fresh_tree w Hwf (nextTree w)) in Hlive by lia.
    discriminate Hlive. }
  assert (Hcache : _openGenomes (self w) !! name = None).
  { destruct (_openGenomes (self w) !! name) as [g|] eqn:Hg; [|reflexivity].
    destruct (wf_cache_tree w Hwf name ltac:(eauto)) as [p Hp']. congruence. }
  destruct (addLeafGenome_ok name parentName bl w parent pn)
    as (w' & Hrun & Htrees & Hmap & Htree & _); try assumption.
  assert (Hnew : trees w' !! nextTree w = Some (mkTree (Some (c_str name)) bl (Some parent) [])).
  { rewrite Htrees. simp_lookup. reflexivity. }
  assert (Hpar : trees w' !! parent
                 = Some (mkTree (label pn) (branchLength pn) (Store.parent pn)
                           (nodes pn ++ [nextTree w]))).
  { rewrite Htrees. simp_lookup. reflexivity. }
  assert (Hmapn : _nodeMap (self w') !! name = Some (nextTree w)).
  { rewrite Hmap. apply lookup_insert_eq. }
  assert (Hmapp : _nodeMap (self w') !! parentName = Some parent).
  { rewrite Hmap. rewrite lookup_insert_ne by congruence. exact Hparent. }
  exists (nextGenome w), w'. split; [exact Hrun|]. split; [|split; [|split; [|split]]].
  - unfold getParentName. unfold_heap. cbn. rewrite Hmapn. cbn.
    rewrite Hnew. cbn. rewrite Hpar. cbn. rewrite Hlabel. reflexivity.
  - unfold getBranchLength. unfold_heap. cbn. rewrite Hmapn. cbn.
    rewrite Hnew. cbn. rewrite Hpar. cbn. rewrite Hlabel.
    rewrite decide_False by (intros Hne; apply Hne; reflexivity).
    rewrite Hnew. reflexivity.
  - rewrite getChildNames_run, Hmapn, Hnew. reflexivity.
  - intros kids. rewrite !getChildNames_run, Hparent, Hmapp, Hlive, Hpar. cbn [nodes].
    destruct (node_labels (trees w) (nodes pn)) as [names|] eqn:Hold; [|discriminate].
    intros Heq. injection Heq as <-.
    rewrite (node_labels_app _ _ _ names [c_str name]); [reflexivity| |].
    + rewrite <- Hold. apply node_labels_agree.
      intros c Hc. rewrite Htrees.
      destruct (decide (c = parent)) as [->|Hc1];
        [rewrite lookup_insert_eq, Hlive; reflexivity|].
      rewrite lookup_insert_ne by congruence.
      rewrite lookup_insert_ne; [reflexivity|].
      intros <-. destruct (node_labels_live _ _ _ Hold _ Hc) as [n Hn'].
      rewrite (wf_fresh_tree w Hwf (nextTree w)) in Hn' by lia. discriminate Hn'.
    + cbn [node_labels]. rewrite Hnew. reflexivity.
  - intros n [t Ht]. unfold getNumGenomes. unfold_heap. cbn.
    rewrite Htree, Ht. intros Heq. injection Heq as <-.
    rewrite Hmap. rewrite map_size_insert_None by exact Hname. reflexivity.
Qed.

Lemma addLeafGenome_then_queries_witness :
  exists g w',
    addLeafGenome "B" "A" 2%float world_A = (Ok g, w')
    /\ getParentName "B" w' = (Ok "A"%string, w')
    /\ getBranchLength "A" "B" w' = (Ok 2%float, w')
    /\ getChildNames "B" w' = (Ok [], w')
    /\ (forall kids, getChildNames "A" world_A = (Ok kids, world_A) ->
          getChildNames "A" w' = (Ok (kids ++ ["B"%string]), w'))
    /\ (forall n, is_Some (_tree (self world_A)) ->
          getNumGenomes world_A = (Ok n, world_A) ->
          getNumGenomes w' = (Ok (S n), w')).
Proof.
  apply (addLeafGenome_then_queries "B" "A" 2%float world_A 1%nat
           (mkTree (Some "A"%string) infinity None []));
    try (vm_compute; congruence).
  - exact world_A_wf.
  - eexists. vm_compute. reflexivity.
Defined.

(** X13: after [addRootGenome] on a well-formed open store the root is
    the name as a C string (the name up to its first NUL character, the
    label given to the node), and the name has no parent.  On a store
    without a tree the name has no children; on a store with a root
    that is in the node map, the former root is its only child, has
    the C string of the name as parent and carries the branch length
    given.  [getNumGenomes] is one more than the size of the node map
    before. *)
Theorem addRootGenome_then_queries (name : string) (bl : float) (w : World)
    (Hwf : wf w) (Hopen : is_Some (_file (self w)))
    (Hn : name <> "") (Hname : _nodeMap (self w) !! name = None) :
  (_tree (self w) = None ->
   exists g w',
     addRootGenome name bl w = (Ok g, w')
     /\ getRootName w' = (Ok (c_str name), w')
     /\ getParentName name w' = (Ok ""%string, w')
     /\ getChildNames name w' = (Ok [], w')
     /\ getNumGenomes w' = (Ok (S (size (_nodeMap (self w)))), w'))
  /\ (forall root rn rname,
      _tree (self w) = Some root -> trees w !! root = Some rn ->
      label rn = Some rname -> parent rn = None ->
      _nodeMap (self w) !! rname = Some root ->
      exists g w',
        addRootGenome name bl w = (Ok g, w')
        /\ getRootName w' = (Ok (c_str name), w')
        /\ getParentName name w' = (Ok ""%string, w')
        /\ getChildNames name w' = (Ok [rname], w')
        /\ getParentName rname w' = (Ok (c_str name), w')
        /\ getBranchLength (c_str name) rname w' = (Ok bl, w')
        /\ getNumGenomes w' = (Ok (S (size (_nodeMap (self w)))), w')).
Proof.
  assert (Hcache : _openGenomes (self w) !! name = None).
  { destruct (_openGenomes (self w) !! name) as [g|] eqn:Hg; [|reflexivity].
    destruct (wf_cache_tree w Hwf name ltac:(eauto)) as [p Hp']. congruence. }
  split.
  - intros Htree.
    destruct (addRootGenome_on_null_tree name bl w)
      as (w' & Hrun & Ht' & Hnew & _ & Hmap & _); try assumption.
    assert (Hmapn : _nodeMap (self w') !! name = Some (nextTree w)).
    { rewrite Hmap. apply lookup_insert_eq. }
    exists (nextGenome w), w'. split; [exact Hrun|]. repeat split.
    + unfold getRootName. unfold_heap. cbn. rewrite Ht'. cbn. rewrite Hnew. reflexivity.
    + unfold getParentName. unfold_heap. cbn. rewrite Hmapn. cbn. rewrite Hnew.
      reflexivity.
    + rewrite getChildNames_run, Hmapn, Hnew. reflexivity.
    + unfold getNumGenomes. unfold_heap. cbn. rewrite Ht'.
      rewrite Hmap, map_size_insert_None by exact Hname. reflexivity.
  - intros root rn rname Htree Hroot Hlabel Hparent Hindex.
    assert (Hfresh : root <> nextTree w).
    { intros ->. rewrite (wf_fresh_tree w Hwf (nextTree w)) in Hroot by lia.
      discriminate Hroot. }
    destruct (addRootGenome_on_root name bl w root rn)
      as (w' & Hrun & Ht' & Hnew & Hold & _ & Hmap & _); try assumption.
    assert (Hmapn : _nodeMap (self w') !! name = Some (nextTree w)).
    { rewrite Hmap. apply lookup_insert_eq. }
    assert (Hmapr : _nodeMap (self w') !! rname = Some root).
    { rewrite Hmap. rewrite lookup_insert_ne by congruence. exact Hindex. }
    exists (nextGenome w), w'. split; [exact Hrun|]. repeat split.
    + unfold getRootName. unfold_heap. cbn. rewrite Ht'. cbn. rewrite Hnew. reflexivity.
    + unfold getParentName. unfold_heap. cbn. rewrite Hmapn. cbn. rewrite Hnew.
      reflexivity.
    + rewrite getChildNames_run, Hmapn, Hnew. cbn [nodes node_labels].
      rewrite Hold. cbn. rewrite Hlabel. reflexivity.
    + unfold getParentName. unfold_heap. cbn. rewrite Hmapr. cbn. rewrite Hold. cbn.
      rewrite Hnew. reflexivity.
    + unfold getBranchLength. unfold_heap. cbn. rewrite Hmapr. cbn. rewrite Hold. cbn.
      rewrite Hnew. cbn.
      rewrite decide_False by (intros Hne; apply Hne; reflexivity).
      rewrite Hold. reflexivity.
    + unfold getNumGenomes. unfold_heap. cbn. rewrite Ht'.
      rewrite Hmap, map_size_insert_None by exact Hname. reflexivity.
Qed.

Lemma addRootGenome_then_queries_witness :
  exists g w',
    addRootGenome "R" 4%float world_A = (Ok g, w')
    /\ getRootName w' = (Ok "R"%string, w')
    /\ getParentName "R" w' = (Ok ""%string, w')
    /\ getChildNames "R" w' = (Ok ["A"%string], w')
    /\ getParentName "A" w' = (Ok "R"%string, w')
    /\ getBranchLength "R" "A" w' = (Ok 4%float, w')
    /\ getNumGenomes w' = (Ok (S (size (_nodeMap (self world_A)))), w').
Proof.
  destruct (addRootGenome_then_queries "R" 4%float world_A) as [_ Hroot];
    try (vm_compute; congruence).
  - exact world_A_wf.
  - eexists. vm_compute. reflexivity.
  - apply (Hroot 1%nat (mkTree (Some "A"%string) infinity None []) "A"%string);
      vm_compute; reflexivity.
Defined.

(** A name with a NUL character is the key of its node whole and the
    label of its node up to the NUL: the root of the tree reads "A", a
    name that the node map does not hold. *)
Example addRootGenome_nul_name :
  let w := (addRootGenome name_A0B 1%float world_b).2 in
  c_str name_A0B = "A"%string
  /\ (addRootGenome name_A0B 1%float world_b).1 = Ok 1%nat
  /\ getRootName w = (Ok "A"%string, w)
  /\ _nodeMap (self w) !! name_A0B = Some 1%nat
  /\ _nodeMap (self w) !! "A" = None
  /\ getParentName "A" w = (Throw NotFoundError, w).
Proof. vm_compute. repeat split; reflexivity. Qed.

(** ** Closing a genome twice *)

(** X14: [closeGenome] on a genome of the cache of a well-formed open
    store returns, takes the name out of the cache and deletes the
    object; a second [closeGenome] on the same pointer reads the name
    of the deleted object: it is undefined, not the exception for a
    genome that is not open. *)
Theorem closeGenome_twice_is_undefined (name : string) (g : ptr) (w : World)
    (Hwf : wf w) (Hopen : is_Some (_file (self w)))
    (Hcached : _openGenomes (self w) !! name = Some g) :
  exists w1,
    closeGenome g w = (Ok tt, w1)
    /\ _openGenomes (self w1) = delete name (_openGenomes (self w))
    /\ genomes w1 !! g = None
    /\ closeGenome g w1 = (Fault, w1).
Proof.
  destruct (wf_cache_live w Hwf name g Hcached) as (o & Ho & Hname).
  destruct Hopen as [f Hf].
  unfold closeGenome at 1. unfold_heap. cbn.
  rewrite Ho. cbn. rewrite Hname, Hcached. cbn. rewrite Ho, Hf. cbn.
  eexists. split; [reflexivity|]. cbn. simp_lookup.
  split; [reflexivity|]. split; [reflexivity|].
  unfold closeGenome, genome_load, bind. cbn. simp_lookup. reflexivity.
Qed.

Lemma closeGenome_twice_is_undefined_witness :
  exists w1,
    closeGenome 1%nat world_A = (Ok tt, w1)
    /\ _openGenomes (self w1) = delete "A"%string (_openGenomes (self world_A))
    /\ genomes w1 !! 1%nat = None
    /\ closeGenome 1%nat w1 = (Fault, w1).
Proof.
  apply (closeGenome_twice_is_undefined "A" 1%nat world_A).
  - exact world_A_wf.
  - eexists. vm_compute. reflexivity.
  - vm_compute. reflexivity.
Defined.

(** ** The node map after [open] *)

(** The node map only grows. *)
Definition map_grows (w w' : World) : Prop :=
  forall name p, _nodeMap (self w) !! name = Some p ->
                 _nodeMap (self w') !! name = Some p.

Lemma for_each_inv {A} (body : A -> M unit) (P : World -> World -> Prop) :
  (forall w, P w w) -> (forall w1 w2 w3, P w1 w2 -> P w2 w3 -> P w1 w3) ->
  forall l,
  (forall x w w', x ∈ l -> body x w = (Ok tt, w') -> P w w') ->
  forall w w', for_each l body w = (Ok tt, w') -> P w w'.
Proof.
  intros Hrefl Htrans. induction l as [|x l IH]; intros Hbody w w' Hrun.
  - cbn in Hrun. injection Hrun as <-. apply Hrefl.
  - cbn [for_each] in Hrun. apply bind_inv in Hrun as ([] & w1 & Hx & Hrest).
    eapply Htrans.
    + apply (Hbody x w w1); [left|exact Hx].
    + apply IH; [|exact Hrest]. intros y wa wb Hy. apply Hbody. right. exact Hy.
Qed.

(** What a run of [addNodeToMap] that returns does: the heap is as
    before, the map has grown, and sound entries stay sound. *)
Definition node_map_step (w w' : World) : Prop :=
  trees w' = trees w /\ _tree (self w') = _tree (self w)
  /\ map_grows w w' /\ (indexed w -> indexed w').

Lemma node_map_step_refl w : node_map_step w w.
Proof. repeat split; try reflexivity; intros ? ?; auto. Qed.

Lemma node_map_step_trans w1 w2 w3 :
  node_map_step w1 w2 -> node_map_step w2 w3 -> node_map_step w1 w3.
Proof.
  intros (Ht1 & Hr1 & Hg1 & Hi1) (Ht2 & Hr2 & Hg2 & Hi2).
  repeat split; try congruence.
  - intros name p Hp. apply Hg2, Hg1, Hp.
  - intros Hi. apply Hi2, Hi1, Hi.
Qed.

Lemma addNodeToMap_step fuel : forall node w w',
  addNodeToMap fuel node w = (Ok tt, w') ->
  node_map_step w w'
  /\ forall n name, trees w !! node = Some n -> label n = Some name ->
       _nodeMap (self w') !! name = Some node.
Proof.
  induction fuel as [|fuel IH]; intros node w w' Hrun; [discriminate Hrun|].
  cbn [addNodeToMap] in Hrun. revert Hrun.
  unfold stTree_getLabel, stTree_getChildren, tree_load.
  unfold bind at 1 2. destruct (trees w !! node) as [n|] eqn:Hn; [|discriminate].
  unfold ret at 1. unfold bind at 1. unfold assert at 1.
  destruct (label n) as [name|] eqn:Hl; [|discriminate].
  rewrite bool_decide_eq_true_2 by discriminate.
  unfold bind at 1. unfold get. unfold bind at 1. unfold assert at 1.
  destruct (_nodeMap (self w) !! name) as [p0|] eqn:Hfree;
    [rewrite bool_decide_eq_false_2 by discriminate; discriminate|].
  rewrite bool_decide_eq_true_2 by reflexivity.
  unfold bind at 1. unfold modify at 1. unfold bind at 1 2. cbn [trees upd_self].
  rewrite Hn. unfold ret at 1. cbn [nodes].
  set (w1 := upd_self (fun a => set_nodeMap (map_insert_new name node (_nodeMap a)) a) w).
  intros Hloop.
  assert (Hmap1 : _nodeMap (self w1) = <[name := node]> (_nodeMap (self w))).
  { subst w1. cbn. apply map_insert_new_None, Hfree. }
  assert (Hstep1 : node_map_step w w1).
  { split; [reflexivity|]. split; [reflexivity|]. split.
    - intros name' p Hp. rewrite Hmap1.
      destruct (decide (name = name')) as [->|Hne]; [congruence|].
      rewrite lookup_insert_ne by exact Hne. exact Hp.
    - intros Hi name' p Hp. rewrite Hmap1 in Hp.
      change (trees w1) with (trees w).
      destruct (decide (name = name')) as [->|Hne].
      + rewrite lookup_insert_eq in Hp. injection Hp as <-. eauto.
      + rewrite lookup_insert_ne in Hp by exact Hne. apply Hi, Hp. }
  assert (Hstep2 : node_map_step w1 w').
  { revert Hloop. apply for_each_inv.
    - apply node_map_step_refl.
    - apply node_map_step_trans.
    - intros c wa wb _ Hc. apply (IH c wa wb Hc). }
  split; [eapply node_map_step_trans; eassumption|].
  intros n' name' Hn' Hl'. injection Hn' as <-.
  rewrite Hl in Hl'. injection Hl' as <-.
  destruct Hstep2 as (_ & _ & Hgrow & _). apply Hgrow. rewrite Hmap1.
  apply lookup_insert_eq.
Qed.

Section OpenIndex.
Context `{NewickCodec}.

Lemma loadTree_indexed w w' :
  loadTree w = (Ok tt, w') ->
  indexed w'
  /\ forall t n name, _tree (self w') = Some t -> trees w' !! t = Some n ->
       label n = Some name -> _nodeMap (self w') !! name = Some t.
Proof.
  unfold loadTree. unfold modify at 1. unfold bind at 1.
  unfold the_file. unfold bind at 1. cbn [self upd_self _file set_nodeMap].
  destruct (_file (self w)) as [f|]; [|discriminate].
  unfold bind at 1. unfold assert at 1.
  destruct (bool_decide (size (treeGroup f) = 1%nat)); [|discriminate].
  unfold bind at 1. unfold assert at 1.
  destruct (bool_decide (treeGroup f !! TreeGroupName <> None)); [|discriminate].
  unfold bind at 1. unfold get. unfold bind at 1.
  set (w0 := upd_self (set_nodeMap ∅) w).
  destruct (match _tree (self w0) with
            | Some t => stTree_destruct t
            | None => ret tt
            end w0) as [[[]| | | |] w1] eqn:Hfree; try discriminate.
  assert (Hmap1 : _nodeMap (self w1) = ∅).
  { destruct (_tree (self w0)); cbn in Hfree; injection Hfree as <-; reflexivity. }
  destruct (decide (default "" (treeGroup f !! TreeGroupName) = "")) as [Hempty|Hstr].
  - (* the placeholder node *)
    unfold stTree_construct, modify, bind. intros Heq. injection Heq as <-.
    split.
    + intros name p Hp. cbn in Hp. rewrite Hmap1, lookup_empty in Hp. discriminate Hp.
    + intros t n name Ht Hn Hl. cbn in Ht, Hn. injection Ht as <-.
      rewrite lookup_insert_eq in Hn. injection Hn as <-. discriminate Hl.
  - unfold stTree_parseNewickString. unfold bind at 1.
    destruct (newick_parse _ (trees w1) (nextTree w1)) as [[root h] next].
    unfold modify at 1. unfold bind at 1. unfold get. unfold bind at 1.
    match goal with |- addNodeToMap _ _ ?W = _ -> _ => set (w2 := W) end.
    intros Hrun. apply addNodeToMap_step in Hrun as [(Htrees & Htree & _ & Hidx) Hroot].
    split.
    + apply Hidx. intros name p Hp. subst w2. cbn in Hp.
      rewrite Hmap1, lookup_empty in Hp. discriminate Hp.
    + intros t n name Ht Hn Hl. rewrite Htree in Ht. subst w2. cbn in Ht.
      injection Ht as <-. rewrite Htrees in Hn. apply (Hroot n name Hn Hl).
Qed.

(** X15: when [open] returns, whatever the node map held before, every
    entry of the node map names a live node by the label of the node,
    and a root with a label is in the node map under that label. *)
Theorem open_builds_sound_index (path : string) (readOnly : bool) (w w' : World)
    (Hrun : open path readOnly w = (Ok tt, w')) :
  indexed w'
  /\ (forall t n name, _tree (self w') = Some t -> trees w' !! t = Some n ->
        label n = Some name -> _nodeMap (self w') !! name = Some t).
Proof.
  unfold open in Hrun.
  apply bind_inv in Hrun as ([] & w1 & _ & Hrun).
  apply bind_inv in Hrun as ([] & w2 & _ & Hrun).
  apply bind_inv in Hrun as (w3 & w3' & Hget & Hrun).
  destruct (disk w3 !! path) as [f|]; [|discriminate Hrun].
  apply bind_inv in Hrun as ([] & w4 & _ & Hrun).
  apply bind_inv in Hrun as ([] & w5 & _ & Hrun).
  exact (loadTree_indexed w5 w' Hrun).
Qed.

End OpenIndex.

(** ** Building a tree: the index stays sound and the queries are safe *)

(** The success cases of [addRootGenome], as states. *)
Lemma addRootGenome_ok_first (name : string) (bl : float) (w : World) :
  name <> "" -> _nodeMap (self w) !! name = None -> _tree (self w) = None ->
  _openGenomes (self w) !! name = None -> is_Some (_file (self w)) ->
  exists w',
    addRootGenome name bl w = (Ok (nextGenome w), w')
    /\ trees w' = <[nextTree w := mkTree (Some (c_str name)) infinity None []]> (trees w)
    /\ _nodeMap (self w') = <[name := nextTree w]> (_nodeMap (self w))
    /\ _tree (self w') = Some (nextTree w)
    /\ _file (self w') = _file (self w).
Proof.
  intros Hn Hname Htree Hcache [f Hf]. unfold addRootGenome.
  destruct (decide _); [contradiction|].
  unfold bind at 1. unfold get. rewrite Hname, Htree.
  unfold_heap. cbn. repeat (simp_lookup; rewrite ?Hf).
  eexists. split; [reflexivity|]. cbn. simp_lookup.
  rewrite !map_insert_new_None by assumption.
  repeat split; try reflexivity; try exact Hf.
  apply map_eq. intros q.
  destruct (decide (q = nextTree w)) as [->|Hq]; simp_lookup; reflexivity.
Qed.

Lemma addRootGenome_ok_above (name : string) (bl : float) (w : World) root rn :
  name <> "" -> _nodeMap (self w) !! name = None ->
  _tree (self w) = Some root -> trees w !! root = Some rn -> parent rn = None ->
  root <> nextTree w -> _openGenomes (self w) !! name = None ->
  is_Some (_file (self w)) ->
  exists w',
    addRootGenome name bl w = (Ok (nextGenome w), w')
    /\ trees w'
       = <[root := mkTree (label rn) bl (Some (nextTree w)) (nodes rn)]>
           (<[nextTree w := mkTree (Some (c_str name)) infinity None [root]]> (trees w))
    /\ _nodeMap (self w') = <[name := nextTree w]> (_nodeMap (self w))
    /\ _tree (self w') = Some (nextTree w)
    /\ _file (self w') = _file (self w).
Proof.
  intros Hn Hname Htree Hroot Hparent Hfresh Hcache [f Hf]. unfold addRootGenome.
  destruct (decide _); [contradiction|].
  unfold bind at 1. unfold get. rewrite Hname, Htree.
  unfold_heap. cbn. repeat (simp_lookup; rewrite ?Hroot, ?Hparent, ?Hf).
  eexists. split; [reflexivity|]. cbn. simp_lookup.
  rewrite !map_insert_new_None by assumption.
  repeat split; try reflexivity; try exact Hf.
  apply map_eq. intros q.
  destruct (decide (q = root)) as [->|Hq1]; [simp_lookup; reflexivity|].
  destruct (decide (q = nextTree w)) as [->|Hq2]; simp_lookup; reflexivity.
Qed.

Lemma wf_cache_none w name :
  wf w -> _nodeMap (self w) !! name = None -> _openGenomes (self w) !! name = None.
Proof.
  intros Hwf Hname. destruct (_openGenomes (self w) !! name) as [g|] eqn:Hg; [|reflexivity].
  destruct (wf_cache_tree w Hwf name ltac:(eauto)) as [p Hp']. congruence.
Qed.

Lemma wf_live_not_next w p n : wf w -> trees w !! p = Some n -> p <> nextTree w.
Proof.
  intros Hwf Hp ->. rewrite (wf_fresh_tree w Hwf (nextTree w)) in Hp by lia.
  discriminate Hp.
Qed.

Lemma sound_live w name p :
  sound w -> _nodeMap (self w) !! name = Some p ->
  exists n, trees w !! p = Some n /\ label n = Some (c_str name).
Proof. intros Hs. apply (sound_labelled w Hs). Qed.

Lemma addLeafGenome_sound name parentName bl w g w' :
  wf w -> sound w -> is_Some (_file (self w)) ->
  addLeafGenome name parentName bl w = (Ok g, w') ->
  sound w' /\ is_Some (_file (self w')).
Proof.
  intros Hwf Hs Hopen Hrun.
  assert (Hinv : name <> "" /\ parentName <> "" /\ _nodeMap (self w) !! name = None
                 /\ exists parent, _nodeMap (self w) !! parentName = Some parent).
  { revert Hrun. unfold addLeafGenome.
    destruct (decide _) as [|Hne]; [discriminate|].
    unfold bind at 1. unfold get.
    destruct (_nodeMap (self w) !! name); [discriminate|].
    destruct (_nodeMap (self w) !! parentName) as [parent|]; [|discriminate].
    intros _. repeat split; try tauto. eauto. }
  destruct Hinv as (Hn & Hp & Hname & parent & Hparent).
  destruct (sound_live w parentName parent Hs Hparent) as (pn & Hlive & Hlabel).
  pose proof (wf_live_not_next w parent pn Hwf Hlive) as Hfresh.
  destruct (addLeafGenome_ok name parentName bl w parent pn)
    as (w1 & Hrun1 & Htrees & Hmap & Htree & Hfile); try assumption.
  { apply wf_cache_none; assumption. }
  rewrite Hrun1 in Hrun. injection Hrun as _ <-.
  split; [|rewrite Hfile; exact Hopen].
  assert (Hold : forall q n, trees w !! q = Some n -> q <> nextTree w).
  { intros q n. apply wf_live_not_next, Hwf. }
  assert (Hkeep : forall nm q, _nodeMap (self w) !! nm = Some q ->
                    _nodeMap (self w1) !! nm = Some q).
  { intros nm q Hq. rewrite Hmap. rewrite lookup_insert_ne by congruence. exact Hq. }
  assert (Hcases : forall nm p n, _nodeMap (self w1) !! nm = Some p ->
            trees w1 !! p = Some n ->
            (nm = name /\ p = nextTree w
             /\ n = mkTree (Some (c_str name)) bl (Some parent) [])
            \/ (_nodeMap (self w) !! nm = Some parent /\ p = parent
                /\ n = mkTree (label pn) (branchLength pn) (Store.parent pn)
                         (nodes pn ++ [nextTree w]))
            \/ (_nodeMap (self w) !! nm = Some p /\ trees w !! p = Some n /\ p <> parent)).
  { intros nm p n Hm Ht. rewrite Hmap in Hm. rewrite Htrees in Ht.
    destruct (decide (name = nm)) as [<-|Hne].
    - rewrite lookup_insert_eq in Hm. injection Hm as <-.
      rewrite lookup_insert_ne, lookup_insert_eq in Ht by congruence.
      injection Ht as <-. left. auto.
    - rewrite lookup_insert_ne in Hm by exact Hne. right.
      destruct (sound_live w nm p Hs Hm) as (n0 & Hn0 & Hl0).
      destruct (decide (p = parent)) as [->|Hpp].
      + rewrite lookup_insert_eq in Ht. injection Ht as <-. left. auto.
      + right. rewrite !lookup_insert_ne in Ht by (pose proof (Hold p n0 Hn0); congruence).
        auto. }
  split.
  - intros nm p Hm.
    assert (Hp' : is_Some (trees w1 !! p)).
    { rewrite Hmap in Hm. rewrite Htrees.
      destruct (decide (name = nm)) as [<-|Hne].
      - rewrite lookup_insert_eq in Hm. injection Hm as <-.
        rewrite lookup_insert_ne, lookup_insert_eq by congruence. eauto.
      - rewrite lookup_insert_ne in Hm by exact Hne.
        destruct (sound_live w nm p Hs Hm) as (n0 & Hn0 & _).
        destruct (decide (p = parent)) as [->|Hpp]; [rewrite lookup_insert_eq; eauto|].
        rewrite !lookup_insert_ne by (pose proof (Hold p n0 Hn0); congruence). eauto. }
    destruct Hp' as [n Hn']. exists n. split; [exact Hn'|].
    destruct (Hcases nm p n Hm Hn') as [(-> & -> & ->)|[(Hm0 & -> & ->)|(Hm0 & Hn0 & _)]].
    + reflexivity.
    + destruct (sound_live w nm parent Hs Hm0) as (n0 & Hn0' & Hl0). cbn [label].
      congruence.
    + destruct (sound_live w nm p Hs Hm0) as (n0 & Hn0' & Hl0). congruence.
  - intros nm p n q Hm Hn' Hq.
    destruct (Hcases nm p n Hm Hn') as [(-> & -> & ->)|[(Hm0 & -> & ->)|(Hm0 & Hn0 & _)]].
    + cbn in Hq. injection Hq as <-. exists parentName. apply Hkeep, Hparent.
    + cbn in Hq. destruct (sound_parent w Hs nm parent pn q Hm0 Hlive Hq)
        as [qname Hqn]. exists qname. apply Hkeep, Hqn.
    + destruct (sound_parent w Hs nm p n q Hm0 Hn0 Hq) as [qname Hqn].
      exists qname. apply Hkeep, Hqn.
  - intros nm p n c Hm Hn' Hc.
    destruct (Hcases nm p n Hm Hn') as [(-> & -> & ->)|[(Hm0 & -> & ->)|(Hm0 & Hn0 & _)]].
    + inversion Hc.
    + cbn in Hc. apply elem_of_app in Hc as [Hc|Hc].
      * destruct (sound_children w Hs nm parent pn c Hm0 Hlive Hc)
          as [cname Hcn]. exists cname. apply Hkeep, Hcn.
      * apply list_elem_of_singleton in Hc as ->. exists name. rewrite Hmap.
        apply lookup_insert_eq.
    + destruct (sound_children w Hs nm p n c Hm0 Hn0 Hc) as [cname Hcn].
      exists cname. apply Hkeep, Hcn.
  - intros root Hroot. rewrite Htree in Hroot.
    destruct (sound_root w Hs root Hroot) as (rname & n & Hrm & Hrn & Hrp).
    exists rname. rewrite Htrees.
    destruct (decide (root = parent)) as [->|Hrp'].
    + eexists. split; [apply Hkeep, Hrm|]. rewrite lookup_insert_eq.
      split; [reflexivity|]. cbn. congruence.
    + exists n. split; [apply Hkeep, Hrm|].
      rewrite !lookup_insert_ne by (pose proof (Hold root n Hrn); congruence).
      auto.
Qed.

Lemma addRootGenome_sound name bl w g w' :
  wf w -> sound w -> is_Some (_file (self w)) ->
  addRootGenome name bl w = (Ok g, w') ->
  sound w' /\ is_Some (_file (self w')).
Proof.
  intros Hwf Hs Hopen Hrun.
  assert (Hinv : name <> "" /\ _nodeMap (self w) !! name = None).
  { revert Hrun. unfold addRootGenome.
    destruct (decide _) as [|Hne]; [discriminate|].
    unfold bind at 1. unfold get.
    destruct (_nodeMap (self w) !! name); [discriminate|]. auto. }
  destruct Hinv as (Hn & Hname).
  pose proof (wf_cache_none w name Hwf Hname) as Hcache.
  assert (Hold : forall q n, trees w !! q = Some n -> q <> nextTree w).
  { intros q n. apply wf_live_not_next, Hwf. }
  destruct (_tree (self w)) as [root|] eqn:Htree.
  - destruct (sound_root w Hs root Htree) as (rname & rn & Hrm & Hrn & Hrp).
    destruct (addRootGenome_ok_above name bl w root rn)
      as (w1 & Hrun1 & Htrees & Hmap & Htree1 & Hfile); try assumption.
    { eapply Hold, Hrn. }
    rewrite Hrun1 in Hrun. injection Hrun as _ <-.
    split; [|rewrite Hfile; exact Hopen].
    assert (Hkeep : forall nm q, _nodeMap (self w) !! nm = Some q ->
                      _nodeMap (self w1) !! nm = Some q).
    { intros nm q Hq. rewrite Hmap. rewrite lookup_insert_ne by congruence. exact Hq. }
    assert (Hcases : forall nm p n, _nodeMap (self w1) !! nm = Some p ->
              trees w1 !! p = Some n ->
              (nm = name /\ p = nextTree w
               /\ n = mkTree (Some (c_str name)) infinity None [root])
              \/ (_nodeMap (self w) !! nm = Some root /\ p = root
                  /\ n = mkTree (label rn) bl (Some (nextTree w)) (nodes rn))
              \/ (_nodeMap (self w) !! nm = Some p /\ trees w !! p = Some n)).
    { intros nm p n Hm Ht. rewrite Hmap in Hm. rewrite Htrees in Ht.
      destruct (decide (name = nm)) as [<-|Hne].
      - rewrite lookup_insert_eq in Hm. injection Hm as <-.
        rewrite lookup_insert_ne, lookup_insert_eq in Ht
          by (pose proof (Hold root rn Hrn); congruence).
        injection Ht as <-. left. auto.
      - rewrite lookup_insert_ne in Hm by exact Hne. right.
        destruct (sound_live w nm p Hs Hm) as (n0 & Hn0 & Hl0).
        destruct (decide (p = root)) as [->|Hpp].
        + rewrite lookup_insert_eq in Ht. injection Ht as <-. left. auto.
        + right. rewrite !lookup_insert_ne in Ht
            by (pose proof (Hold p n0 Hn0); congruence).
          auto. }
    split.
    + intros nm p Hm.
      assert (Hp' : is_Some (trees w1 !! p)).
      { rewrite Hmap in Hm. rewrite Htrees.
        destruct (decide (name = nm)) as [<-|Hne].
        - rewrite lookup_insert_eq in Hm. injection Hm as <-.
          rewrite lookup_insert_ne, lookup_insert_eq
            by (pose proof (Hold root rn Hrn); congruence).
          eauto.
        - rewrite lookup_insert_ne in Hm by exact Hne.
          destruct (sound_live w nm p Hs Hm) as (n0 & Hn0 & _).
          destruct (decide (p = root)) as [->|Hpp]; [rewrite lookup_insert_eq; eauto|].
          rewrite !lookup_insert_ne by (pose proof (Hold p n0 Hn0); congruence). eauto. }
      destruct Hp' as [n Hn']. exists n. split; [exact Hn'|].
      destruct (Hcases nm p n Hm Hn') as [(-> & -> & ->)|[(Hm0 & -> & ->)|(Hm0 & Hn0)]].
      * reflexivity.
      * destruct (sound_live w nm root Hs Hm0) as (n0 & Hn0' & Hl0). cbn [label].
        congruence.
      * destruct (sound_live w nm p Hs Hm0) as (n0 & Hn0' & Hl0). congruence.
    + intros nm p n q Hm Hn' Hq.
      destruct (Hcases nm p n Hm Hn') as [(-> & -> & ->)|[(Hm0 & -> & ->)|(Hm0 & Hn0)]].
      * discriminate Hq.
      * cbn in Hq. injection Hq as <-. exists name. rewrite Hmap. apply lookup_insert_eq.
      * destruct (sound_parent w Hs nm p n q Hm0 Hn0 Hq) as [qname Hqn].
        exists qname. apply Hkeep, Hqn.
    + intros nm p n c Hm Hn' Hc.
      destruct (Hcases nm p n Hm Hn') as [(-> & -> & ->)|[(Hm0 & -> & ->)|(Hm0 & Hn0)]].
      * cbn in Hc. apply list_elem_of_singleton in Hc as ->.
        exists rname. apply Hkeep, Hrm.
      * cbn in Hc. destruct (sound_children w Hs nm root rn c Hm0 Hrn Hc)
          as [cname Hcn]. exists cname. apply Hkeep, Hcn.
      * destruct (sound_children w Hs nm p n c Hm0 Hn0 Hc) as [cname Hcn].
        exists cname. apply Hkeep, Hcn.
    + intros root' Hroot'. rewrite Htree1 in Hroot'. injection Hroot' as <-.
      exists name. eexists. split; [rewrite Hmap; apply lookup_insert_eq|].
      rewrite Htrees.
      rewrite lookup_insert_ne, lookup_insert_eq
        by (pose proof (Hold root rn Hrn); congruence).
      split; reflexivity.
  - destruct (addRootGenome_ok_first name bl w)
      as (w1 & Hrun1 & Htrees & Hmap & Htree1 & Hfile); try assumption.
    rewrite Hrun1 in Hrun. injection Hrun as _ <-.
    split; [|rewrite Hfile; exact Hopen].
    assert (Hkeep : forall nm q, _nodeMap (self w) !! nm = Some q ->
                      _nodeMap (self w1) !! nm = Some q).
    { intros nm q Hq. rewrite Hmap. rewrite lookup_insert_ne by congruence. exact Hq. }
    assert (Hcases : forall nm p n, _nodeMap (self w1) !! nm = Some p ->
              trees w1 !! p = Some n ->
              (nm = name /\ p = nextTree w /\ n = mkTree (Some (c_str name)) infinity None [])
              \/ (_nodeMap (self w) !! nm = Some p /\ trees w !! p = Some n)).
    { intros nm p n Hm Ht. rewrite Hmap in Hm. rewrite Htrees in Ht.
      destruct (decide (name = nm)) as [<-|Hne].
      - rewrite lookup_insert_eq in Hm. injection Hm as <-.
        rewrite lookup_insert_eq in Ht. injection Ht as <-. left. auto.
      - rewrite lookup_insert_ne in Hm by exact Hne. right.
        destruct (sound_live w nm p Hs Hm) as (n0 & Hn0 & Hl0).
        rewrite lookup_insert_ne in Ht by (pose proof (Hold p n0 Hn0); congruence).
        auto. }
    split.
    + intros nm p Hm.
      assert (Hp' : is_Some (trees w1 !! p)).
      { rewrite Hmap in Hm. rewrite Htrees.
        destruct (decide (name = nm)) as [<-|Hne].
        - rewrite lookup_insert_eq in Hm. injection Hm as <-.
          rewrite lookup_insert_eq. eauto.
        - rewrite lookup_insert_ne in Hm by exact Hne.
          destruct (sound_live w nm p Hs Hm) as (n0 & Hn0 & _).
          rewrite lookup_insert_ne by (pose proof (Hold p n0 Hn0); congruence). eauto. }
      destruct Hp' as [n Hn']. exists n. split; [exact Hn'|].
      destruct (Hcases nm p n Hm Hn') as [(-> & -> & ->)|(Hm0 & Hn0)]; [reflexivity|].
      destruct (sound_live w nm p Hs Hm0) as (n0 & Hn0' & Hl0). congruence.
    + intros nm p n q Hm Hn' Hq.
      destruct (Hcases nm p n Hm Hn') as [(-> & -> & ->)|(Hm0 & Hn0)]; [discriminate Hq|].
      destruct (sound_parent w Hs nm p n q Hm0 Hn0 Hq) as [qname Hqn].
      exists qname. apply Hkeep, Hqn.
    + intros nm p n c Hm Hn' Hc.
      destruct (Hcases nm p n Hm Hn') as [(-> & -> & ->)|(Hm0 & Hn0)]; [inversion Hc|].
      destruct (sound_children w Hs nm p n c Hm0 Hn0 Hc) as [cname Hcn].
      exists cname. apply Hkeep, Hcn.
    + intros root' Hroot'. rewrite Htree1 in Hroot'. injection Hroot' as <-.
      exists name. eexists. split; [rewrite Hmap; apply lookup_insert_eq|].
      rewrite Htrees, lookup_insert_eq. split; reflexivity.
Qed.

(** The operations on genome objects leave the tree and its index
    alone and keep the container open. *)
Record genomes_only (w w' : World) : Prop := {
  go_trees : trees w' = trees w;
  go_nodeMap : _nodeMap (self w') = _nodeMap (self w);
  go_tree : _tree (self w') = _tree (self w);
  go_file : is_Some (_file (self w)) -> is_Some (_file (self w'))
}.

#[local] Instance genomes_only_refl : Reflexive genomes_only.
Proof. intros w. split; auto. Qed.

#[local] Instance genomes_only_trans : Transitive genomes_only.
Proof. intros w1 w2 w3 [] []. split; try congruence; auto. Qed.

Lemma genomes_only_openGenome name : preserves genomes_only (openGenome name).
Proof.
  unfold openGenome, HDF5Genome_new, HDF5Genome_read, alloc_genome.
  preserves_tac ltac:(split; cbn; auto).
Qed.

Lemma genomes_only_closeGenome g : preserves genomes_only (closeGenome g).
Proof.
  unfold closeGenome, HDF5Genome_write, HDF5Genome_delete, put_file.
  preserves_tac ltac:(split; cbn; eauto).
Qed.

Lemma genomes_only_sound w w' : genomes_only w w' -> sound w -> sound w'.
Proof.
  intros [Ht Hm Hr _] [Hi Hp Hc Hroot].
  split; unfold labelled; rewrite ?Ht, ?Hm, ?Hr; assumption.
Qed.

Section Building.
Context `{NewickCodec}.

Lemma building_reachable w : building w -> reachable w.
Proof.
  induction 1 as [d path w' Hrun|name bl w o w' _ IH Hrun Ho
                  |name pn bl w o w' _ IH Hrun Ho|name w o w' _ IH Hrun Ho
                  |g w o w' _ IH Hrun Ho].
  - eapply reach_createNew; [apply (reach_new d)|exact Hrun|exact I].
  - eapply reach_addRootGenome; eassumption.
  - eapply reach_addLeafGenome; eassumption.
  - eapply reach_openGenome; eassumption.
  - eapply reach_closeGenome; eassumption.
Qed.

Lemma building_sound w : building w -> sound w /\ is_Some (_file (self w)).
Proof.
  induction 1 as [d path w' Hrun|name bl w o w' Hb [IHs IHf] Hrun Ho
                  |name pn bl w o w' Hb [IHs IHf] Hrun Ho
                  |name w o w' Hb [IHs IHf] Hrun Ho
                  |g w o w' Hb [IHs IHf] Hrun Ho].
  - destruct (createNew_spec path (World_new d) (wf_new d))
      as (w1 & Hrun1 & _ & _ & Hf & Ht & _ & Hm).
    rewrite Hrun1 in Hrun. injection Hrun as <-.
    split; [|rewrite Hf; eauto].
    split.
    + intros name p Hp. rewrite Hm in Hp. cbn in Hp. rewrite lookup_empty in Hp.
      discriminate Hp.
    + intros name p n q Hp. rewrite Hm in Hp. cbn in Hp. rewrite lookup_empty in Hp.
      discriminate Hp.
    + intros name p n c Hp. rewrite Hm in Hp. cbn in Hp. rewrite lookup_empty in Hp.
      discriminate Hp.
    + intros root Hroot. rewrite Ht in Hroot. discriminate Hroot.
  - pose proof (reachable_wf w (building_reachable w Hb)) as Hwf.
    destruct o as [g|e| | |]; try contradiction.
    + apply (addRootGenome_sound name bl w g w' Hwf IHs IHf Hrun).
    + rewrite (addRootGenome_throw name bl w e w' Hrun). auto.
  - pose proof (reachable_wf w (building_reachable w Hb)) as Hwf.
    destruct o as [g|e| | |]; try contradiction.
    + apply (addLeafGenome_sound name pn bl w g w' Hwf IHs IHf Hrun).
    + rewrite (addLeafGenome_throw name pn bl w e w' Hrun). auto.
  - pose proof (preserves_run _ _ _ _ _ (genomes_only_openGenome name) Hrun) as Hfr.
    split; [exact (genomes_only_sound _ _ Hfr IHs)|apply (go_file _ _ Hfr), IHf].
  - pose proof (preserves_run _ _ _ _ _ (genomes_only_closeGenome g) Hrun) as Hfr.
    split; [exact (genomes_only_sound _ _ Hfr IHs)|apply (go_file _ _ Hfr), IHf].
Qed.

End Building.

Lemma node_labels_some h l :
  (forall c, c ∈ l -> exists n, h !! c = Some n /\ is_Some (label n)) ->
  is_Some (node_labels h l).
Proof.
  induction l as [|c l IH]; intros Hall; [cbn; eauto|].
  cbn [node_labels]. destruct (Hall c ltac:(left)) as (n & Hn & [s Hs]).
  rewrite Hn. cbn. rewrite Hs.
  destruct IH as [rest Hrest]; [intros c' Hc'; apply Hall; right; exact Hc'|].
  rewrite Hrest. eauto.
Qed.

Lemma sound_getRootName w : sound w -> safe (getRootName w).1.
Proof.
  intros Hs. unfold getRootName. unfold_heap. cbn.
  destruct (_tree (self w)) as [root|] eqn:Ht; [|split; discriminate].
  destruct (sound_root w Hs root Ht) as (rname & n & Hm & Hn & _).
  destruct (sound_live w rname root Hs Hm) as (n0 & Hn0 & Hl0).
  rewrite Hn0. cbn. rewrite Hl0. split; discriminate.
Qed.

Lemma sound_getParentName w name : sound w -> safe (getParentName name w).1.
Proof.
  intros Hs. unfold getParentName. unfold_heap. cbn.
  destruct (_nodeMap (self w) !! name) as [p|] eqn:Hm; [|split; discriminate].
  destruct (sound_live w name p Hs Hm) as (n & Hn & Hl). cbn. rewrite Hn. cbn.
  destruct (parent n) as [q|] eqn:Hq; [|split; discriminate].
  destruct (sound_parent w Hs name p n q Hm Hn Hq) as [qname Hqm].
  destruct (sound_live w qname q Hs Hqm) as (qn & Hqn & Hql).
  rewrite Hqn. cbn. rewrite Hql. split; discriminate.
Qed.

Lemma sound_getBranchLength w parentName childName :
  sound w -> safe (getBranchLength parentName childName w).1.
Proof.
  intros Hs. unfold getBranchLength. unfold_heap. cbn.
  destruct (_nodeMap (self w) !! childName) as [p|] eqn:Hm; [|split; discriminate].
  destruct (sound_live w childName p Hs Hm) as (n & Hn & Hl). cbn. rewrite Hn. cbn.
  destruct (parent n) as [q|] eqn:Hq; [|split; discriminate].
  destruct (sound_parent w Hs childName p n q Hm Hn Hq) as [qname Hqm].
  destruct (sound_live w qname q Hs Hqm) as (qn & Hqn & Hql).
  rewrite Hqn. cbn. rewrite Hql.
  destruct (decide _); [split; discriminate|]. rewrite Hn. split; discriminate.
Qed.

Lemma sound_getChildNames w name : sound w -> safe (getChildNames name w).1.
Proof.
  intros Hs. rewrite getChildNames_run.
  destruct (_nodeMap (self w) !! name) as [p|] eqn:Hm; [|split; discriminate].
  destruct (sound_live w name p Hs Hm) as (n & Hn & Hl). rewrite Hn.
  destruct (node_labels_some (trees w) (nodes n)) as [names Hnames].
  { intros c Hc. destruct (sound_children w Hs name p n c Hm Hn Hc) as [cname Hcm].
    destruct (sound_live w cname c Hs Hcm) as (cn & Hcn & Hcl). eauto. }
  rewrite Hnames. split; discriminate.
Qed.

Lemma safe_getLeafNamesBelow_loop w name fuel : forall q leaves,
  (forall n, safe (getChildNames n w).1) ->
  safe (getLeafNamesBelow_loop fuel name q leaves w).1.
Proof.
  induction fuel as [|fuel IH]; intros q leaves Hsafe; [split; discriminate|].
  cbn [getLeafNamesBelow_loop]. destruct q as [|current rest]; [split; discriminate|].
  unfold bind. pose proof (Hsafe current) as [Hf Ha].
  pose proof (getChildNames_unchanged current w) as Hw.
  destruct (getChildNames current w) as [[kids|e| | |] w1]; cbn in *;
    try (split; discriminate); try contradiction.
  subst w1. apply IH, Hsafe.
Qed.

Section BuildingSafe.
Context `{NewickCodec}.

(** While an alignment is built, a store without a tree has an empty
    node map: the [assert] of [getNumGenomes]. *)
Lemma building_empty w :
  building w -> _tree (self w) = None -> _nodeMap (self w) = ∅.
Proof.
  induction 1 as [d path w' Hrun|name bl w o w' Hb IH Hrun Ho
                  |name pn bl w o w' Hb IH Hrun Ho
                  |name w o w' Hb IH Hrun Ho
                  |g w o w' Hb IH Hrun Ho]; intros Hnone.
  - destruct (createNew_spec path (World_new d) (wf_new d))
      as (w1 & Hrun1 & _ & _ & _ & _ & _ & Hm).
    rewrite Hrun1 in Hrun. injection Hrun as <-. exact Hm.
  - pose proof (reachable_wf w (building_reachable w Hb)) as Hwf.
    destruct (building_sound w Hb) as [Hs Hf].
    destruct o as [g|e| | |]; try contradiction.
    + exfalso. revert Hrun Hnone. unfold addRootGenome.
      destruct (decide _) as [|Hn]; [discriminate|].
      unfold bind at 1. unfold get.
      destruct (_nodeMap (self w) !! name) eqn:Hname; [discriminate|].
      pose proof (wf_cache_none w name Hwf Hname) as Hcache.
      intros Hrun.
      assert (Hsome : is_Some (_tree (self w'))); [|intros Hn'; rewrite Hn' in Hsome;
                                                     destruct Hsome; discriminate].
      assert (Hrun' : addRootGenome name bl w = (Ok g, w')).
      { unfold addRootGenome. rewrite decide_False by exact Hn.
        unfold bind at 1. unfold get. rewrite Hname. exact Hrun. }
      clear Hrun.
      destruct (_tree (self w)) as [root|] eqn:Htree.
      * destruct (sound_root w Hs root Htree) as (rname & rn & Hrm & Hrn & Hrp).
        destruct (addRootGenome_ok_above name bl w root rn)
          as (w1 & Hrun1 & _ & _ & Htree1 & _); try assumption.
        { eapply wf_live_not_next; eassumption. }
        rewrite Hrun1 in Hrun'. injection Hrun' as _ <-. rewrite Htree1. eauto.
      * destruct (addRootGenome_ok_first name bl w)
          as (w1 & Hrun1 & _ & _ & Htree1 & _); try assumption.
        rewrite Hrun1 in Hrun'. injection Hrun' as _ <-. rewrite Htree1. eauto.
    + rewrite (addRootGenome_throw name bl w e w' Hrun) in Hnone |- *. apply IH, Hnone.
  - pose proof (reachable_wf w (building_reachable w Hb)) as Hwf.
    destruct (building_sound w Hb) as [Hs Hf].
    destruct o as [g|e| | |]; try contradiction.
    + exfalso.
      assert (Hinv : _nodeMap (self w) !! name = None
                     /\ name <> "" /\ pn <> ""
                     /\ exists parent, _nodeMap (self w) !! pn = Some parent).
      { revert Hrun. unfold addLeafGenome.
        destruct (decide _) as [|Hne]; [discriminate|].
        unfold bind at 1. unfold get.
        destruct (_nodeMap (self w) !! name); [discriminate|].
        destruct (_nodeMap (self w) !! pn) as [parent|]; [|discriminate].
        intros _. repeat split; try tauto. eauto. }
      destruct Hinv as (Hname & Hn & Hp & parent & Hparent).
      destruct (sound_live w pn parent Hs Hparent) as (pnode & Hlive & _).
      destruct (addLeafGenome_ok name pn bl w parent pnode)
        as (w1 & Hrun1 & _ & _ & Htree1 & _); try assumption.
      { eapply wf_live_not_next; eassumption. }
      { apply wf_cache_none; assumption. }
      rewrite Hrun1 in Hrun. injection Hrun as _ <-.
      rewrite Htree1 in Hnone. rewrite (IH Hnone), lookup_empty in Hparent.
      discriminate Hparent.
    + rewrite (addLeafGenome_throw name pn bl w e w' Hrun) in Hnone |- *. apply IH, Hnone.
  - pose proof (preserves_run _ _ _ _ _ (genomes_only_openGenome name) Hrun) as [_ Hm Ht _].
    rewrite Hm. apply IH. rewrite <- Ht. exact Hnone.
  - pose proof (preserves_run _ _ _ _ _ (genomes_only_closeGenome g) Hrun) as [_ Hm Ht _].
    rewrite Hm. apply IH. rewrite <- Ht. exact Hnone.
Qed.

(** X16: while an alignment is built ([createNew] on a store as
    constructed, then any calls of [addRootGenome], [addLeafGenome],
    [openGenome] and [closeGenome] that return or throw) the node map
    is sound: its entries point to live nodes, each labelled with the
    name of its entry as a C string, and it holds the parents, the
    children and the root.  So the tree queries end without undefined
    behaviour and without a failed [assert]: they return or throw (or,
    for [getLeafNamesBelow], use up the fuel), and the [assert] of
    [getNumGenomes] holds. *)
Theorem queries_are_safe_while_building (w : World) (Hb : building w) :
  safe (getRootName w).1
  /\ (forall name, safe (getParentName name w).1)
  /\ (forall parentName childName, safe (getBranchLength parentName childName w).1)
  /\ (forall name, safe (getChildNames name w).1)
  /\ (forall fuel name, safe (getLeafNamesBelow fuel name w).1)
  /\ (exists n, getNumGenomes w = (Ok n, w))
  /\ sound w.
Proof.
  destruct (building_sound w Hb) as [Hs _].
  split; [apply sound_getRootName, Hs|].
  split; [intros name; apply sound_getParentName, Hs|].
  split; [intros p c; apply sound_getBranchLength, Hs|].
  split; [intros name; apply sound_getChildNames, Hs|].
  split.
  { intros fuel name. apply safe_getLeafNamesBelow_loop.
    intros n. apply sound_getChildNames, Hs. }
  split; [|exact Hs].
  unfold getNumGenomes. unfold_heap. cbn.
  destruct (_tree (self w)) as [t|] eqn:Ht; [eauto|].
  rewrite (building_empty w Hb Ht). cbn. eauto.
Qed.

End BuildingSafe.

Lemma world_ABC_building : building (H := label_codec) world_ABC.
Proof.
  unfold world_ABC, world_A.
  destruct (createNew (H := label_codec) "a.hal" world0) as [o0 w0] eqn:H0.
  assert (Ho0 : o0 = Ok tt) by (apply (f_equal fst) in H0; vm_compute in H0; congruence).
  subst o0. rewrite (bind_Ok _ _ _ _ _ H0).
  assert (Hw0 : w0 = (createNew (H := label_codec) "a.hal" world0).2)
    by (rewrite H0; reflexivity).
  destruct (addRootGenome "A" 1%float w0) as [oA wA] eqn:HA. cbn [snd].
  assert (HwA : wA = (addRootGenome "A" 1%float w0).2) by (rewrite HA; reflexivity).
  destruct (addLeafGenome "B" "A" 2%float wA) as [o1 w1] eqn:H1.
  assert (Hw1 : w1 = (addLeafGenome "B" "A" 2%float wA).2) by (rewrite H1; reflexivity).
  assert (Ho1 : exists g, o1 = Ok g).
  { apply (f_equal fst) in H1. rewrite HwA, Hw0 in H1. vm_compute in H1. subst o1. eauto. }
  destruct Ho1 as [g1 ->]. rewrite (bind_Ok _ _ _ _ _ H1).
  destruct (addLeafGenome "C" "A" 3%float w1) as [o2 w2] eqn:H2. cbn [snd].
  eapply build_addLeafGenome; [|exact H2|].
  - eapply build_addLeafGenome; [|exact H1|exact I].
    eapply build_addRootGenome; [|exact HA|].
    + eapply (build_createNew ∅). exact H0.
    + apply (f_equal fst) in HA. rewrite Hw0 in HA. vm_compute in HA. subst oA. exact I.
  - apply (f_equal fst) in H2. rewrite Hw1, HwA, Hw0 in H2. vm_compute in H2.
    subst o2. exact I.
Qed.

Lemma queries_are_safe_while_building_witness :
  safe (getRootName world_ABC).1
  /\ (forall name, safe (getParentName name world_ABC).1)
  /\ (forall parentName childName,
        safe (getBranchLength parentName childName world_ABC).1)
  /\ (forall name, safe (getChildNames name world_ABC).1)
  /\ (forall fuel name, safe (getLeafNamesBelow fuel name world_ABC).1)
  /\ (exists n, getNumGenomes world_ABC = (Ok n, world_ABC))
  /\ sound world_ABC.
Proof.
  apply (queries_are_safe_while_building (H := label_codec) world_ABC).
  exact world_ABC_building.
Defined.

(** ** The tree string and the new container *)

Section Persistence.
Context `{NewickCodec}.

(** X17: [writeTree] does nothing when the flag is clear; with the
    flag set and no container its [assert] fails; with the flag set and
    a container it stores, under the key "Phylogeny", the string that
    [getNewickTree] returns, and leaves the flag, the tree and the heap
    as they are. *)
Theorem writeTree_cases (w : World) :
  (_dirty (self w) = false -> writeTree w = (Ok tt, w))
  /\ (_dirty (self w) = true -> _file (self w) = None ->
      writeTree w = (AssertFail, w))
  /\ (forall f, _dirty (self w) = true -> _file (self w) = Some f ->
      exists s w',
        getNewickTree w = (Ok s, w)
        /\ writeTree w = (Ok tt, w')
        /\ _file (self w')
           = Some (mkFile (filePath f) (metaGroup f)
                     (<[TreeGroupName := s]> (treeGroup f)) (genomeGroups f))
        /\ ioLog w' = ioLog w ++ [WriteTree s]
        /\ _dirty (self w') = true
        /\ trees w' = trees w /\ _tree (self w') = _tree (self w)).
Proof.
  split; [|split].
  - intros Hd. unfold writeTree. unfold_heap. cbn. rewrite Hd. reflexivity.
  - intros Hd Hf. unfold writeTree. unfold_heap. cbn. rewrite Hd, Hf. reflexivity.
  - intros f Hd Hf. exists (tree_string w), (written w).
    split; [|split; [apply writeTree_ok; rewrite Hf; eauto|]].
    + unfold getNewickTree, tree_string. unfold_heap. cbn.
      destruct (_tree (self w)); reflexivity.
    + unfold written. rewrite Hd, Hf. cbn. rewrite Hd. repeat split; reflexivity.
Qed.


End Persistence.


Lemma open_builds_sound_index_witness :
  exists w',
    open (H := label_codec) "a.hal" false (session_A world0).2 = (Ok tt, w')
    /\ indexed w'
    /\ (forall t n name, _tree (self w') = Some t -> trees w' !! t = Some n ->
          label n = Some name -> _nodeMap (self w') !! name = Some t).
Proof.
  destruct (open (H := label_codec) "a.hal" false (session_A world0).2)
    as [o w'] eqn:Hrun.
  assert (Ho : o = Ok tt).
  { apply (f_equal fst) in Hrun. vm_compute in Hrun. congruence. }
  subst o. exists w'. split; [reflexivity|].
  exact (open_builds_sound_index (H := label_codec) "a.hal" false
           (session_A world0).2 w' Hrun).
Defined.

(** ** A genome that was added is open *)

Section Added.
Context `{NewickCodec}.

(** The genome part of the state after an [add...Genome] that returned. *)
Lemma addRootGenome_cache name bl w g w' :
  wf w -> addRootGenome name bl w = (Ok g, w') ->
  g = nextGenome w
  /\ _openGenomes (self w') = <[name := g]> (_openGenomes (self w))
  /\ genomes w' = <[g := mkGenome name ""]> (genomes w)
  /\ ioLog w' = ioLog w.
Proof.
  intros Hwf Hrun.
  unfold addRootGenome in Hrun. destruct (decide (name = "")); [discriminate Hrun|].
  apply bind_inv in Hrun as (w0 & w0' & Hget & Hrun). injection Hget as <- <-.
  destruct (_nodeMap (self w) !! name) eqn:Hname; [discriminate Hrun|].
  apply bind_inv in Hrun as (node & w1 & H1 & Hrun).
  apply bind_inv in Hrun as ([] & w2 & H2 & Hrun).
  apply bind_inv in Hrun as ([] & w3 & H3 & Hrun).
  assert (Hfr : tree_only w w3).
  { etransitivity; [apply (preserves_run _ _ _ _ _ tree_only_construct H1)|].
    etransitivity; [apply (preserves_run _ _ _ _ _ (tree_only_setLabel _ _) H2)|].
    revert H3. destruct (_tree (self w)).
    - apply preserves_run. unfold stTree_setParent, stTree_setBranchLength.
      preserves_tac ltac:(split; reflexivity).
    - intros Heq. injection Heq as <-. reflexivity. }
  destruct Hfr as [Hself Hgen Hng Hdisk Hlog].
  pose proof (wf_cache_none w name Hwf Hname) as Hcache.
  revert Hrun. unfold_heap. cbn.
  destruct (_file (self w3)) as [f|] eqn:Hf; cbn; [|discriminate].
  intros Heq. injection Heq as <- <-. cbn.
  rewrite Hself, Hgen, Hng, Hlog. rewrite map_insert_new_None by exact Hcache.
  repeat split; reflexivity.
Qed.

Lemma addLeafGenome_cache name parentName bl w g w' :
  wf w -> addLeafGenome name parentName bl w = (Ok g, w') ->
  g = nextGenome w
  /\ _openGenomes (self w') = <[name := g]> (_openGenomes (self w))
  /\ genomes w' = <[g := mkGenome name ""]> (genomes w)
  /\ ioLog w' = ioLog w.
Proof.
  intros Hwf Hrun.
  unfold addLeafGenome in Hrun. destruct (decide _); [discriminate Hrun|].
  apply bind_inv in Hrun as (w0 & w0' & Hget & Hrun). injection Hget as <- <-.
  destruct (_nodeMap (self w) !! name) eqn:Hname; [discriminate Hrun|].
  destruct (_nodeMap (self w) !! parentName) as [parent|]; [|discriminate Hrun].
  apply bind_inv in Hrun as (node & w1 & H1 & Hrun).
  apply bind_inv in Hrun as ([] & w2 & H2 & Hrun).
  apply bind_inv in Hrun as ([] & w3 & H3 & Hrun).
  apply bind_inv in Hrun as ([] & w4 & H4 & Hrun).
  assert (Hfr : tree_only w w4).
  { etransitivity; [apply (preserves_run _ _ _ _ _ tree_only_construct H1)|].
    etransitivity; [apply (preserves_run _ _ _ _ _ (tree_only_setLabel _ _) H2)|].
    etransitivity; [apply (preserves_run _ _ _ _ _ (tree_only_setParent _ _) H3)|].
    apply (preserves_run _ _ _ _ _ (tree_only_setBranchLength _ _) H4). }
  destruct Hfr as [Hself Hgen Hng Hdisk Hlog].
  pose proof (wf_cache_none w name Hwf Hname) as Hcache.
  revert Hrun. unfold_heap. cbn.
  destruct (_file (self w4)) as [f|] eqn:Hf; cbn; [|discriminate].
  intros Heq. injection Heq as <- <-. cbn.
  rewrite Hself, Hgen, Hng, Hlog. rewrite map_insert_new_None by exact Hcache.
  repeat split; reflexivity.
Qed.

(** X19: after [addRootGenome] or [addLeafGenome] has returned a
    genome on a well-formed store, the genome is open: [openGenome] of
    the name returns the same object and changes nothing; the object
    has an empty payload, nothing was read from or written to the
    container, and the other names of the cache are as before. *)
Theorem added_genome_is_open (name : string) (w : World) (g : ptr) (w' : World)
    (Hwf : wf w)
    (Hadd : (exists bl, addRootGenome name bl w = (Ok g, w'))
            \/ (exists parentName bl, addLeafGenome name parentName bl w = (Ok g, w'))) :
  openGenome name w' = (Ok (Some g), w')
  /\ genomes w' !! g = Some (mkGenome name "")
  /\ ioLog w' = ioLog w
  /\ (forall other, other <> name ->
        _openGenomes (self w') !! other = _openGenomes (self w) !! other).
Proof.
  assert (Hc : g = nextGenome w
               /\ _openGenomes (self w') = <[name := g]> (_openGenomes (self w))
               /\ genomes w' = <[g := mkGenome name ""]> (genomes w)
               /\ ioLog w' = ioLog w).
  { destruct Hadd as [[bl Hrun]|(parentName & bl & Hrun)].
    - apply (addRootGenome_cache name bl w g w' Hwf Hrun).
    - apply (addLeafGenome_cache name parentName bl w g w' Hwf Hrun). }
  destruct Hc as (_ & Hcache & Hgen & Hlog).
  split; [|split; [|split]].
  - unfold openGenome, bind, get. rewrite Hcache, lookup_insert_eq. reflexivity.
  - rewrite Hgen. apply lookup_insert_eq.
  - exact Hlog.
  - intros other Hne. rewrite Hcache. apply lookup_insert_ne. congruence.
Qed.

End Added.

Lemma added_genome_is_open_witness :
  exists g w',
    addLeafGenome "B" "A" 2%float world_A = (Ok g, w')
    /\ openGenome "B" w' = (Ok (Some g), w')
    /\ genomes w' !! g = Some (mkGenome "B" "")
    /\ ioLog w' = ioLog world_A
    /\ (forall other, other <> "B"%string ->
          _openGenomes (self w') !! other = _openGenomes (self world_A) !! other).
Proof.
  destruct (addLeafGenome "B" "A" 2%float world_A) as [o w'] eqn:Hrun.
  assert (Ho : o = Ok 2%nat).
  { apply (f_equal fst) in Hrun. vm_compute in Hrun. congruence. }
  subst o. exists 2%nat, w'. split; [reflexivity|].
  apply (added_genome_is_open "B" world_A 2%nat w' world_A_wf).
  right. exists "A"%string, 2%float. exact Hrun.
Defined.

(** ** Exceptions of the member functions *)

Lemma getRootName_unchanged : unchanged getRootName.
Proof.
  apply unchanged_preserves. unfold getRootName, stTree_getLabel.
  preserves_tac ltac:(reflexivity).
Qed.

Lemma getParentName_unchanged name : unchanged (getParentName name).
Proof.
  apply unchanged_preserves. unfold getParentName, stTree_getParent, stTree_getLabel.
  preserves_tac ltac:(reflexivity).
Qed.

Lemma getBranchLength_unchanged parentName childName :
  unchanged (getBranchLength parentName childName).
Proof.
  apply unchanged_preserves.
  unfold getBranchLength, stTree_getParent, stTree_getLabel, stTree_getBranchLength.
  preserves_tac ltac:(reflexivity).
Qed.

Lemma getLeafNamesBelow_loop_throws w name fuel : forall q leaves e w',
  getLeafNamesBelow_loop fuel name q leaves w = (Throw e, w') -> e = NotFoundError.
Proof.
  induction fuel as [|fuel IH]; intros q leaves e w'; cbn [getLeafNamesBelow_loop];
    [discriminate|].
  destruct q as [|current rest]; [discriminate|].
  unfold bind. rewrite getChildNames_run.
  destruct (_nodeMap (self w) !! current) as [p|];
    [|intros Heq; injection Heq as <-; reflexivity].
  destruct (trees w !! p) as [n|]; [|discriminate].
  destruct (node_labels (trees w) (nodes n)); [|discriminate].
  apply IH.
Qed.

(** X20: a [hal_exception] out of [addRootGenome], [addLeafGenome],
    [closeGenome] or a tree query leaves the store as it was before the
    call, and only these exceptions occur: an empty or a duplicate name
    for [addRootGenome], these or a missing parent for [addLeafGenome],
    the genome that is not open for [closeGenome], a missing node, edge
    or tree for the queries. *)
Theorem exceptions_leave_store_unchanged (w : World) (e : hal_error) (w' : World) :
  (forall name bl, addRootGenome name bl w = (Throw e, w') ->
     w' = w /\ (e = InvalidArgumentError \/ e = DuplicateNameError))
  /\ (forall name parentName bl, addLeafGenome name parentName bl w = (Throw e, w') ->
     w' = w /\ (e = InvalidArgumentError \/ e = DuplicateNameError \/ e = NotFoundError))
  /\ (forall g, closeGenome g w = (Throw e, w') ->
     w' = w /\ e = InvariantViolationError)
  /\ (getRootName w = (Throw e, w') -> w' = w /\ e = NotFoundError)
  /\ (forall name, getParentName name w = (Throw e, w') -> w' = w /\ e = NotFoundError)
  /\ (forall parentName childName,
        getBranchLength parentName childName w = (Throw e, w') ->
        w' = w /\ e = NotFoundError)
  /\ (forall name, getChildNames name w = (Throw e, w') -> w' = w /\ e = NotFoundError)
  /\ (forall fuel name, getLeafNamesBelow fuel name w = (Throw e, w') ->
        w' = w /\ e = NotFoundError).
Proof.
  split; [|split; [|split; [|split; [|split; [|split; [|split]]]]]].
  - intros name bl Hrun. split; [exact (addRootGenome_throw name bl w e w' Hrun)|].
    revert Hrun. unfold addRootGenome.
    destruct (decide _); [intros Heq; injection Heq as <-; auto|].
    unfold bind at 1. unfold get.
    destruct (_nodeMap (self w) !! name); [intros Heq; injection Heq as <-; auto|].
    intros Hrun. exfalso. revert Hrun.
    assert (Hnt : never_throws
              (node <- stTree_construct ;;
               stTree_setLabel node (c_str name) ;;;
               match _tree (self w) with
               | Some t => stTree_setParent t (Some node) ;;; stTree_setBranchLength t bl
               | None => ret tt
               end ;;;
               modify (upd_self (set_tree (Some node))) ;;;
               modify (upd_self (fun a =>
                 set_nodeMap (map_insert_new name node (_nodeMap a)) a)) ;;;
               genome <- HDF5Genome_new name ;;
               modify (upd_self (fun a =>
                 set_openGenomes (map_insert_new name genome (_openGenomes a)) a)) ;;;
               modify (upd_self (set_dirty true)) ;;;
               ret genome)).
    { unfold stTree_setLabel, stTree_setParent, stTree_setBranchLength, HDF5Genome_new.
      never_throws_tac. }
    apply Hnt.
  - intros name parentName bl Hrun.
    split; [exact (addLeafGenome_throw name parentName bl w e w' Hrun)|].
    revert Hrun. unfold addLeafGenome.
    destruct (decide _); [intros Heq; injection Heq as <-; auto|].
    unfold bind at 1. unfold get.
    destruct (_nodeMap (self w) !! name); [intros Heq; injection Heq as <-; auto|].
    destruct (_nodeMap (self w) !! parentName) as [parent|];
      [|intros Heq; injection Heq as <-; auto].
    intros Hrun. exfalso. revert Hrun.
    assert (Hnt : never_throws
              (node <- stTree_construct ;;
               stTree_setLabel node (c_str name) ;;;
               stTree_setParent node (Some parent) ;;;
               stTree_setBranchLength node bl ;;;
               modify (upd_self (fun a =>
                 set_nodeMap (map_insert_new name node (_nodeMap a)) a)) ;;;
               genome <- HDF5Genome_new name ;;
               modify (upd_self (fun a =>
                 set_openGenomes (map_insert_new name genome (_openGenomes a)) a)) ;;;
               modify (upd_self (set_dirty true)) ;;;
               ret genome)).
    { unfold stTree_setLabel, stTree_setParent, stTree_setBranchLength, HDF5Genome_new.
      never_throws_tac. }
    apply Hnt.
  - intros g Hrun. split; [exact (closeGenome_throw g w e w' Hrun)|].
    revert Hrun. unfold closeGenome, genome_load. unfold bind at 1.
    destruct (genomes w !! g) as [o|]; [|discriminate].
    unfold bind at 1. unfold get.
    destruct (_openGenomes (self w) !! genomeName o) as [cached|];
      [|intros Heq; injection Heq as <-; reflexivity].
    intros Hrun. exfalso. revert Hrun.
    assert (Hnt : never_throws
              (HDF5Genome_write cached ;;;
               HDF5Genome_delete cached ;;;
               modify (upd_self (fun a =>
                 set_openGenomes (delete (genomeName o) (_openGenomes a)) a)))).
    { unfold HDF5Genome_write, HDF5Genome_delete, put_file. never_throws_tac. }
    apply Hnt.
  - intros Hrun. split.
    { rewrite <- (getRootName_unchanged w), Hrun. reflexivity. }
    revert Hrun. unfold getRootName. unfold_heap. cbn.
    destruct (_tree (self w)) as [t|]; [|intros Heq; injection Heq as <-; reflexivity].
    destruct (trees w !! t) as [n|]; cbn; [|discriminate].
    destruct (label n); discriminate.
  - intros name Hrun. split.
    { rewrite <- (getParentName_unchanged name w), Hrun. reflexivity. }
    revert Hrun. unfold getParentName. unfold_heap. cbn.
    destruct (_nodeMap (self w) !! name) as [p|];
      [|intros Heq; injection Heq as <-; reflexivity].
    cbn. destruct (trees w !! p) as [n|]; cbn; [|discriminate].
    destruct (parent n) as [q|]; [|discriminate].
    destruct (trees w !! q) as [qn|]; cbn; [|discriminate].
    destruct (label qn); discriminate.
  - intros parentName childName Hrun. split.
    { rewrite <- (getBranchLength_unchanged parentName childName w), Hrun. reflexivity. }
    revert Hrun. unfold getBranchLength. unfold_heap. cbn.
    destruct (_nodeMap (self w) !! childName) as [p|];
      [|intros Heq; injection Heq as <-; reflexivity].
    cbn. destruct (trees w !! p) as [n|] eqn:Hn; cbn; [|discriminate].
    destruct (parent n) as [q|]; [|intros Heq; injection Heq as <-; reflexivity].
    destruct (trees w !! q) as [qn|]; cbn; [|discriminate].
    destruct (label qn); [|discriminate].
    destruct (decide _); [intros Heq; injection Heq as <-; reflexivity|].
    rewrite Hn. discriminate.
  - intros name Hrun. split.
    { rewrite <- (getChildNames_unchanged name w), Hrun. reflexivity. }
    revert Hrun. rewrite getChildNames_run.
    destruct (_nodeMap (self w) !! name) as [p|];
      [|intros Heq; injection Heq as <-; reflexivity].
    destruct (trees w !! p) as [n|]; [|discriminate].
    destruct (node_labels (trees w) (nodes n)); discriminate.
  - intros fuel name Hrun. split.
    { pose proof (getLeafNamesBelow_loop_unchanged name fuel [name] [] w) as Hw.
      unfold getLeafNamesBelow in Hrun. rewrite Hrun in Hw. symmetry. exact Hw. }
    exact (getLeafNamesBelow_loop_throws w name fuel [name] [] e w' Hrun).
Qed.

(** [open] is not among them: it throws for a missing file after [close]
    has run. *)
Example open_throws_after_close :
  open (H := label_codec) "none.hal" true world_A
  = (Throw StorageIOError, (close (H := label_codec) world_A).2).
Proof. vm_compute. reflexivity. Qed.

End StoreFacts.
